(** * HailoRT core-op activation engine and broker client proxy

    A shallow embedding of
      - libhailort/src/core_op/core_op.cpp            (module [CoreOp])
      - libhailort/src/service/network_group_client.cpp (module [Client])
    with the properties of the activation engine and of the proxy that the
    specification states about them. *)

From Stdlib Require Import ZArith List String Bool Lia OrdersEx Sorted RelationClasses.
Import ListNotations.
Open Scope Z_scope.
Set Warnings "-register-all".

(** ** Status codes and [Expected<T>] *)

(** The members of [hailo_status] the two source files name, and
    [HAILO_TIMEOUT] as one more ordinary failure. *)
Inductive hailo_status : Type :=
| HAILO_SUCCESS
| HAILO_UNINITIALIZED
| HAILO_INVALID_ARGUMENT
| HAILO_OUT_OF_HOST_MEMORY
| HAILO_TIMEOUT
| HAILO_INTERNAL_FAILURE
| HAILO_NOT_FOUND
| HAILO_INVALID_OPERATION
| HAILO_NOT_IMPLEMENTED
| HAILO_NOT_AVAILABLE
| HAILO_NOT_SUPPORTED
| HAILO_STREAM_ABORTED_BY_USER.

Definition status_eq_dec (a b : hailo_status) : {a = b} + {a <> b}.
Proof. decide equality. Defined.

Definition status_eqb (a b : hailo_status) : bool :=
  if status_eq_dec a b then true else false.

(** [Expected<T>]: a value, or the status passed to [make_unexpected]. *)
Inductive Expected (T : Type) : Type :=
| Ok (v : T)
| Unexpected (s : hailo_status).
Arguments Ok {T} v.
Arguments Unexpected {T} s.

(** [Expected::value()].  Reading the value of an [Expected] that holds none
    is outside the contract of the class; [absent] stands for what comes back
    there.  The source reads a value only after it has checked the status. *)
Definition value {T} (e : Expected T) (absent : T) : T :=
  match e with
  | Ok v => v
  | Unexpected _ => absent
  end.

(** [Expected::status()] *)
Definition status_of {T} (e : Expected T) : hailo_status :=
  match e with
  | Ok _ => HAILO_SUCCESS
  | Unexpected s => s
  end.

(** Fixed-width integers of the source, as [Z] with the wrap-around written out. *)
Definition UINT16_MAX : Z := 65535.
Definition is_uint16 (z : Z) : Prop := 0 <= z <= UINT16_MAX.
Definition wrap_uint32 (z : Z) : Z := z mod 2 ^ 32.
Definition wrap_int64 (z : Z) : Z := (z + 2 ^ 63) mod 2 ^ 64 - 2 ^ 63.

(** Log lines, by level. *)
Inductive LogLevel : Type := LOG_DEBUG | LOG_INFO | LOG_WARNING | LOG_ERROR | LOG_CRITICAL.

(** ** Configuration parameters *)

Record hailo_network_parameters_t : Type := {
  batch_size : Z                       (* uint16_t *)
}.

Inductive hailo_stream_direction_t : Type := HAILO_H2D_STREAM | HAILO_D2H_STREAM.

Inductive hailo_stream_interface_t : Type :=
| HAILO_STREAM_INTERFACE_PCIE
| HAILO_STREAM_INTERFACE_INTEGRATED
| HAILO_STREAM_INTERFACE_ETH
| HAILO_STREAM_INTERFACE_MIPI.

Record hailo_stream_parameters_t : Type := {
  stream_interface : hailo_stream_interface_t;
  direction : hailo_stream_direction_t;
  flags : Z
}.

(** [std::map]s are lists of pairs in iteration order. *)
Record ConfigureNetworkParams : Type := {
  latency : Z;
  stream_params_by_name : list (string * hailo_stream_parameters_t);
  network_params_by_name : list (string * hailo_network_parameters_t)
}.

(** [ConfigureNetworkParams()] *)
Definition ConfigureNetworkParams_default : ConfigureNetworkParams :=
  {| latency := 0; stream_params_by_name := []; network_params_by_name := [] |}.

Definition wf_config_params (cp : ConfigureNetworkParams) : Prop :=
  Forall (fun p => is_uint16 (batch_size (snd p))) (network_params_by_name cp).

(** ** Batch size resolution *)

Section BatchSize.

(** Constants of headers outside the two files: the automatic sentinel and
    the batch size used when nothing is configured. *)
Variable HAILO_DEFAULT_BATCH_SIZE : Z.
Variable DEFAULT_ACTUAL_BATCH_SIZE : Z.

(** The body of the loop of [CoreOp::get_smallest_configured_batch_size]. *)
Definition min_batch_step (min_batch_size : Z)
    (network_params_pair : string * hailo_network_parameters_t) : Z :=
  if negb (HAILO_DEFAULT_BATCH_SIZE =? batch_size (snd network_params_pair))
     && (batch_size (snd network_params_pair) <? min_batch_size)
  then batch_size (snd network_params_pair)
  else min_batch_size.

Definition get_smallest_configured_batch_size (config_params : ConfigureNetworkParams) : Z :=
  let min_batch_size :=
    fold_left min_batch_step (network_params_by_name config_params) UINT16_MAX in
  if UINT16_MAX =? min_batch_size then DEFAULT_ACTUAL_BATCH_SIZE else min_batch_size.

(** The resolution as the specification words it: the batch sizes that are
    not at the sentinel, their minimum, and the default when there is none. *)
Definition explicit_batch_sizes (config_params : ConfigureNetworkParams) : list Z :=
  filter (fun b => negb (HAILO_DEFAULT_BATCH_SIZE =? b))
         (map (fun p => batch_size (snd p)) (network_params_by_name config_params)).

Fixpoint list_min (d : Z) (l : list Z) : Z :=
  match l with
  | [] => d
  | x :: r => match r with [] => x | _ => Z.min x (list_min d r) end
  end.

Definition spec_batch_size (config_params : ConfigureNetworkParams) : Z :=
  list_min DEFAULT_ACTUAL_BATCH_SIZE (explicit_batch_sizes config_params).

End BatchSize.

(** ** Core-op objects *)

Module CoreOp.

(** What a call does besides returning, in program order. *)
Inductive Event : Type :=
| EvHolderSet (core_op : nat)
| EvHolderClear
| EvActivateImpl (core_op : nat) (dynamic_batch_size : Z)
| EvDeactivateImpl (core_op : nat)
| EvEventSignal (core_op : nat)
| EvEventReset (core_op : nat)
| EvActivateStream (name : string)
| EvDeactivateStream (name : string)
| EvMeterRead (network : string)
| EvAddDataPoint
| EvLog (level : LogLevel).

(** A low-level stream, by what its two virtual calls answer. *)
Record Stream : Type := {
  activate_stream : hailo_status;
  deactivate_stream : hailo_status
}.

(** Modelled from the spec: the per-network hardware latency meter
    ([LatencyMeter], whose header is outside the two files).  It holds the
    accumulated sample, if any: a read with no sample is NOT_AVAILABLE, and
    clear-after-read zeroes the sample after a successful read. *)
Record LatencyMeter : Type := {
  sample : option Z                  (* std::chrono::nanoseconds *)
}.

Definition LatencyMeter_get_latency (m : LatencyMeter) (clear : bool)
  : Expected Z * LatencyMeter :=
  match sample m with
  | None => (Unexpected HAILO_NOT_AVAILABLE, m)
  | Some v => (Ok v, if clear then {| sample := None |} else m)
  end.

Definition LatencyMetersMap : Type := list (string * LatencyMeter).

Record LatencyMeasurementResult : Type := {
  avg_hw_latency : Z                 (* std::chrono::nanoseconds *)
}.

Inductive hailo_format_order_t : Type :=
| HAILO_FORMAT_ORDER_AUTO
| HAILO_FORMAT_ORDER_NHWC
| HAILO_FORMAT_ORDER_NHCW
| HAILO_FORMAT_ORDER_NC
| HAILO_FORMAT_ORDER_HAILO_NMS.

Definition format_order_eqb (a b : hailo_format_order_t) : bool :=
  match a, b with
  | HAILO_FORMAT_ORDER_AUTO, HAILO_FORMAT_ORDER_AUTO
  | HAILO_FORMAT_ORDER_NHWC, HAILO_FORMAT_ORDER_NHWC
  | HAILO_FORMAT_ORDER_NHCW, HAILO_FORMAT_ORDER_NHCW
  | HAILO_FORMAT_ORDER_NC, HAILO_FORMAT_ORDER_NC
  | HAILO_FORMAT_ORDER_HAILO_NMS, HAILO_FORMAT_ORDER_HAILO_NMS => true
  | _, _ => false
  end.

(** [LayerInfo]: the fields the file reads.  A multi-planar layer carries
    its planes, which are layers themselves. *)
Inductive LayerInfo : Type :=
| Build_LayerInfo (name : string) (network_name : string)
    (is_multi_planar : bool) (planes : list LayerInfo)
    (format_order : hailo_format_order_t).

Definition layer_name (l : LayerInfo) : string :=
  match l with Build_LayerInfo n _ _ _ _ => n end.
Definition layer_network_name (l : LayerInfo) : string :=
  match l with Build_LayerInfo _ n _ _ _ => n end.
Definition is_multi_planar (l : LayerInfo) : bool :=
  match l with Build_LayerInfo _ _ b _ _ => b end.
Definition planes (l : LayerInfo) : list LayerInfo :=
  match l with Build_LayerInfo _ _ _ p _ => p end.
Definition format_order (l : LayerInfo) : hailo_format_order_t :=
  match l with Build_LayerInfo _ _ _ _ o => o end.

(** The object: its identity ([this]), what its virtual hooks answer, and
    its members. *)
Record CoreOp : Type := {
  this : nat;
  is_scheduled : bool;
  activate_impl : Z -> hailo_status;
  deactivate_impl : hailo_status;
  activated_event_signal : hailo_status;  (* m_core_op_activated_event->signal() *)
  get_latency_meters : Expected LatencyMetersMap;
  get_all_layer_infos : list LayerInfo;   (* m_metadata *)
  m_config_params : ConfigureNetworkParams;
  m_input_streams : list (string * Stream);
  m_output_streams : list (string * Stream)
}.

Definition with_latency_meters (c : CoreOp) (m : LatencyMetersMap) : CoreOp :=
  {| this := this c;
     is_scheduled := is_scheduled c;
     activate_impl := activate_impl c;
     deactivate_impl := deactivate_impl c;
     activated_event_signal := activated_event_signal c;
     get_latency_meters := Ok m;
     get_all_layer_infos := get_all_layer_infos c;
     m_config_params := m_config_params c;
     m_input_streams := m_input_streams c;
     m_output_streams := m_output_streams c |}.

(** *** The Activated slot and the activation events *)

(** Modelled from the spec: the process-wide Activated slot
    ([ActiveCoreOpHolder], whose header is outside the two files): a single
    slot that is empty or holds one core-op. *)
Definition ActiveCoreOpHolder : Type := option nat.

Definition is_any_active (h : ActiveCoreOpHolder) : bool :=
  match h with Some _ => true | None => false end.

(** What the core-ops of one device share: the slot, and for every core-op
    whether its activation event is signalled. *)
Record Runtime : Type := {
  m_active_core_op_holder : ActiveCoreOpHolder;
  m_core_op_activated_event : nat -> bool
}.

Definition initial_runtime : Runtime :=
  {| m_active_core_op_holder := None;
     m_core_op_activated_event := fun _ => false |}.

Definition holder_set (rt : Runtime) (c : CoreOp) : Runtime :=
  {| m_active_core_op_holder := Some (this c);
     m_core_op_activated_event := m_core_op_activated_event rt |}.

Definition holder_clear (rt : Runtime) : Runtime :=
  {| m_active_core_op_holder := None;
     m_core_op_activated_event := m_core_op_activated_event rt |}.

(** Modelled from the spec: the activation-complete event ([Event], whose
    header is outside the two files): a successful signal leaves it
    signalled until the next reset; a signal that fails leaves it as it
    was. *)
Definition event_write (rt : Runtime) (id : nat) (b : bool) : Runtime :=
  {| m_active_core_op_holder := m_active_core_op_holder rt;
     m_core_op_activated_event :=
       fun j => if Nat.eqb j id then b else m_core_op_activated_event rt j |}.

Definition is_success (s : hailo_status) : bool := status_eqb HAILO_SUCCESS s.

(** The block the two failure paths of [activate] share (lines 136-140 and
    152-156): best-effort deactivation, then the slot is released. *)
Definition release_after_failure (c : CoreOp) (rt : Runtime) : Runtime * list Event :=
  let deactivate_status := deactivate_impl c in
  (holder_clear rt,
   [EvDeactivateImpl (this c)]
   ++ (if is_success deactivate_status then [] else [EvLog LOG_ERROR])
   ++ [EvHolderClear]).

(** [CoreOp::activate] *)
Definition activate (c : CoreOp) (dynamic_batch_size : Z) (rt : Runtime)
  : hailo_status * Runtime * list Event :=
  if is_scheduled c then (HAILO_INVALID_OPERATION, rt, [EvLog LOG_ERROR]) else
  if is_any_active (m_active_core_op_holder rt)
  then (HAILO_INVALID_OPERATION, rt, [EvLog LOG_ERROR]) else
  let rt1 := holder_set rt c in
  let status := activate_impl c dynamic_batch_size in
  let tr1 := [EvHolderSet (this c); EvActivateImpl (this c) dynamic_batch_size] in
  let '(rt2, tr2) :=
    if is_success status then (rt1, []) else release_after_failure c rt1 in
  if status_eqb HAILO_STREAM_ABORTED_BY_USER status then (status, rt2, tr1 ++ tr2) else
  if negb (is_success status) then (status, rt2, tr1 ++ tr2 ++ [EvLog LOG_ERROR]) else
  let status := activated_event_signal c in
  let rt3 := if is_success status then event_write rt2 (this c) true else rt2 in
  let tr3 := tr1 ++ tr2 ++ [EvEventSignal (this c)] in
  let '(rt4, tr4) :=
    if is_success status then (rt3, []) else release_after_failure c rt3 in
  if negb (is_success status) then (status, rt4, tr3 ++ tr4 ++ [EvLog LOG_ERROR]) else
  (HAILO_SUCCESS, rt4, tr3 ++ tr4 ++ [EvLog LOG_INFO; EvAddDataPoint]).

Section Deactivate.

(** What [ActiveCoreOpHolder::get] answers on an empty slot. *)
Variable HOLDER_EMPTY_STATUS : hailo_status.

Definition holder_get (h : ActiveCoreOpHolder) : Expected nat :=
  match h with
  | Some id => Ok id
  | None => Unexpected HOLDER_EMPTY_STATUS
  end.

(** [CoreOp::deactivate] *)
Definition deactivate (c : CoreOp) (rt : Runtime)
  : hailo_status * Runtime * list Event :=
  if is_scheduled c then (HAILO_INVALID_OPERATION, rt, [EvLog LOG_ERROR]) else
  match holder_get (m_active_core_op_holder rt) with
  | Unexpected s => (s, rt, [EvLog LOG_ERROR])
  | Ok core_op_ref =>
      if negb (Nat.eqb (this c) core_op_ref)
      then (HAILO_INTERNAL_FAILURE, rt, [EvLog LOG_ERROR]) else
      let rt1 := holder_clear rt in
      let rt2 := event_write rt1 (this c) false in
      let deactivate_status := deactivate_impl c in
      (deactivate_status, rt2,
       [EvHolderClear; EvEventReset (this c); EvDeactivateImpl (this c)]
       ++ (if is_success deactivate_status then [] else [EvLog LOG_ERROR])
       ++ [EvLog LOG_INFO; EvAddDataPoint])
  end.

(** Calls made on one device, one after the other. *)
Inductive Call : Type :=
| CallActivate (c : CoreOp) (dynamic_batch_size : Z)
| CallDeactivate (c : CoreOp).

Definition run_call (rt : Runtime) (call : Call) : Runtime :=
  match call with
  | CallActivate c b => snd (fst (activate c b rt))
  | CallDeactivate c => snd (fst (deactivate c rt))
  end.

Definition run_calls (calls : list Call) : Runtime :=
  fold_left run_call calls initial_runtime.

End Deactivate.

(** A core-op is Activated when its activation event is signalled. *)
Definition Activated (rt : Runtime) (id : nat) : Prop :=
  m_core_op_activated_event rt id = true.

(** *** [activate], one statement at a time *)

(** [activate] takes no lock: the test of the slot (line 130) and the write
    to it (line 132) are two statements, and another caller on the same
    device may run between them.  A call in progress stands at one of these
    points. *)
Inductive ActivatePoint : Type :=
| AtChecks                         (* entered: the two CHECKs, lines 126-131 *)
| AtClaim                          (* both passed: the set of line 132 is next *)
| AtHardware                       (* the slot is written: lines 134-164 are next *)
| AtReturn (status : hailo_status).

(** Lines 134-164, on the runtime as the caller finds it there. *)
Definition activate_from_hardware (c : CoreOp) (dynamic_batch_size : Z) (rt1 : Runtime)
  : hailo_status * Runtime * list Event :=
  let status := activate_impl c dynamic_batch_size in
  let tr1 := [EvActivateImpl (this c) dynamic_batch_size] in
  let '(rt2, tr2) :=
    if is_success status then (rt1, []) else release_after_failure c rt1 in
  if status_eqb HAILO_STREAM_ABORTED_BY_USER status then (status, rt2, tr1 ++ tr2) else
  if negb (is_success status) then (status, rt2, tr1 ++ tr2 ++ [EvLog LOG_ERROR]) else
  let status := activated_event_signal c in
  let rt3 := if is_success status then event_write rt2 (this c) true else rt2 in
  let tr3 := tr1 ++ tr2 ++ [EvEventSignal (this c)] in
  let '(rt4, tr4) :=
    if is_success status then (rt3, []) else release_after_failure c rt3 in
  if negb (is_success status) then (status, rt4, tr3 ++ tr4 ++ [EvLog LOG_ERROR]) else
  (HAILO_SUCCESS, rt4, tr3 ++ tr4 ++ [EvLog LOG_INFO; EvAddDataPoint]).

(** One caller moves from its point to the next. *)
Definition activate_step (c : CoreOp) (dynamic_batch_size : Z)
    (point : ActivatePoint) (rt : Runtime) : ActivatePoint * Runtime * list Event :=
  match point with
  | AtChecks =>
      if is_scheduled c then (AtReturn HAILO_INVALID_OPERATION, rt, [EvLog LOG_ERROR]) else
      if is_any_active (m_active_core_op_holder rt)
      then (AtReturn HAILO_INVALID_OPERATION, rt, [EvLog LOG_ERROR])
      else (AtClaim, rt, [])
  | AtClaim => (AtHardware, holder_set rt c, [EvHolderSet (this c)])
  | AtHardware =>
      let '(status, rt', tr) := activate_from_hardware c dynamic_batch_size rt in
      (AtReturn status, rt', tr)
  | AtReturn status => (AtReturn status, rt, [])
  end.

(** A call that nobody interrupts: its three moves in a row. *)
Definition activate_alone (c : CoreOp) (dynamic_batch_size : Z) (rt : Runtime)
  : ActivatePoint * Runtime * list Event :=
  let '(p1, rt1, tr1) := activate_step c dynamic_batch_size AtChecks rt in
  let '(p2, rt2, tr2) := activate_step c dynamic_batch_size p1 rt1 in
  let '(p3, rt3, tr3) := activate_step c dynamic_batch_size p2 rt2 in
  (p3, rt3, tr1 ++ tr2 ++ tr3).

(** Two calls in progress on one device, and who moves next. *)
Inductive Caller : Type := FirstCaller | SecondCaller.

Record Overlap : Type := {
  first_point : ActivatePoint;
  second_point : ActivatePoint;
  device_runtime : Runtime;
  device_trace : list Event
}.

Definition overlap_start (rt : Runtime) : Overlap :=
  {| first_point := AtChecks; second_point := AtChecks;
     device_runtime := rt; device_trace := [] |}.

Definition overlap_step (c1 : CoreOp) (b1 : Z) (c2 : CoreOp) (b2 : Z)
    (st : Overlap) (who : Caller) : Overlap :=
  match who with
  | FirstCaller =>
      let '(p, rt, tr) := activate_step c1 b1 (first_point st) (device_runtime st) in
      {| first_point := p; second_point := second_point st;
         device_runtime := rt; device_trace := device_trace st ++ tr |}
  | SecondCaller =>
      let '(p, rt, tr) := activate_step c2 b2 (second_point st) (device_runtime st) in
      {| first_point := first_point st; second_point := p;
         device_runtime := rt; device_trace := device_trace st ++ tr |}
  end.

Definition overlap_run (c1 : CoreOp) (b1 : Z) (c2 : CoreOp) (b2 : Z)
    (schedule : list Caller) (rt : Runtime) : Overlap :=
  fold_left (overlap_step c1 b1 c2 b2) schedule (overlap_start rt).

(** The schedule of two calls made one after the other. *)
Definition in_turn : list Caller :=
  [FirstCaller; FirstCaller; FirstCaller; SecondCaller; SecondCaller; SecondCaller].

(** *** Low-level streams *)

(** [CoreOp::activate_low_level_streams], one loop. *)
Fixpoint activate_streams_loop (streams : list (string * Stream))
  : hailo_status * list Event :=
  match streams with
  | [] => (HAILO_SUCCESS, [])
  | name_pair :: rest =>
      let status := activate_stream (snd name_pair) in
      if status_eqb HAILO_STREAM_ABORTED_BY_USER status
      then (status, [EvActivateStream (fst name_pair); EvLog LOG_INFO]) else
      if negb (is_success status)
      then (status, [EvActivateStream (fst name_pair); EvLog LOG_ERROR]) else
      let '(s, tr) := activate_streams_loop rest in
      (s, EvActivateStream (fst name_pair) :: tr)
  end.

Definition activate_low_level_streams (c : CoreOp) : hailo_status * list Event :=
  let '(s_in, tr_in) := activate_streams_loop (m_input_streams c) in
  if negb (is_success s_in) then (s_in, tr_in) else
  let '(s_out, tr_out) := activate_streams_loop (m_output_streams c) in
  if negb (is_success s_out) then (s_out, tr_in ++ tr_out) else
  (HAILO_SUCCESS, tr_in ++ tr_out).

(** [CoreOp::deactivate_low_level_streams]: the body of either loop, on
    the running [status] and the trace so far. *)
Definition deactivate_stream_step (acc : hailo_status * list Event)
    (name_pair : string * Stream) : hailo_status * list Event :=
  let deactivate_status := deactivate_stream (snd name_pair) in
  if negb (is_success deactivate_status)
  then (deactivate_status,
        snd acc ++ [EvDeactivateStream (fst name_pair); EvLog LOG_ERROR])
  else (fst acc, snd acc ++ [EvDeactivateStream (fst name_pair)]).

Definition deactivate_low_level_streams (c : CoreOp) : hailo_status * list Event :=
  let status := (HAILO_SUCCESS, []) in
  let status := fold_left deactivate_stream_step (m_input_streams c) status in
  fold_left deactivate_stream_step (m_output_streams c) status.

(** *** Latency measurement *)

(** [get_latency], the helper above [CoreOp::get_latency_measurement]. *)
Definition get_latency (latency_meter : LatencyMeter) (clear : bool)
  : Expected Z * LatencyMeter * list Event :=
  let '(hw_latency, latency_meter') := LatencyMeter_get_latency latency_meter clear in
  if status_eqb HAILO_NOT_AVAILABLE (status_of hw_latency)
  then (Unexpected HAILO_NOT_AVAILABLE, latency_meter', [])
  else match hw_latency with
       | Unexpected s => (Unexpected s, latency_meter', [EvLog LOG_ERROR])
       | Ok v => (Ok v, latency_meter', [])
       end.

(** [contains] and [at] of the meter map; the meters are shared objects, so
    a read that clears one is written back under its name. *)
Fixpoint meters_find (m : LatencyMetersMap) (k : string) : option LatencyMeter :=
  match m with
  | [] => None
  | (k', v) :: rest => if String.eqb k' k then Some v else meters_find rest k
  end.

Fixpoint meters_update (m : LatencyMetersMap) (k : string) (v : LatencyMeter)
  : LatencyMetersMap :=
  match m with
  | [] => []
  | (k', v') :: rest =>
      if String.eqb k' k then (k', v) :: rest else (k', v') :: meters_update rest k v
  end.

(** The loop over the meters (lines 93-101), on the running sum (signed 64
    bits) and count (unsigned 32 bits).  It gives back the meters as the
    reads left them. *)
Fixpoint latency_meters_loop (clear : bool) (meters : LatencyMetersMap)
    (latency_sum measurements_count : Z)
  : Expected (Z * Z) * LatencyMetersMap * list Event :=
  match meters with
  | [] => (Ok (latency_sum, measurements_count), [], [])
  | (network, meter) :: rest =>
      let '(hw_latency, meter', ev) := get_latency meter clear in
      if status_eqb HAILO_NOT_AVAILABLE (status_of hw_latency) then
        let '(r, rest', tr) :=
          latency_meters_loop clear rest latency_sum measurements_count in
        (r, (network, meter') :: rest', EvMeterRead network :: ev ++ tr)
      else
        match hw_latency with
        | Unexpected s =>
            (Unexpected s, (network, meter') :: rest,
             EvMeterRead network :: ev ++ [EvLog LOG_ERROR])
        | Ok v =>
            let '(r, rest', tr) :=
              latency_meters_loop clear rest (wrap_int64 (latency_sum + v))
                                  (wrap_uint32 (measurements_count + 1)) in
            (r, (network, meter') :: rest', EvMeterRead network :: ev ++ tr)
        end
  end.

Section Latency.

(** The clear-after-read bit of [hailo_latency_measurement_flags_t]. *)
Variable HAILO_LATENCY_CLEAR_AFTER_GET : Z.

(** [CoreOp::get_latency_measurement]; the core-op comes back with its
    meters as the call left them. *)
Definition get_latency_measurement (c : CoreOp) (network_name : string)
  : Expected LatencyMeasurementResult * CoreOp * list Event :=
  let clear :=
    Z.land (latency (m_config_params c)) HAILO_LATENCY_CLEAR_AFTER_GET
    =? HAILO_LATENCY_CLEAR_AFTER_GET in
  match get_latency_meters c with
  | Unexpected s => (Unexpected s, c, [EvLog LOG_ERROR])
  | Ok latency_meters =>
      if String.eqb network_name EmptyString then
        if negb (Nat.eqb 1 (List.length (m_input_streams c)))
        then (Unexpected HAILO_NOT_AVAILABLE, c, []) else
        let '(r, meters', tr) := latency_meters_loop clear latency_meters 0 0 in
        let c' := with_latency_meters c meters' in
        match r with
        | Unexpected s => (Unexpected s, c', tr)
        | Ok (latency_sum, measurements_count) =>
            if 0 =? measurements_count
            then (Unexpected HAILO_NOT_AVAILABLE, c', tr ++ [EvLog LOG_DEBUG])
            else (Ok {| avg_hw_latency := Z.quot latency_sum measurements_count |},
                  c', tr)
        end
      else
        match meters_find latency_meters network_name with
        | None => (Unexpected HAILO_NOT_FOUND, c, [EvLog LOG_DEBUG])
        | Some meter =>
            let '(hw_latency, meter', ev) := get_latency meter clear in
            let c' :=
              with_latency_meters c (meters_update latency_meters network_name meter') in
            if status_eqb HAILO_NOT_AVAILABLE (status_of hw_latency)
            then (Unexpected HAILO_NOT_AVAILABLE, c', EvMeterRead network_name :: ev)
            else match hw_latency with
                 | Unexpected s =>
                     (Unexpected s, c',
                      EvMeterRead network_name :: ev ++ [EvLog LOG_ERROR])
                 | Ok v =>
                     (Ok {| avg_hw_latency := v |}, c', EvMeterRead network_name :: ev)
                 end
        end
  end.

End Latency.

(** The samples of the meters that have data, in map order. *)
Definition reported_samples (meters : LatencyMetersMap) : list Z :=
  flat_map (fun p => match sample (snd p) with Some v => [v] | None => [] end) meters.

Definition sum_samples (l : list Z) : Z := fold_right Z.add 0 l.

Definition meter_reads (tr : list Event) : list Event :=
  filter (fun e => match e with EvMeterRead _ => true | _ => false end) tr.

(** *** Stream construction *)

Inductive DeviceType : Type := PCIE | ETH | INTEGRATED.

Record Device : Type := {
  get_type : DeviceType;
  is_stream_interface_supported : hailo_stream_interface_t -> bool
}.

(** The output stream objects the file builds: the transport-specific
    streams, and the NMS stream that owns a base stream. *)
Inductive OutputStreamBase : Type :=
| VdmaOutputStream (interface : hailo_stream_interface_t) (channel : nat)
    (layer_info : LayerInfo)
| EthernetOutputStream (layer_info : LayerInfo)
| NmsOutputStream (base_stream : OutputStreamBase) (layer_info : LayerInfo)
    (max_queue_size : Z).

Definition is_transport_stream (s : OutputStreamBase) : bool :=
  match s with
  | NmsOutputStream _ _ _ => false
  | _ => true
  end.

(** A [create] of a class outside the file: it builds the object of its own
    class or fails with a status. *)
Definition construct {T} (status : hailo_status) (object : T) : Expected T :=
  if is_success status then Ok object else Unexpected status.

(** [CoreOp::get_layer_info] (log lines left out from here on). *)
Fixpoint find_plane (planes : list LayerInfo) (stream_name : string) : option LayerInfo :=
  match planes with
  | [] => None
  | plane :: rest =>
      if String.eqb (layer_name plane) stream_name then Some plane
      else find_plane rest stream_name
  end.

Fixpoint get_layer_info_loop (layers : list LayerInfo) (stream_name : string)
  : Expected LayerInfo :=
  match layers with
  | [] => Unexpected HAILO_NOT_FOUND
  | layer_info :: rest =>
      match (if is_multi_planar layer_info
             then find_plane (planes layer_info) stream_name else None) with
      | Some cpy => Ok cpy
      | None =>
          if String.eqb (layer_name layer_info) stream_name then Ok layer_info
          else get_layer_info_loop rest stream_name
      end
  end.

Definition get_layer_info (c : CoreOp) (stream_name : string) : Expected LayerInfo :=
  get_layer_info_loop (get_all_layer_infos c) stream_name.

Section Streams.

Variable HAILO_DEFAULT_BATCH_SIZE : Z.
Variable DEFAULT_ACTUAL_BATCH_SIZE : Z.
(** The scale between the resolved batch size and the NMS queue depth. *)
Variable MAX_ACTIVE_TRANSFERS_SCALE : Z.
(** A virtual of [CoreOp], and the outcome of the three [create]s. *)
Variable get_boundary_vdma_channel_by_stream_name : string -> Expected nat.
Variable VdmaOutputStream_create_status :
  hailo_stream_interface_t -> nat -> LayerInfo -> hailo_status.
Variable EthernetOutputStream_create_status : LayerInfo -> hailo_status.
Variable NmsOutputStream_create_status :
  OutputStreamBase -> LayerInfo -> Z -> hailo_status.

Fixpoint find_network_batch_size (networks : list (string * hailo_network_parameters_t))
    (network_name : string) : option Z :=
  match networks with
  | [] => None
  | network_params_pair :: rest =>
      if String.eqb (fst network_params_pair) network_name
      then Some (batch_size (snd network_params_pair))
      else find_network_batch_size rest network_name
  end.

(** [CoreOp::get_stream_batch_size] *)
Fixpoint get_stream_batch_size_loop (layers : list LayerInfo)
    (config_params : ConfigureNetworkParams) (stream_name : string) : Expected Z :=
  match layers with
  | [] => Unexpected HAILO_NOT_FOUND
  | layer_info :: rest =>
      let stream_under_multi_planes_layer :=
        is_multi_planar layer_info
        && existsb (fun plane => String.eqb (layer_name plane) stream_name)
                   (planes layer_info) in
      if String.eqb (layer_name layer_info) stream_name || stream_under_multi_planes_layer
      then match find_network_batch_size (network_params_by_name config_params)
                                         (layer_network_name layer_info) with
           | Some batch_size =>
               Ok (if batch_size =? HAILO_DEFAULT_BATCH_SIZE
                   then DEFAULT_ACTUAL_BATCH_SIZE else batch_size)
           | None => get_stream_batch_size_loop rest config_params stream_name
           end
      else get_stream_batch_size_loop rest config_params stream_name
  end.

Definition get_stream_batch_size (c : CoreOp) (stream_name : string) : Expected Z :=
  get_stream_batch_size_loop (get_all_layer_infos c) (m_config_params c) stream_name.

(** [CoreOp::create_vdma_output_stream] *)
Definition create_vdma_output_stream (c : CoreOp) (device : Device)
    (stream_name : string) (layer_info : LayerInfo)
    (stream_params : hailo_stream_parameters_t) : Expected OutputStreamBase :=
  match get_type device with
  | ETH => Unexpected HAILO_INTERNAL_FAILURE
  | INTEGRATED | PCIE =>
      match get_stream_batch_size c stream_name with
      | Unexpected s => Unexpected s
      | Ok _ =>
          match get_boundary_vdma_channel_by_stream_name stream_name with
          | Unexpected s => Unexpected s
          | Ok channel =>
              construct
                (VdmaOutputStream_create_status (stream_interface stream_params)
                                                channel layer_info)
                (VdmaOutputStream (stream_interface stream_params) channel layer_info)
          end
      end
  end.

(** [CoreOp::create_output_stream_from_config_params]: first the [switch] on
    the stream interface, which builds the transport-specific stream. *)
Definition create_transport_output_stream (c : CoreOp) (device : Device)
    (stream_params : hailo_stream_parameters_t) (stream_name : string)
    (layer_info : LayerInfo) : Expected OutputStreamBase :=
  match stream_interface stream_params with
  | HAILO_STREAM_INTERFACE_PCIE | HAILO_STREAM_INTERFACE_INTEGRATED =>
      create_vdma_output_stream c device stream_name layer_info stream_params
  | HAILO_STREAM_INTERFACE_ETH =>
      construct (EthernetOutputStream_create_status layer_info)
                (EthernetOutputStream layer_info)
  | _ => Unexpected HAILO_NOT_IMPLEMENTED
  end.

Definition create_output_stream_from_config_params (c : CoreOp) (device : Device)
    (stream_params : hailo_stream_parameters_t) (stream_name : string)
  : Expected OutputStreamBase :=
  match get_layer_info c stream_name with
  | Unexpected s => Unexpected s
  | Ok layer_info =>
      if negb (is_stream_interface_supported device (stream_interface stream_params))
      then Unexpected HAILO_INVALID_OPERATION else
      match create_transport_output_stream c device stream_params stream_name
                                           layer_info with
      | Unexpected s => Unexpected s
      | Ok output_stream =>
          if format_order_eqb HAILO_FORMAT_ORDER_HAILO_NMS (format_order layer_info)
          then
            let base_stream := output_stream in
            let batch_size :=
              get_smallest_configured_batch_size
                HAILO_DEFAULT_BATCH_SIZE DEFAULT_ACTUAL_BATCH_SIZE (m_config_params c) in
            let max_queue_size := batch_size * MAX_ACTIVE_TRANSFERS_SCALE in
            construct
              (NmsOutputStream_create_status base_stream layer_info max_queue_size)
              (NmsOutputStream base_stream layer_info max_queue_size)
          else Ok output_stream
      end
  end.

End Streams.

End CoreOp.

(** ** The broker client proxy *)

Module Client.

(** What a proxy call does besides returning: remote calls and log lines. *)
Inductive Event : Type :=
| EvRpc (method : string)
| EvLog (level : LogLevel).

(** [HailoRtRpcClient], by what the broker answers to the remote calls the
    functions below make. *)
Record HailoRtRpcClient : Type := {
  ConfiguredNetworkGroup_is_scheduled : Expected bool;
  ConfiguredNetworkGroup_is_multi_context : Expected bool;
  ConfiguredNetworkGroup_get_config_params : Expected ConfigureNetworkParams;
  ConfiguredNetworkGroup_get_latency_measurement :
    string -> Expected CoreOp.LatencyMeasurementResult
}.

Record ConfiguredNetworkGroupClient : Type := {
  m_client : HailoRtRpcClient;
  m_network_group_name : string
}.

(** Objects the proxy never hands out. *)
Inductive ActivatedNetworkGroup : Type := Build_ActivatedNetworkGroup.
Inductive InputStream : Type := Build_InputStream (name : string).
Inductive OutputStream : Type := Build_OutputStream (name : string).

Definition activate (c : ConfiguredNetworkGroupClient) (network_group_params : Z)
  : Expected ActivatedNetworkGroup * list Event :=
  (Unexpected HAILO_INVALID_OPERATION, [EvLog LOG_WARNING]).

(** A call that is routed, for comparison. *)
Definition get_latency_measurement (c : ConfiguredNetworkGroupClient) (network_name : string)
  : Expected CoreOp.LatencyMeasurementResult * list Event :=
  (ConfiguredNetworkGroup_get_latency_measurement (m_client c) network_name,
   [EvRpc "ConfiguredNetworkGroup_get_latency_measurement"]).

Definition get_input_stream_by_name (c : ConfiguredNetworkGroupClient) (name : string)
  : Expected InputStream * list Event :=
  (Unexpected HAILO_INVALID_OPERATION, [EvLog LOG_ERROR]).

Definition get_output_stream_by_name (c : ConfiguredNetworkGroupClient) (name : string)
  : Expected OutputStream * list Event :=
  (Unexpected HAILO_INVALID_OPERATION, [EvLog LOG_ERROR]).

Definition get_input_streams_by_network (c : ConfiguredNetworkGroupClient)
    (network_name : string) : Expected (list InputStream) * list Event :=
  (Unexpected HAILO_INVALID_OPERATION, [EvLog LOG_ERROR]).

Definition get_output_streams_by_network (c : ConfiguredNetworkGroupClient)
    (network_name : string) : Expected (list OutputStream) * list Event :=
  (Unexpected HAILO_INVALID_OPERATION, [EvLog LOG_ERROR]).

Definition get_input_streams (c : ConfiguredNetworkGroupClient)
  : list InputStream * list Event :=
  let empty_vec := [] in
  (empty_vec, [EvLog LOG_ERROR]).

Definition get_output_streams (c : ConfiguredNetworkGroupClient)
  : list OutputStream * list Event :=
  let empty_vec := [] in
  (empty_vec, [EvLog LOG_ERROR]).

Definition wait_for_activation (c : ConfiguredNetworkGroupClient) (timeout : Z)
  : hailo_status * list Event :=
  (HAILO_INVALID_OPERATION, [EvLog LOG_WARNING]).

Definition is_scheduled (c : ConfiguredNetworkGroupClient) : bool * list Event :=
  let reply := ConfiguredNetworkGroup_is_scheduled (m_client c) in
  if negb (status_eqb (status_of reply) HAILO_SUCCESS)
  then (false, [EvRpc "ConfiguredNetworkGroup_is_scheduled"; EvLog LOG_ERROR])
  else (value reply false, [EvRpc "ConfiguredNetworkGroup_is_scheduled"]).

Definition is_multi_context (c : ConfiguredNetworkGroupClient) : bool * list Event :=
  let reply := ConfiguredNetworkGroup_is_multi_context (m_client c) in
  if negb (status_eqb (status_of reply) HAILO_SUCCESS)
  then (false, [EvRpc "ConfiguredNetworkGroup_is_multi_context"; EvLog LOG_ERROR])
  else (value reply false, [EvRpc "ConfiguredNetworkGroup_is_multi_context"]).

Definition get_config_params (c : ConfiguredNetworkGroupClient)
  : ConfigureNetworkParams * list Event :=
  let reply := ConfiguredNetworkGroup_get_config_params (m_client c) in
  if negb (status_eqb (status_of reply) HAILO_SUCCESS)
  then (ConfigureNetworkParams_default,
        [EvRpc "ConfiguredNetworkGroup_get_config_params"; EvLog LOG_ERROR])
  else (value reply ConfigureNetworkParams_default,
        [EvRpc "ConfiguredNetworkGroup_get_config_params"]).

(** The operations that make no sense through the broker, and what one of
    them hands back: a status (that of the [Expected] where the function
    returns one), or a vector of stream references. *)
Inductive NonRoutable : Type :=
| OpActivate (network_group_params : Z)
| OpWaitForActivation (timeout : Z)
| OpGetInputStreamByName (name : string)
| OpGetOutputStreamByName (name : string)
| OpGetInputStreamsByNetwork (network_name : string)
| OpGetOutputStreamsByNetwork (network_name : string)
| OpGetInputStreams
| OpGetOutputStreams.

Inductive Outcome : Type :=
| OutStatus (s : hailo_status)
| OutStreams (how_many : nat).

Definition call (c : ConfiguredNetworkGroupClient) (op : NonRoutable)
  : Outcome * list Event :=
  match op with
  | OpActivate p => let '(r, tr) := activate c p in (OutStatus (status_of r), tr)
  | OpWaitForActivation t => let '(s, tr) := wait_for_activation c t in (OutStatus s, tr)
  | OpGetInputStreamByName n =>
      let '(r, tr) := get_input_stream_by_name c n in (OutStatus (status_of r), tr)
  | OpGetOutputStreamByName n =>
      let '(r, tr) := get_output_stream_by_name c n in (OutStatus (status_of r), tr)
  | OpGetInputStreamsByNetwork n =>
      let '(r, tr) := get_input_streams_by_network c n in (OutStatus (status_of r), tr)
  | OpGetOutputStreamsByNetwork n =>
      let '(r, tr) := get_output_streams_by_network c n in (OutStatus (status_of r), tr)
  | OpGetInputStreams =>
      let '(v, tr) := get_input_streams c in (OutStreams (List.length v), tr)
  | OpGetOutputStreams =>
      let '(v, tr) := get_output_streams c in (OutStreams (List.length v), tr)
  end.

Definition remote_calls (tr : list Event) : list Event :=
  filter (fun e => match e with EvRpc _ => true | EvLog _ => false end) tr.

Definition returns_stream_vector (op : NonRoutable) : bool :=
  match op with
  | OpGetInputStreams | OpGetOutputStreams => true
  | _ => false
  end.

End Client.

(** ** Concrete inputs used by the examples below *)

Definition network (name : string) (b : Z) : string * hailo_network_parameters_t :=
  (name, {| batch_size := b |}).

Definition networks (l : list (string * hailo_network_parameters_t))
  : ConfigureNetworkParams :=
  {| latency := 0; stream_params_by_name := []; network_params_by_name := l |}.

Definition plain_core_op (id : nat) : CoreOp.CoreOp :=
  {| CoreOp.this := id;
     CoreOp.is_scheduled := false;
     CoreOp.activate_impl := fun _ => HAILO_SUCCESS;
     CoreOp.deactivate_impl := HAILO_SUCCESS;
     CoreOp.activated_event_signal := HAILO_SUCCESS;
     CoreOp.get_latency_meters := Ok [];
     CoreOp.get_all_layer_infos := [];
     CoreOp.m_config_params := ConfigureNetworkParams_default;
     CoreOp.m_input_streams := [];
     CoreOp.m_output_streams := [] |}.

Definition with_streams (c : CoreOp.CoreOp)
    (inputs outputs : list (string * CoreOp.Stream)) : CoreOp.CoreOp :=
  {| CoreOp.this := CoreOp.this c;
     CoreOp.is_scheduled := CoreOp.is_scheduled c;
     CoreOp.activate_impl := CoreOp.activate_impl c;
     CoreOp.deactivate_impl := CoreOp.deactivate_impl c;
     CoreOp.activated_event_signal := CoreOp.activated_event_signal c;
     CoreOp.get_latency_meters := CoreOp.get_latency_meters c;
     CoreOp.get_all_layer_infos := CoreOp.get_all_layer_infos c;
     CoreOp.m_config_params := CoreOp.m_config_params c;
     CoreOp.m_input_streams := inputs;
     CoreOp.m_output_streams := outputs |}.

Definition with_hooks (c : CoreOp.CoreOp) (scheduled : bool)
    (activate_status deactivate_status signal_status : hailo_status) : CoreOp.CoreOp :=
  {| CoreOp.this := CoreOp.this c;
     CoreOp.is_scheduled := scheduled;
     CoreOp.activate_impl := fun _ => activate_status;
     CoreOp.deactivate_impl := deactivate_status;
     CoreOp.activated_event_signal := signal_status;
     CoreOp.get_latency_meters := CoreOp.get_latency_meters c;
     CoreOp.get_all_layer_infos := CoreOp.get_all_layer_infos c;
     CoreOp.m_config_params := CoreOp.m_config_params c;
     CoreOp.m_input_streams := CoreOp.m_input_streams c;
     CoreOp.m_output_streams := CoreOp.m_output_streams c |}.

Definition stream (name : string) (activate_status deactivate_status : hailo_status)
  : string * CoreOp.Stream :=
  (name, {| CoreOp.activate_stream := activate_status;
            CoreOp.deactivate_stream := deactivate_status |}).

(** ** Teardown, as the specification words it *)

(** What the teardown of each stream answers, inputs first, and the names in
    the same order. *)
Definition teardown_statuses (c : CoreOp.CoreOp) : list hailo_status :=
  map (fun p => CoreOp.deactivate_stream (snd p))
      (CoreOp.m_input_streams c ++ CoreOp.m_output_streams c).

Definition stream_names (c : CoreOp.CoreOp) : list string :=
  map fst (CoreOp.m_input_streams c ++ CoreOp.m_output_streams c).

Definition failures (l : list hailo_status) : list hailo_status :=
  filter (fun s => negb (CoreOp.is_success s)) l.

Definition first_failure (l : list hailo_status) : hailo_status :=
  hd HAILO_SUCCESS (failures l).

Definition last_failure (l : list hailo_status) : hailo_status :=
  last (failures l) HAILO_SUCCESS.

Definition attempted_teardowns (tr : list CoreOp.Event) : list string :=
  flat_map (fun e => match e with CoreOp.EvDeactivateStream n => [n] | _ => [] end) tr.

Definition error_lines (tr : list CoreOp.Event) : nat :=
  List.length (filter (fun e => match e with
                                | CoreOp.EvLog LOG_ERROR => true
                                | _ => false
                                end) tr).

(** ** The invariant of a device *)

(** A core-op whose activation event is signalled is the one in the slot. *)
Definition slot_invariant (rt : CoreOp.Runtime) : Prop :=
  forall id, CoreOp.Activated rt id -> CoreOp.m_active_core_op_holder rt = Some id.


(** What the activation of each stream answers, inputs first. *)
Definition activation_statuses (c : CoreOp.CoreOp) : list hailo_status :=
  map (fun p => CoreOp.activate_stream (snd p))
      (CoreOp.m_input_streams c ++ CoreOp.m_output_streams c).

(** The events of the failure path of [activate], after the hardware step. *)
Definition release_events (c : CoreOp.CoreOp) : list CoreOp.Event :=
  [CoreOp.EvDeactivateImpl (CoreOp.this c)]
  ++ (if CoreOp.is_success (CoreOp.deactivate_impl c) then [] else [CoreOp.EvLog LOG_ERROR])
  ++ [CoreOp.EvHolderClear].


Definition with_meters (c : CoreOp.CoreOp) (meters : Expected CoreOp.LatencyMetersMap)
  : CoreOp.CoreOp :=
  {| CoreOp.this := CoreOp.this c;
     CoreOp.is_scheduled := CoreOp.is_scheduled c;
     CoreOp.activate_impl := CoreOp.activate_impl c;
     CoreOp.deactivate_impl := CoreOp.deactivate_impl c;
     CoreOp.activated_event_signal := CoreOp.activated_event_signal c;
     CoreOp.get_latency_meters := meters;
     CoreOp.get_all_layer_infos := CoreOp.get_all_layer_infos c;
     CoreOp.m_config_params := CoreOp.m_config_params c;
     CoreOp.m_input_streams := CoreOp.m_input_streams c;
     CoreOp.m_output_streams := CoreOp.m_output_streams c |}.

Definition meter (network : string) (s : option Z) : string * CoreOp.LatencyMeter :=
  (network, {| CoreOp.sample := s |}).

(** The average the specification words: the sum of the samples of the meters
    that have data, divided by their number. *)
Definition average_latency (meters : CoreOp.LatencyMetersMap) : Z :=
  Z.quot (CoreOp.sum_samples (CoreOp.reported_samples meters))
         (Z.of_nat (List.length (CoreOp.reported_samples meters))).

(** The sum and the count fit the 64 and 32 bits the loop keeps them in. *)
Definition samples_in_range (meters : CoreOp.LatencyMetersMap) : Prop :=
  Forall (fun v => 0 <= v) (CoreOp.reported_samples meters)
  /\ CoreOp.sum_samples (CoreOp.reported_samples meters) < 2 ^ 63
  /\ Z.of_nat (List.length (CoreOp.reported_samples meters)) < 2 ^ 32.


Definition with_params (c : CoreOp.CoreOp) (cp : ConfigureNetworkParams)
    (layers : list CoreOp.LayerInfo) : CoreOp.CoreOp :=
  {| CoreOp.this := CoreOp.this c;
     CoreOp.is_scheduled := CoreOp.is_scheduled c;
     CoreOp.activate_impl := CoreOp.activate_impl c;
     CoreOp.deactivate_impl := CoreOp.deactivate_impl c;
     CoreOp.activated_event_signal := CoreOp.activated_event_signal c;
     CoreOp.get_latency_meters := CoreOp.get_latency_meters c;
     CoreOp.get_all_layer_infos := layers;
     CoreOp.m_config_params := cp;
     CoreOp.m_input_streams := CoreOp.m_input_streams c;
     CoreOp.m_output_streams := CoreOp.m_output_streams c |}.

(** A core-op with [inputs] input streams, the clear-after-read bit (2) set,
    and three meters of which two have data. *)
Definition metered_core_op (inputs : list (string * CoreOp.Stream)) : CoreOp.CoreOp :=
  with_meters
    (with_streams
       (with_params (plain_core_op 1)
          {| latency := 2; stream_params_by_name := []; network_params_by_name := [] |}
          [])
       inputs [])
    (Ok [meter "net0" (Some 10); meter "net1" None; meter "net2" (Some 25)]).


(** A core-op with the networks A:4, B:automatic, C:2 and two output layers
    of network A, one in NMS order and one not, on a PCIe device. *)
Definition nms_layer : CoreOp.LayerInfo :=
  CoreOp.Build_LayerInfo "nms_out" "A" false [] CoreOp.HAILO_FORMAT_ORDER_HAILO_NMS.

Definition dense_layer : CoreOp.LayerInfo :=
  CoreOp.Build_LayerInfo "dense_out" "A" false [] CoreOp.HAILO_FORMAT_ORDER_NHWC.

Definition detection_core_op : CoreOp.CoreOp :=
  with_params (plain_core_op 1)
    (networks [network "A" 4; network "B" 0; network "C" 2])
    [dense_layer; nms_layer].

(** The same layers with one network, configured with the batch size 65535. *)
Definition saturated_core_op : CoreOp.CoreOp :=
  with_params (plain_core_op 1)
    (networks [network "A" 65535])
    [dense_layer; nms_layer].

Definition pcie_device : CoreOp.Device :=
  {| CoreOp.get_type := CoreOp.PCIE;
     CoreOp.is_stream_interface_supported := fun _ => true |}.

Definition pcie_output_params : hailo_stream_parameters_t :=
  {| stream_interface := HAILO_STREAM_INTERFACE_PCIE;
     direction := HAILO_D2H_STREAM;
     flags := 0 |}.


(** A proxy whose broker answers every call with [status], and one whose
    broker answers false, false and the default parameters. *)
Definition failing_proxy (status : hailo_status) : Client.ConfiguredNetworkGroupClient :=
  {| Client.m_client :=
       {| Client.ConfiguredNetworkGroup_is_scheduled := Unexpected status;
          Client.ConfiguredNetworkGroup_is_multi_context := Unexpected status;
          Client.ConfiguredNetworkGroup_get_config_params := Unexpected status;
          Client.ConfiguredNetworkGroup_get_latency_measurement :=
            fun _ => Unexpected status |};
     Client.m_network_group_name := "group" |}.

Definition answering_proxy : Client.ConfiguredNetworkGroupClient :=
  {| Client.m_client :=
       {| Client.ConfiguredNetworkGroup_is_scheduled := Ok false;
          Client.ConfiguredNetworkGroup_is_multi_context := Ok false;
          Client.ConfiguredNetworkGroup_get_config_params :=
            Ok ConfigureNetworkParams_default;
          Client.ConfiguredNetworkGroup_get_latency_measurement :=
            fun _ => Ok {| CoreOp.avg_hw_latency := 0 |} |};
     Client.m_network_group_name := "group" |}.

(** ** The stream maps of a core-op and the rest of its queries *)

Module Topology.

(** *** [std::map] keyed by name *)

(** [find]: the value under [k], if any. *)
Fixpoint map_find {V} (m : list (string * V)) (k : string) : option V :=
  match m with
  | [] => None
  | (k', v) :: rest => if String.eqb k' k then Some v else map_find rest k
  end.

(** [emplace]: on a map in key order, the pair goes to its place when the key
    is new, and nothing happens when the key is there already. *)
Fixpoint map_emplace {V} (m : list (string * V)) (k : string) (v : V)
  : list (string * V) :=
  match m with
  | [] => [(k, v)]
  | (k', v') :: rest =>
      match String_as_OT.compare k k' with
      | Eq => (k', v') :: rest
      | Lt => (k, v) :: (k', v') :: rest
      | Gt => (k', v') :: map_emplace rest k v
      end
  end.

Definition keys_sorted {V} (m : list (string * V)) : Prop :=
  StronglySorted (fun a b => String_as_OT.compare a b = Lt) (map fst m).

(** *** Stream objects *)

Inductive StreamBufferMode : Type := OWNING | NOT_OWNING.

(** The input stream objects the file builds: the transport-specific
    streams, and the remote-process stream that owns a base stream. *)
Inductive InputStreamBase : Type :=
| VdmaInputStream (interface : hailo_stream_interface_t) (channel : nat)
    (layer_info : CoreOp.LayerInfo)
| EthernetInputStream (layer_info : CoreOp.LayerInfo)
| MipiInputStream (layer_info : CoreOp.LayerInfo)
| RemoteProcessInputStream (base_stream : InputStreamBase).

(** An output stream of the map: one built by
    [create_output_stream_from_config_params], or the remote-process stream
    that owns a base stream. *)
Inductive OutputStream : Type :=
| LocalOutputStream (stream : CoreOp.OutputStreamBase)
| RemoteProcessOutputStream (base_stream : OutputStream).

(** Modelled from the spec: the name of a stream object ([name()] of the
    stream classes, which are outside the files).  The stream maps are keyed
    by stream name, and a stream is built for the layer of that name: its
    name is the name of its layer, and a stream that owns a base stream has
    the name of its base. *)
Fixpoint input_stream_name (s : InputStreamBase) : string :=
  match s with
  | VdmaInputStream _ _ l | EthernetInputStream l | MipiInputStream l => CoreOp.layer_name l
  | RemoteProcessInputStream base => input_stream_name base
  end.

Definition output_stream_base_name (s : CoreOp.OutputStreamBase) : string :=
  match s with
  | CoreOp.VdmaOutputStream _ _ l | CoreOp.EthernetOutputStream l
  | CoreOp.NmsOutputStream _ l _ => CoreOp.layer_name l
  end.

Fixpoint output_stream_name (s : OutputStream) : string :=
  match s with
  | LocalOutputStream s => output_stream_base_name s
  | RemoteProcessOutputStream base => output_stream_name base
  end.

Record StreamMaps : Type := {
  m_input_streams : list (string * InputStreamBase);
  m_output_streams : list (string * OutputStream)
}.

Definition no_streams : StreamMaps :=
  {| m_input_streams := []; m_output_streams := [] |}.

(** What a call on the maps does besides returning. *)
Inductive Event : Type :=
| EvSetBufferMode (stream : string) (mode : StreamBufferMode)
| EvLog (level : LogLevel).

(** *** Queries *)

(** [CoreOp::get_input_stream_by_name] and [CoreOp::get_output_stream_by_name] *)
Definition get_input_stream_by_name (maps : StreamMaps) (name : string)
  : Expected InputStreamBase :=
  match map_find (m_input_streams maps) name with
  | None => Unexpected HAILO_NOT_FOUND
  | Some stream => Ok stream
  end.

Definition get_output_stream_by_name (maps : StreamMaps) (name : string)
  : Expected OutputStream :=
  match map_find (m_output_streams maps) name with
  | None => Unexpected HAILO_NOT_FOUND
  | Some stream => Ok stream
  end.

(** [CoreOp::get_input_streams] and [CoreOp::get_output_streams] *)
Definition get_input_streams (maps : StreamMaps) : list InputStreamBase :=
  map snd (m_input_streams maps).

Definition get_output_streams (maps : StreamMaps) : list OutputStream :=
  map snd (m_output_streams maps).

(** The loop of [CoreOp::get_input_streams_by_network] and of its output
    twin, over the names of the stream infos of the network. *)
Fixpoint streams_by_names {S} (by_name : string -> Expected S) (names : list string)
  : Expected (list S) :=
  match names with
  | [] => Ok []
  | name :: rest =>
      match by_name name with
      | Unexpected s => Unexpected s
      | Ok stream_ref =>
          match streams_by_names by_name rest with
          | Unexpected s => Unexpected s
          | Ok result => Ok (stream_ref :: result)
          end
      end
  end.

Section Networks.

(** [m_metadata->get_input_stream_infos] and its output twin, by the names
    of the stream infos they give. *)
Variable get_input_stream_infos : string -> Expected (list string).
Variable get_output_stream_infos : string -> Expected (list string).

Definition get_input_streams_by_network (maps : StreamMaps) (network_name : string)
  : Expected (list InputStreamBase) :=
  match get_input_stream_infos network_name with
  | Unexpected s => Unexpected s
  | Ok input_stream_infos =>
      streams_by_names (get_input_stream_by_name maps) input_stream_infos
  end.

Definition get_output_streams_by_network (maps : StreamMaps) (network_name : string)
  : Expected (list OutputStream) :=
  match get_output_stream_infos network_name with
  | Unexpected s => Unexpected s
  | Ok output_stream_infos =>
      streams_by_names (get_output_stream_by_name maps) output_stream_infos
  end.

End Networks.

(** [CoreOp::is_default_batch_size] *)
Fixpoint is_default_batch_size_loop (HAILO_DEFAULT_BATCH_SIZE : Z)
    (networks : list (string * hailo_network_parameters_t)) : bool :=
  match networks with
  | [] => true
  | network_params_pair :: rest =>
      if negb (batch_size (snd network_params_pair) =? HAILO_DEFAULT_BATCH_SIZE)
      then false
      else is_default_batch_size_loop HAILO_DEFAULT_BATCH_SIZE rest
  end.

Definition is_default_batch_size (HAILO_DEFAULT_BATCH_SIZE : Z) (c : CoreOp.CoreOp) : bool :=
  is_default_batch_size_loop HAILO_DEFAULT_BATCH_SIZE
    (network_params_by_name (CoreOp.m_config_params c)).

(** *** Wrapping for a remote process *)

(** One loop of [CoreOp::wrap_streams_for_remote_process]: every stream of
    the map is replaced, in place, by the stream [create] builds around it;
    the loop returns at the first [create] that fails. *)
Fixpoint wrap_loop {S} (create : S -> Expected S) (m : list (string * S))
  : hailo_status * list (string * S) :=
  match m with
  | [] => (HAILO_SUCCESS, [])
  | (name, base_stream) :: rest =>
      match create base_stream with
      | Unexpected s => (s, (name, base_stream) :: rest)
      | Ok remote_proc_stream =>
          let '(status, rest') := wrap_loop create rest in
          (status, (name, remote_proc_stream) :: rest')
      end
  end.

Section RemoteProcess.

(** The outcome of the two [create]s. *)
Variable RemoteProcessInputStream_create_status : InputStreamBase -> hailo_status.
Variable RemoteProcessOutputStream_create_status : OutputStream -> hailo_status.

Definition wrap_streams_for_remote_process (maps : StreamMaps)
  : hailo_status * StreamMaps :=
  let '(status, inputs) :=
    wrap_loop (fun base_stream =>
                 CoreOp.construct (RemoteProcessInputStream_create_status base_stream)
                                  (RemoteProcessInputStream base_stream))
              (m_input_streams maps) in
  if negb (CoreOp.is_success status)
  then (status, {| m_input_streams := inputs;
                   m_output_streams := m_output_streams maps |}) else
  let '(status, outputs) :=
    wrap_loop (fun base_stream =>
                 CoreOp.construct (RemoteProcessOutputStream_create_status base_stream)
                                  (RemoteProcessOutputStream base_stream))
              (m_output_streams maps) in
  if negb (CoreOp.is_success status)
  then (status, {| m_input_streams := inputs; m_output_streams := outputs |}) else
  (HAILO_SUCCESS, {| m_input_streams := inputs; m_output_streams := outputs |}).

End RemoteProcess.

(** *** Building the streams *)

Section Build.

Variable HAILO_DEFAULT_BATCH_SIZE : Z.
Variable DEFAULT_ACTUAL_BATCH_SIZE : Z.
Variable MAX_ACTIVE_TRANSFERS_SCALE : Z.
(** The bit of the stream flags that asks for asynchronous transfers. *)
Variable HAILO_STREAM_FLAGS_ASYNC : Z.
(** A virtual of [CoreOp], and the outcome of the [create]s and of
    [set_buffer_mode] of the stream classes. *)
Variable get_boundary_vdma_channel_by_stream_name : string -> Expected nat.
Variable VdmaInputStream_create_status :
  hailo_stream_interface_t -> nat -> CoreOp.LayerInfo -> hailo_status.
Variable EthernetInputStream_create_status : CoreOp.LayerInfo -> hailo_status.
Variable MipiInputStream_create_status : CoreOp.LayerInfo -> hailo_status.
Variable VdmaOutputStream_create_status :
  hailo_stream_interface_t -> nat -> CoreOp.LayerInfo -> hailo_status.
Variable EthernetOutputStream_create_status : CoreOp.LayerInfo -> hailo_status.
Variable NmsOutputStream_create_status :
  CoreOp.OutputStreamBase -> CoreOp.LayerInfo -> Z -> hailo_status.
Variable input_set_buffer_mode : InputStreamBase -> StreamBufferMode -> hailo_status.
Variable output_set_buffer_mode : OutputStream -> StreamBufferMode -> hailo_status.

(** [CoreOp::create_vdma_input_stream] *)
Definition create_vdma_input_stream (device : CoreOp.Device) (stream_name : string)
    (layer_info : CoreOp.LayerInfo) (stream_params : hailo_stream_parameters_t)
  : Expected InputStreamBase :=
  match CoreOp.get_type device with
  | CoreOp.ETH => Unexpected HAILO_INTERNAL_FAILURE
  | CoreOp.INTEGRATED | CoreOp.PCIE =>
      match get_boundary_vdma_channel_by_stream_name stream_name with
      | Unexpected s => Unexpected s
      | Ok channel =>
          CoreOp.construct
            (VdmaInputStream_create_status (stream_interface stream_params)
                                           channel layer_info)
            (VdmaInputStream (stream_interface stream_params) channel layer_info)
      end
  end.

(** [CoreOp::create_input_stream_from_config_params].  The four interfaces
    of the model are the four cases of the [switch]; its [default] is for
    values outside them. *)
Definition create_input_stream_from_config_params (c : CoreOp.CoreOp)
    (device : CoreOp.Device) (stream_params : hailo_stream_parameters_t)
    (stream_name : string) : Expected InputStreamBase :=
  match CoreOp.get_layer_info c stream_name with
  | Unexpected s => Unexpected s
  | Ok layer_info =>
      if negb (CoreOp.is_stream_interface_supported device
                 (stream_interface stream_params))
      then Unexpected HAILO_INVALID_OPERATION else
      match stream_interface stream_params with
      | HAILO_STREAM_INTERFACE_PCIE | HAILO_STREAM_INTERFACE_INTEGRATED =>
          create_vdma_input_stream device stream_name layer_info stream_params
      | HAILO_STREAM_INTERFACE_ETH =>
          CoreOp.construct (EthernetInputStream_create_status layer_info)
                           (EthernetInputStream layer_info)
      | HAILO_STREAM_INTERFACE_MIPI =>
          CoreOp.construct (MipiInputStream_create_status layer_info)
                           (MipiInputStream layer_info)
      end
  end.

(** The buffer mode [add_input_stream] and [add_output_stream] ask for. *)
Definition buffer_mode_for (stream_params : hailo_stream_parameters_t) : StreamBufferMode :=
  if negb (Z.land (flags stream_params) HAILO_STREAM_FLAGS_ASYNC =? 0)
  then NOT_OWNING else OWNING.

(** [CoreOp::add_input_stream] *)
Definition add_input_stream (maps : StreamMaps) (stream : InputStreamBase)
    (stream_params : hailo_stream_parameters_t)
  : hailo_status * StreamMaps * list Event :=
  let mode := buffer_mode_for stream_params in
  let status := input_set_buffer_mode stream mode in
  if negb (CoreOp.is_success status)
  then (status, maps, [EvSetBufferMode (input_stream_name stream) mode; EvLog LOG_ERROR])
  else
    (HAILO_SUCCESS,
     {| m_input_streams :=
          map_emplace (m_input_streams maps) (input_stream_name stream) stream;
        m_output_streams := m_output_streams maps |},
     [EvSetBufferMode (input_stream_name stream) mode]).

(** [CoreOp::add_output_stream] *)
Definition add_output_stream (maps : StreamMaps) (stream : OutputStream)
    (stream_params : hailo_stream_parameters_t)
  : hailo_status * StreamMaps * list Event :=
  let mode := buffer_mode_for stream_params in
  let status := output_set_buffer_mode stream mode in
  if negb (CoreOp.is_success status)
  then (status, maps, [EvSetBufferMode (output_stream_name stream) mode; EvLog LOG_ERROR])
  else
    (HAILO_SUCCESS,
     {| m_input_streams := m_input_streams maps;
        m_output_streams :=
          map_emplace (m_output_streams maps) (output_stream_name stream) stream |},
     [EvSetBufferMode (output_stream_name stream) mode]).

(** [CoreOp::create_streams_from_config_params]: the loop over the
    configured streams.  The two directions of the model are the two cases of
    the [switch]; its [default] is for values outside them. *)
Fixpoint create_streams_loop (c : CoreOp.CoreOp) (device : CoreOp.Device)
    (stream_params_by_name : list (string * hailo_stream_parameters_t))
    (maps : StreamMaps) : hailo_status * StreamMaps * list Event :=
  match stream_params_by_name with
  | [] => (HAILO_SUCCESS, maps, [])
  | stream_parameters_pair :: rest =>
      match direction (snd stream_parameters_pair) with
      | HAILO_H2D_STREAM =>
          match create_input_stream_from_config_params
                  c device (snd stream_parameters_pair) (fst stream_parameters_pair) with
          | Unexpected s => (s, maps, [EvLog LOG_ERROR])
          | Ok stream =>
              let '(status, maps', tr) :=
                add_input_stream maps stream (snd stream_parameters_pair) in
              if negb (CoreOp.is_success status)
              then (status, maps', tr ++ [EvLog LOG_ERROR]) else
              let '(status', maps'', tr') := create_streams_loop c device rest maps' in
              (status', maps'', tr ++ tr')
          end
      | HAILO_D2H_STREAM =>
          match CoreOp.create_output_stream_from_config_params
                  HAILO_DEFAULT_BATCH_SIZE DEFAULT_ACTUAL_BATCH_SIZE
                  MAX_ACTIVE_TRANSFERS_SCALE get_boundary_vdma_channel_by_stream_name
                  VdmaOutputStream_create_status EthernetOutputStream_create_status
                  NmsOutputStream_create_status
                  c device (snd stream_parameters_pair) (fst stream_parameters_pair) with
          | Unexpected s => (s, maps, [EvLog LOG_ERROR])
          | Ok stream =>
              let '(status, maps', tr) :=
                add_output_stream maps (LocalOutputStream stream)
                                  (snd stream_parameters_pair) in
              if negb (CoreOp.is_success status)
              then (status, maps', tr ++ [EvLog LOG_ERROR]) else
              let '(status', maps'', tr') := create_streams_loop c device rest maps' in
              (status', maps'', tr ++ tr')
          end
      end
  end.

Definition create_streams_from_config_params (c : CoreOp.CoreOp)
    (device : CoreOp.Device) (maps : StreamMaps)
  : hailo_status * StreamMaps * list Event :=
  create_streams_loop c device (stream_params_by_name (CoreOp.m_config_params c)) maps.

End Build.

End Topology.


(** A core-op with a multi-planar layer that has two planes, and a plain
    layer. *)
Definition planar_layers : list CoreOp.LayerInfo :=
  [CoreOp.Build_LayerInfo "frame" "A" true
     [CoreOp.Build_LayerInfo "frame_y" "A" false [] CoreOp.HAILO_FORMAT_ORDER_NHWC;
      CoreOp.Build_LayerInfo "frame_uv" "A" false [] CoreOp.HAILO_FORMAT_ORDER_NHWC]
     CoreOp.HAILO_FORMAT_ORDER_NHWC;
   dense_layer].

Definition planar_core_op : CoreOp.CoreOp :=
  with_params (plain_core_op 1)
    (networks [network "A" 4; network "B" 0; network "C" 2]) planar_layers.


(** Stream parameters with the asynchronous bit (1) set, two input streams
    and an output stream, and maps that hold them. *)
Definition async_input_params : hailo_stream_parameters_t :=
  {| stream_interface := HAILO_STREAM_INTERFACE_ETH;
     direction := HAILO_H2D_STREAM;
     flags := 1 |}.

Definition eth_input (name : string) : Topology.InputStreamBase :=
  Topology.EthernetInputStream
    (CoreOp.Build_LayerInfo name "A" false [] CoreOp.HAILO_FORMAT_ORDER_NHWC).

Definition eth_output (name : string) : Topology.OutputStream :=
  Topology.LocalOutputStream
    (CoreOp.EthernetOutputStream
       (CoreOp.Build_LayerInfo name "A" false [] CoreOp.HAILO_FORMAT_ORDER_NHWC)).

Definition two_inputs_one_output : Topology.StreamMaps :=
  {| Topology.m_input_streams := [("in0"%string, eth_input "in0");
                                  ("in1"%string, eth_input "in1")];
     Topology.m_output_streams := [("out0"%string, eth_output "out0")] |}.


(** ** What a lookup of several names gives *)

(** The streams found under [names], in the order of [names]; or NOT_FOUND,
    with a name among them that is not in the map. *)
Definition looked_up {S} (m : list (string * S)) (names : list string)
    (r : Expected (list S)) : Prop :=
  match r with
  | Ok result => Forall2 (fun name stream => Topology.map_find m name = Some stream)
                         names result
  | Unexpected s =>
      s = HAILO_NOT_FOUND /\ Exists (fun name => Topology.map_find m name = None) names
  end.

(** A stream of the direction is configured under the name. *)
Definition configured (c : CoreOp.CoreOp) (d : hailo_stream_direction_t)
    (name : string) : Prop :=
  exists p, In (name, p) (stream_params_by_name (CoreOp.m_config_params c))
            /\ direction p = d.


(** A core-op configured with an input stream on a plane and an output
    stream, both on PCIe. *)
Definition streaming_core_op : CoreOp.CoreOp :=
  with_params (plain_core_op 1)
    {| latency := 0;
       stream_params_by_name :=
         [("dense_out"%string, pcie_output_params);
          ("frame_y"%string,
           {| stream_interface := HAILO_STREAM_INTERFACE_PCIE;
              direction := HAILO_H2D_STREAM; flags := 1 |})];
       network_params_by_name := [network "A" 4] |}
    planar_layers.


(** ** Counting the events of a call *)

Definition count_events (p : CoreOp.Event -> bool) (tr : list CoreOp.Event) : nat :=
  List.length (filter p tr).

Definition is_signal (e : CoreOp.Event) : bool :=
  match e with CoreOp.EvEventSignal _ => true | _ => false end.

Definition is_deactivation (e : CoreOp.Event) : bool :=
  match e with CoreOp.EvDeactivateImpl _ => true | _ => false end.

Definition is_claim (e : CoreOp.Event) : bool :=
  match e with CoreOp.EvHolderSet _ => true | _ => false end.

Definition is_release (e : CoreOp.Event) : bool :=
  match e with CoreOp.EvHolderClear => true | _ => false end.

Definition attempted_activations (tr : list CoreOp.Event) : list string :=
  flat_map (fun e => match e with CoreOp.EvActivateStream n => [n] | _ => [] end) tr.

(** The meters of a map, each without a sample. *)
Definition cleared (meters : CoreOp.LatencyMetersMap) : CoreOp.LatencyMetersMap :=
  map (fun p => (fst p, {| CoreOp.sample := None |})) meters.


(** ** The proxy across a fork, and the vstreams it creates *)

Module Proxy.

(** [NetworkGroupIdentifier] and [VStreamIdentifier]: the handles they are
    built from. *)
Record NetworkGroupIdentifier : Type := {
  network_group_handle : nat;
  vdevice_handle : nat
}.

Record VStreamIdentifier : Type := {
  network_group_identifier : NetworkGroupIdentifier;
  vstream_handle : nat
}.

(** [HailoRtRpcClient], by what the broker answers to the remote calls the
    functions below make. *)
Record HailoRtRpcClient (VStreamParams : Type) : Type := {
  ConfiguredNetworkGroup_dup_handle : NetworkGroupIdentifier -> nat -> Expected nat;
  InputVStreams_create :
    NetworkGroupIdentifier -> VStreamParams -> nat -> Expected (list nat);
  OutputVStreams_create :
    NetworkGroupIdentifier -> VStreamParams -> nat -> Expected (list nat)
}.
Arguments ConfiguredNetworkGroup_dup_handle {VStreamParams} _ _ _.
Arguments InputVStreams_create {VStreamParams} _ _ _ _.
Arguments OutputVStreams_create {VStreamParams} _ _ _ _.

(** The proxy object; [m_client] is empty between [before_fork] and the
    hook that follows the fork. *)
Record ConfiguredNetworkGroupClient (VStreamParams : Type) : Type := {
  m_client : option (HailoRtRpcClient VStreamParams);
  m_identifier : NetworkGroupIdentifier;
  m_network_group_name : string
}.
Arguments m_client {VStreamParams} _.
Arguments m_identifier {VStreamParams} _.
Arguments m_network_group_name {VStreamParams} _.

Inductive InputVStream : Type := Build_InputVStream (identifier : VStreamIdentifier).
Inductive OutputVStream : Type := Build_OutputVStream (identifier : VStreamIdentifier).

(** What a call does besides returning. *)
Inductive Event : Type :=
| EvCreateClient
| EvDupHandle (identifier : NetworkGroupIdentifier) (pid : nat)
| EvVStreamsCreate (identifier : NetworkGroupIdentifier) (pid : nat)
| EvVStreamClientCreate (identifier : VStreamIdentifier)
| EvLog (level : LogLevel).

Section Calls.

Variable VStreamParams : Type.
(** [OsUtils::get_curr_pid()], what [HailoRtRpcClientUtils::create_client()]
    gives, and the outcome of the [create] of the two vstream clients. *)
Variable curr_pid : nat.
Variable create_client_result : Expected (HailoRtRpcClient VStreamParams).
Variable InputVStreamClient_create_status : VStreamIdentifier -> hailo_status.
Variable OutputVStreamClient_create_status : VStreamIdentifier -> hailo_status.

Let Client := ConfiguredNetworkGroupClient VStreamParams.

Definition with_client (c : Client) (client : option (HailoRtRpcClient VStreamParams))
  : Client :=
  {| m_client := client;
     m_identifier := m_identifier c;
     m_network_group_name := m_network_group_name c |}.

(** [ConfiguredNetworkGroupClient::before_fork] *)
Definition before_fork (c : Client) : hailo_status * Client * list Event :=
  (HAILO_SUCCESS, with_client c None, []).

(** [ConfiguredNetworkGroupClient::create_client] *)
Definition create_client (c : Client) : hailo_status * Client * list Event :=
  match create_client_result with
  | Unexpected s => (s, c, [EvCreateClient; EvLog LOG_ERROR])
  | Ok expected_client => (HAILO_SUCCESS, with_client c (Some expected_client),
                           [EvCreateClient])
  end.

(** [ConfiguredNetworkGroupClient::after_fork_in_parent] *)
Definition after_fork_in_parent (c : Client) : hailo_status * Client * list Event :=
  create_client c.

(** A call through [m_client]: there is no result when [m_client] is
    empty. *)
Definition dup_handle_call (c : Client) : option (hailo_status * list Event) :=
  match m_client c with
  | None => None
  | Some client =>
      Some (match ConfiguredNetworkGroup_dup_handle client (m_identifier c) curr_pid with
            | Unexpected s => (s, [EvDupHandle (m_identifier c) curr_pid; EvLog LOG_ERROR])
            | Ok _ => (HAILO_SUCCESS, [EvDupHandle (m_identifier c) curr_pid])
            end)
  end.

(** [ConfiguredNetworkGroupClient::dup_handle] *)
Definition dup_handle (c : Client) : option (hailo_status * list Event) :=
  dup_handle_call c.

(** [ConfiguredNetworkGroupClient::after_fork_in_child] *)
Definition after_fork_in_child (c : Client)
  : option (hailo_status * Client * list Event) :=
  let '(status, c1, tr) := create_client c in
  if negb (CoreOp.is_success status) then Some (status, c1, tr ++ [EvLog LOG_ERROR]) else
  match dup_handle_call c1 with
  | None => None
  | Some (status, tr') => Some (status, c1, tr ++ tr')
  end.

(** The loop of [create_input_vstreams] and of [create_output_vstreams] over
    the handles the broker gave. *)
Fixpoint vstreams_loop {VS} (create_status : VStreamIdentifier -> hailo_status)
    (build : VStreamIdentifier -> VS) (identifier : NetworkGroupIdentifier)
    (handles : list nat) : Expected (list VS) * list Event :=
  match handles with
  | [] => (Ok [], [])
  | handle :: rest =>
      let vstream_identifier :=
        {| network_group_identifier := identifier; vstream_handle := handle |} in
      match CoreOp.construct (create_status vstream_identifier)
                             (build vstream_identifier) with
      | Unexpected s =>
          (Unexpected s, [EvVStreamClientCreate vstream_identifier; EvLog LOG_ERROR])
      | Ok vstream =>
          let '(r, tr) := vstreams_loop create_status build identifier rest in
          (match r with
           | Ok vstreams => Ok (vstream :: vstreams)
           | Unexpected s => Unexpected s
           end,
           EvVStreamClientCreate vstream_identifier :: tr)
      end
  end.

(** [ConfiguredNetworkGroupClient::create_input_vstreams] *)
Definition create_input_vstreams (c : Client) (inputs_params : VStreamParams)
  : option (Expected (list InputVStream) * list Event) :=
  match m_client c with
  | None => None
  | Some client =>
      Some (match InputVStreams_create client (m_identifier c) inputs_params curr_pid with
            | Unexpected s =>
                (Unexpected s, [EvVStreamsCreate (m_identifier c) curr_pid; EvLog LOG_ERROR])
            | Ok input_vstreams_handles =>
                let '(r, tr) :=
                  vstreams_loop InputVStreamClient_create_status Build_InputVStream
                                (m_identifier c) input_vstreams_handles in
                (r, EvVStreamsCreate (m_identifier c) curr_pid :: tr)
            end)
  end.

(** [ConfiguredNetworkGroupClient::create_output_vstreams] *)
Definition create_output_vstreams (c : Client) (outputs_params : VStreamParams)
  : option (Expected (list OutputVStream) * list Event) :=
  match m_client c with
  | None => None
  | Some client =>
      Some (match OutputVStreams_create client (m_identifier c) outputs_params curr_pid with
            | Unexpected s =>
                (Unexpected s, [EvVStreamsCreate (m_identifier c) curr_pid; EvLog LOG_ERROR])
            | Ok output_vstreams_handles =>
                let '(r, tr) :=
                  vstreams_loop OutputVStreamClient_create_status Build_OutputVStream
                                (m_identifier c) output_vstreams_handles in
                (r, EvVStreamsCreate (m_identifier c) curr_pid :: tr)
            end)
  end.

End Calls.

Definition handle_duplications (tr : list Event) : list Event :=
  filter (fun e => match e with EvDupHandle _ _ => true | _ => false end) tr.

Definition client_creations (tr : list Event) : list VStreamIdentifier :=
  flat_map (fun e => match e with EvVStreamClientCreate i => [i] | _ => [] end) tr.

(** The requests for vstreams a call sends to the broker. *)
Definition broker_requests (tr : list Event) : list Event :=
  filter (fun e => match e with EvVStreamsCreate _ _ => true | _ => false end) tr.

End Proxy.

(** A proxy of the network group 7 of the vdevice 1, connected to a broker
    that duplicates handles and gives the vstream handles 10 and 11. *)
Definition answering_broker : Proxy.HailoRtRpcClient (list string) :=
  {| Proxy.ConfiguredNetworkGroup_dup_handle := fun i _ => Ok (Proxy.network_group_handle i);
     Proxy.InputVStreams_create := fun _ _ _ => Ok [10%nat; 11%nat];
     Proxy.OutputVStreams_create := fun _ _ _ => Ok [12%nat] |}.

Definition connected_proxy : Proxy.ConfiguredNetworkGroupClient (list string) :=
  {| Proxy.m_client := Some answering_broker;
     Proxy.m_identifier := {| Proxy.network_group_handle := 7; Proxy.vdevice_handle := 1 |};
     Proxy.m_network_group_name := "group" |}.

(** * Properties *)

(** ** Statuses and machine integers *)

Lemma status_eqb_eq (a b : hailo_status) : status_eqb a b = true <-> a = b.
Proof. unfold status_eqb; destruct (status_eq_dec a b); split; congruence. Qed.

Lemma status_eqb_neq (a b : hailo_status) : status_eqb a b = false <-> a <> b.
Proof. unfold status_eqb; destruct (status_eq_dec a b); split; congruence. Qed.

Lemma status_eqb_refl (a : hailo_status) : status_eqb a a = true.
Proof. now apply status_eqb_eq. Qed.

Lemma status_eqb_sym (a b : hailo_status) : status_eqb a b = status_eqb b a.
Proof.
  destruct (status_eqb b a) eqn:E.
  - apply status_eqb_eq in E. subst. apply status_eqb_refl.
  - apply status_eqb_neq in E. apply status_eqb_neq. congruence.
Qed.

Lemma is_success_true (s : hailo_status) : CoreOp.is_success s = true <-> s = HAILO_SUCCESS.
Proof. unfold CoreOp.is_success. rewrite status_eqb_eq. split; congruence. Qed.

Lemma is_success_false (s : hailo_status) : CoreOp.is_success s = false <-> s <> HAILO_SUCCESS.
Proof. unfold CoreOp.is_success. rewrite status_eqb_neq. split; congruence. Qed.

Lemma wrap_uint32_small (z : Z) : 0 <= z < 2 ^ 32 -> wrap_uint32 z = z.
Proof. intros H; unfold wrap_uint32; now apply Z.mod_small. Qed.

Lemma wrap_int64_small (z : Z) : - 2 ^ 63 <= z < 2 ^ 63 -> wrap_int64 z = z.
Proof.
  intros H; unfold wrap_int64.
  rewrite Z.mod_small by lia. lia.
Qed.

(** ** Batch size resolution *)

Section BatchSizeFacts.

Variables sentinel default : Z.

Let step := min_batch_step sentinel.
Let explicit (l : list (string * hailo_network_parameters_t)) : list Z :=
  filter (fun b => negb (sentinel =? b)) (map (fun p => batch_size (snd p)) l).

Lemma fold_min_shift (l : list Z) (b m : Z) :
  fold_right Z.min (Z.min b m) l = Z.min b (fold_right Z.min m l).
Proof. induction l as [|x l IH]; simpl; [reflexivity | rewrite IH; lia]. Qed.

(** The loop keeps the minimum of its start value and the explicit sizes. *)
Lemma min_batch_loop (l : list (string * hailo_network_parameters_t)) (m : Z) :
  fold_left step l m = fold_right Z.min m (explicit l).
Proof.
  revert m. induction l as [|p l IH]; intros m; [reflexivity|].
  cbn [fold_left]. rewrite IH. unfold step, min_batch_step, explicit.
  cbn [map filter].
  destruct (sentinel =? batch_size (snd p)); cbn [negb andb fold_right].
  - reflexivity.
  - rewrite <- fold_min_shift.
    destruct (batch_size (snd p) <? m) eqn:E;
      [apply Z.ltb_lt in E | apply Z.ltb_ge in E]; f_equal; lia.
Qed.

Lemma list_min_fold (d : Z) (x : Z) (l : list Z) (m : Z) :
  Forall (fun b => b < m) (x :: l) ->
  fold_right Z.min m (x :: l) = list_min d (x :: l).
Proof.
  revert x. induction l as [|y l IH]; intros x H.
  - inversion H; subst. simpl. lia.
  - inversion H; subst. change (fold_right Z.min m (x :: y :: l))
      with (Z.min x (fold_right Z.min m (y :: l))).
    rewrite (IH y) by assumption. reflexivity.
Qed.

Lemma list_min_below (d : Z) (x : Z) (l : list Z) (m : Z) :
  Forall (fun b => b < m) (x :: l) -> list_min d (x :: l) < m.
Proof.
  revert x. induction l as [|y l IH]; intros x H.
  - inversion H; subst. simpl. lia.
  - inversion H; subst. specialize (IH y H3).
    change (list_min d (x :: y :: l)) with (Z.min x (list_min d (y :: l))). lia.
Qed.

(** Where every explicit batch size is below [UINT16_MAX], the code computes
    the resolution the specification words. *)
Lemma smallest_batch_size_below_max (cp : ConfigureNetworkParams) :
  Forall (fun b => b < UINT16_MAX) (explicit_batch_sizes sentinel cp) ->
  get_smallest_configured_batch_size sentinel default cp
  = spec_batch_size sentinel default cp.
Proof.
  intros H. unfold get_smallest_configured_batch_size, spec_batch_size.
  fold step. rewrite min_batch_loop. fold (explicit (network_params_by_name cp)).
  change (explicit (network_params_by_name cp)) with (explicit_batch_sizes sentinel cp).
  destruct (explicit_batch_sizes sentinel cp) as [|x l] eqn:E.
  - reflexivity.
  - rewrite (list_min_fold default) by assumption.
    pose proof (list_min_below default x l UINT16_MAX H) as Hlt.
    destruct (UINT16_MAX =? list_min default (x :: l)) eqn:Q;
      [apply Z.eqb_eq in Q; lia | reflexivity].
Qed.

End BatchSizeFacts.

(** The two resolutions the specification lists, with the sentinel 0 and the
    default 1 of the library's headers. *)
Example batch_size_A4_Bauto_C2 :
  get_smallest_configured_batch_size 0 1
    (networks [network "A" 4; network "B" 0; network "C" 2]) = 2.
Proof. reflexivity. Qed.

Example batch_size_all_auto :
  get_smallest_configured_batch_size 0 1
    (networks [network "A" 0; network "B" 0]) = 1
  /\ get_smallest_configured_batch_size 0 1 (networks []) = 1.
Proof. split; reflexivity. Qed.

(** C3: batch size resolution.  The function is meant to return the minimum
    of the batch sizes that are not at the sentinel.  One network configured
    with the batch size 65535 is such a size, and the minimum is 65535; the
    code takes its own start value [UINT16_MAX] for "nothing configured" and
    returns the default instead. *)
Theorem smallest_batch_size_at_uint16_max :
  let cp := networks [network "A" 65535] in
  wf_config_params cp
  /\ explicit_batch_sizes 0 cp = [65535]
  /\ spec_batch_size 0 1 cp = 65535
  /\ get_smallest_configured_batch_size 0 1 cp = 1.
Proof.
  cbv zeta. repeat split.
  - apply Forall_cons; [|constructor]. unfold is_uint16, UINT16_MAX. simpl. lia.
Qed.

(** ** Best-effort teardown of the low-level streams *)

Section Teardown.

Import CoreOp.

Let failed (p : string * Stream) : bool := negb (is_success (deactivate_stream (snd p))).

Let teardown_events (p : string * Stream) : list Event :=
  if failed p then [EvDeactivateStream (fst p); EvLog LOG_ERROR]
  else [EvDeactivateStream (fst p)].

Lemma last_cons_default {A} (x d : A) (l : list A) : last (x :: l) d = last l x.
Proof.
  revert x d. induction l as [|y l IH]; intros x d; [reflexivity|].
  change (last (x :: y :: l) d) with (last (y :: l) d). rewrite !IH. reflexivity.
Qed.

Lemma deactivate_fold_status (l : list (string * Stream)) (acc : hailo_status * list Event) :
  fst (fold_left deactivate_stream_step l acc)
  = last (failures (map (fun p => deactivate_stream (snd p)) l)) (fst acc).
Proof.
  revert acc. induction l as [|p l IH]; intros acc; [reflexivity|].
  cbn [fold_left map]. rewrite IH. unfold deactivate_stream_step, failures.
  cbn [filter].
  destruct (negb (is_success (deactivate_stream (snd p)))); cbn [fst].
  - now rewrite last_cons_default.
  - reflexivity.
Qed.

Lemma deactivate_fold_trace (l : list (string * Stream)) (acc : hailo_status * list Event) :
  snd (fold_left deactivate_stream_step l acc) = snd acc ++ flat_map teardown_events l.
Proof.
  revert acc. induction l as [|p l IH]; intros acc.
  - simpl. now rewrite app_nil_r.
  - cbn [fold_left flat_map]. rewrite IH. unfold deactivate_stream_step, teardown_events, failed.
    destruct (negb (is_success (deactivate_stream (snd p)))); cbn [snd];
      now rewrite <- app_assoc.
Qed.

Lemma attempted_teardown_events (l : list (string * Stream)) :
  attempted_teardowns (flat_map teardown_events l) = map fst l.
Proof.
  induction l as [|p l IH]; [reflexivity|].
  cbn [flat_map map]. unfold attempted_teardowns in *. rewrite flat_map_app, IH.
  unfold teardown_events. destruct (failed p); reflexivity.
Qed.

Lemma error_lines_teardown_events (l : list (string * Stream)) :
  error_lines (flat_map teardown_events l)
  = List.length (failures (map (fun p => deactivate_stream (snd p)) l)).
Proof.
  induction l as [|p l IH]; [reflexivity|].
  cbn [flat_map map]. unfold error_lines, failures in *.
  rewrite filter_app, length_app, IH. cbn [filter].
  unfold teardown_events, failed.
  destruct (negb (is_success (deactivate_stream (snd p)))); reflexivity.
Qed.

Lemma deactivate_streams_unfold (c : CoreOp) :
  deactivate_low_level_streams c
  = fold_left deactivate_stream_step (m_input_streams c ++ m_output_streams c)
              (HAILO_SUCCESS, []).
Proof. unfold deactivate_low_level_streams. now rewrite fold_left_app. Qed.

End Teardown.

(** C2 (as the code has it): the teardown of every stream is attempted, in
    map order, inputs first, whatever the earlier ones answered; every
    failure is logged; the status returned is the one of the last teardown
    that failed, and HAILO_SUCCESS when none did.  [deactivate], called by
    the slot holder, returns the status of its deactivation step. *)
Theorem deactivate_streams_best_effort (c : CoreOp.CoreOp) :
  attempted_teardowns (snd (CoreOp.deactivate_low_level_streams c)) = stream_names c
  /\ error_lines (snd (CoreOp.deactivate_low_level_streams c))
     = List.length (failures (teardown_statuses c))
  /\ fst (CoreOp.deactivate_low_level_streams c) = last_failure (teardown_statuses c)
  /\ (failures (teardown_statuses c) = [] <->
      fst (CoreOp.deactivate_low_level_streams c) = HAILO_SUCCESS)
  /\ (forall empty_status rt,
        CoreOp.is_scheduled c = false ->
        CoreOp.m_active_core_op_holder rt = Some (CoreOp.this c) ->
        fst (fst (CoreOp.deactivate empty_status c rt)) = CoreOp.deactivate_impl c).
Proof.
  rewrite deactivate_streams_unfold, deactivate_fold_status, deactivate_fold_trace.
  cbn [fst snd app]. rewrite attempted_teardown_events, error_lines_teardown_events.
  fold (teardown_statuses c). fold (last_failure (teardown_statuses c)).
  repeat split.
  - unfold last_failure. intros ->. reflexivity.
  - unfold last_failure. intros H.
    destruct (failures (teardown_statuses c)) as [|x l] eqn:E; [reflexivity|exfalso].
    assert (Hin : In (last (x :: l) HAILO_SUCCESS) (failures (teardown_statuses c))).
    { rewrite E. destruct (exists_last (l := x :: l)) as (l' & a & Hl); [discriminate|].
      rewrite Hl, last_last. apply in_or_app. right. now left. }
    unfold failures in Hin. apply filter_In in Hin. destruct Hin as [_ Hin].
    rewrite H in Hin. discriminate.
  - intros empty_status rt Hs Hh. unfold CoreOp.deactivate.
    rewrite Hs, Hh. cbn [CoreOp.holder_get]. rewrite Nat.eqb_refl. reflexivity.
Qed.

Lemma deactivate_streams_best_effort_witness :
  let c := with_streams (plain_core_op 1)
             [stream "in0" HAILO_SUCCESS HAILO_TIMEOUT]
             [stream "out0" HAILO_SUCCESS HAILO_SUCCESS] in
  fst (fst (CoreOp.deactivate HAILO_INVALID_OPERATION c
              (CoreOp.holder_set CoreOp.initial_runtime c))) = HAILO_SUCCESS
  /\ fst (CoreOp.deactivate_low_level_streams c) = HAILO_TIMEOUT.
Proof.
  cbv zeta. split.
  - apply (deactivate_streams_best_effort
             (with_streams (plain_core_op 1)
                [stream "in0" HAILO_SUCCESS HAILO_TIMEOUT]
                [stream "out0" HAILO_SUCCESS HAILO_SUCCESS])); reflexivity.
  - reflexivity.
Defined.

(** C2, as stated, fails: with two failing teardowns the status returned is
    the one of the second, not of the first. *)
Lemma deactivate_streams_not_first_failure :
  let c := with_streams (plain_core_op 1)
             [stream "in0" HAILO_SUCCESS HAILO_TIMEOUT]
             [stream "out0" HAILO_SUCCESS HAILO_INTERNAL_FAILURE] in
  first_failure (teardown_statuses c) = HAILO_TIMEOUT
  /\ fst (CoreOp.deactivate_low_level_streams c) = HAILO_INTERNAL_FAILURE
  /\ fst (CoreOp.deactivate_low_level_streams c) <> first_failure (teardown_statuses c).
Proof. cbv zeta. repeat split. discriminate. Qed.

(** ** Manual activation *)

Section Activation.

Import CoreOp.

(** Unfold a call and split on every test it makes. *)
Ltac split_activate c b :=
  unfold activate, release_after_failure;
  destruct (is_success (activate_impl c b)) eqn:Hact;
  destruct (status_eqb HAILO_STREAM_ABORTED_BY_USER (activate_impl c b)) eqn:Habt;
  destruct (is_success (activated_event_signal c)) eqn:Hsig;
  destruct (is_success (deactivate_impl c)) eqn:Hdea;
  cbn [negb fst snd app].

Lemma activate_rejected (c : CoreOp) (b : Z) (rt : Runtime) :
  is_scheduled c = true \/ is_any_active (m_active_core_op_holder rt) = true ->
  activate c b rt = (HAILO_INVALID_OPERATION, rt, [EvLog LOG_ERROR]).
Proof.
  intros [H|H]; unfold activate; rewrite H; [reflexivity|].
  destruct (is_scheduled c); reflexivity.
Qed.

Lemma activate_claims_first (c : CoreOp) (b : Z) (rt : Runtime) :
  is_scheduled c = false -> is_any_active (m_active_core_op_holder rt) = false ->
  exists tr, snd (activate c b rt)
             = EvHolderSet (this c) :: EvActivateImpl (this c) b :: tr.
Proof.
  intros Hs Ha. unfold activate. rewrite Hs, Ha.
  split_activate c b; eexists; reflexivity.
Qed.

(** A call that returns HAILO_SUCCESS leaves the caller in the slot, with
    its event signalled. *)
Lemma activate_success (c : CoreOp) (b : Z) (rt : Runtime) :
  fst (fst (activate c b rt)) = HAILO_SUCCESS ->
  m_active_core_op_holder (snd (fst (activate c b rt))) = Some (this c)
  /\ Activated (snd (fst (activate c b rt))) (this c).
Proof.
  unfold activate, Activated.
  destruct (is_scheduled c); [discriminate|].
  destruct (is_any_active (m_active_core_op_holder rt)); [discriminate|].
  split_activate c b; intros H; try discriminate;
    try (apply is_success_false in Hact; congruence);
    try (apply is_success_false in Hsig; congruence);
    try (apply status_eqb_eq in Habt; congruence).
  all: cbn; rewrite Nat.eqb_refl; split; reflexivity.
Qed.

Lemma slot_invariant_initial : slot_invariant initial_runtime.
Proof. intros id H. discriminate H. Qed.

Lemma slot_invariant_empty (rt : Runtime) :
  slot_invariant rt -> m_active_core_op_holder rt = None ->
  forall id, m_core_op_activated_event rt id = false.
Proof.
  intros Inv Hh id. destruct (m_core_op_activated_event rt id) eqn:E; [|reflexivity].
  apply Inv in E. congruence.
Qed.

Lemma activate_keeps_invariant (c : CoreOp) (b : Z) (rt : Runtime) :
  slot_invariant rt -> slot_invariant (snd (fst (activate c b rt))).
Proof.
  intros Inv. unfold activate.
  destruct (is_scheduled c); [exact Inv|].
  destruct (m_active_core_op_holder rt) as [h|] eqn:Hh; cbn [is_any_active]; [exact Inv|].
  pose proof (slot_invariant_empty rt Inv Hh) as Hnone.
  split_activate c b; intros id; unfold Activated; cbn;
    try (rewrite Hnone; discriminate);
    (intros H; destruct (Nat.eqb_spec id (this c)) as [E|E];
     [now rewrite E | rewrite Hnone in H; discriminate]).
Qed.

Variable HOLDER_EMPTY_STATUS : hailo_status.

Lemma deactivate_keeps_invariant (c : CoreOp) (rt : Runtime) :
  slot_invariant rt -> slot_invariant (snd (fst (deactivate HOLDER_EMPTY_STATUS c rt))).
Proof.
  intros Inv. unfold deactivate.
  destruct (is_scheduled c); [exact Inv|].
  destruct (m_active_core_op_holder rt) as [h|] eqn:Hh; cbn [holder_get]; [|exact Inv].
  destruct (Nat.eqb (this c) h) eqn:E; cbn [negb]; [|exact Inv].
  apply Nat.eqb_eq in E. subst h.
  intros id. unfold Activated. cbn.
  destruct (Nat.eqb id (this c)) eqn:E; [discriminate|].
  intros H. apply Inv in H. rewrite Hh in H. injection H as H.
  rewrite <- H, Nat.eqb_refl in E. discriminate.
Qed.

Lemma run_calls_invariant (calls : list (Call)) (rt : Runtime) :
  slot_invariant rt ->
  slot_invariant (fold_left (run_call HOLDER_EMPTY_STATUS) calls rt).
Proof.
  revert rt. induction calls as [|call calls IH]; intros rt Inv; [exact Inv|].
  cbn [fold_left]. apply IH. destruct call as [c b|c]; cbn [run_call].
  - now apply activate_keeps_invariant.
  - now apply deactivate_keeps_invariant.
Qed.

(** The whole-call function [activate] is the call that nobody interrupts. *)
Lemma activate_alone_is_activate (c : CoreOp) (b : Z) (rt : Runtime) :
  activate_alone c b rt
  = (AtReturn (fst (fst (activate c b rt))),
     snd (fst (activate c b rt)), snd (activate c b rt)).
Proof.
  unfold activate_alone, activate_step, activate_from_hardware, activate.
  destruct (is_scheduled c); [reflexivity|].
  destruct (is_any_active (m_active_core_op_holder rt)); [reflexivity|].
  unfold release_after_failure.
  destruct (is_success (activate_impl c b));
    destruct (status_eqb HAILO_STREAM_ABORTED_BY_USER (activate_impl c b));
    destruct (is_success (activated_event_signal c));
    destruct (is_success (deactivate_impl c)); reflexivity.
Qed.

Lemma overlap_first_alone (c1 : CoreOp) (b1 : Z) (c2 : CoreOp) (b2 : Z) (st : Overlap) :
  first_point st = AtChecks ->
  fold_left (overlap_step c1 b1 c2 b2) [FirstCaller; FirstCaller; FirstCaller] st
  = {| first_point := fst (fst (activate_alone c1 b1 (device_runtime st)));
       second_point := second_point st;
       device_runtime := snd (fst (activate_alone c1 b1 (device_runtime st)));
       device_trace := device_trace st ++ snd (activate_alone c1 b1 (device_runtime st)) |}.
Proof.
  destruct st as [p1 p2 rt tr]. cbn [first_point second_point device_runtime device_trace].
  intros ->. unfold activate_alone. cbn [fold_left].
  unfold overlap_step at 3. cbn [first_point second_point device_runtime device_trace].
  destruct (activate_step c1 b1 AtChecks rt) as [[q1 rt1] tr1].
  unfold overlap_step at 2. cbn [first_point second_point device_runtime device_trace].
  destruct (activate_step c1 b1 q1 rt1) as [[q2 rt2] tr2].
  unfold overlap_step. cbn [first_point second_point device_runtime device_trace].
  destruct (activate_step c1 b1 q2 rt2) as [[q3 rt3] tr3].
  cbn [fst snd]. now rewrite <- !app_assoc.
Qed.

Lemma overlap_second_alone (c1 : CoreOp) (b1 : Z) (c2 : CoreOp) (b2 : Z) (st : Overlap) :
  second_point st = AtChecks ->
  fold_left (overlap_step c1 b1 c2 b2) [SecondCaller; SecondCaller; SecondCaller] st
  = {| first_point := first_point st;
       second_point := fst (fst (activate_alone c2 b2 (device_runtime st)));
       device_runtime := snd (fst (activate_alone c2 b2 (device_runtime st)));
       device_trace := device_trace st ++ snd (activate_alone c2 b2 (device_runtime st)) |}.
Proof.
  destruct st as [p1 p2 rt tr]. cbn [first_point second_point device_runtime device_trace].
  intros ->. unfold activate_alone. cbn [fold_left].
  unfold overlap_step at 3. cbn [first_point second_point device_runtime device_trace].
  destruct (activate_step c2 b2 AtChecks rt) as [[q1 rt1] tr1].
  unfold overlap_step at 2. cbn [first_point second_point device_runtime device_trace].
  destruct (activate_step c2 b2 q1 rt1) as [[q2 rt2] tr2].
  unfold overlap_step. cbn [first_point second_point device_runtime device_trace].
  destruct (activate_step c2 b2 q2 rt2) as [[q3 rt3] tr3].
  cbn [fst snd]. now rewrite <- !app_assoc.
Qed.

(** Two calls made one after the other are two calls of [activate]. *)
Lemma overlap_in_turn (c1 : CoreOp) (b1 : Z) (c2 : CoreOp) (b2 : Z) (rt : Runtime) :
  overlap_run c1 b1 c2 b2 in_turn rt
  = {| first_point := AtReturn (fst (fst (activate c1 b1 rt)));
       second_point :=
         AtReturn (fst (fst (activate c2 b2 (snd (fst (activate c1 b1 rt))))));
       device_runtime := snd (fst (activate c2 b2 (snd (fst (activate c1 b1 rt)))));
       device_trace :=
         snd (activate c1 b1 rt)
         ++ snd (activate c2 b2 (snd (fst (activate c1 b1 rt)))) |}.
Proof.
  unfold overlap_run, in_turn.
  change [FirstCaller; FirstCaller; FirstCaller; SecondCaller; SecondCaller; SecondCaller]
    with ([FirstCaller; FirstCaller; FirstCaller]
          ++ [SecondCaller; SecondCaller; SecondCaller]).
  rewrite fold_left_app, overlap_first_alone by reflexivity.
  rewrite overlap_second_alone by reflexivity.
  cbn [first_point second_point device_runtime device_trace overlap_start].
  rewrite !activate_alone_is_activate. cbn [fst snd app]. reflexivity.
Qed.

End Activation.

(** C1 (as the code has it): manual activation is mutually exclusive for
    calls that do not overlap.  A call made while the scheduler is active or
    the slot is taken returns INVALID_OPERATION and changes nothing; any
    other call takes the slot as its first step, before the hardware is
    touched; after a call that succeeded, the next call on the device returns
    INVALID_OPERATION and the slot keeps its holder; whatever calls were made
    on a device one after the other, at most one core-op is Activated, and it
    is the one in the slot; and the call as one function is the call, taken
    statement by statement, that no other caller interrupts. *)
Theorem activate_mutual_exclusion :
  (forall c b rt,
      CoreOp.is_scheduled c = true
      \/ CoreOp.is_any_active (CoreOp.m_active_core_op_holder rt) = true ->
      CoreOp.activate c b rt = (HAILO_INVALID_OPERATION, rt, [CoreOp.EvLog LOG_ERROR]))
  /\ (forall c b rt,
      CoreOp.is_scheduled c = false ->
      CoreOp.is_any_active (CoreOp.m_active_core_op_holder rt) = false ->
      exists tr, snd (CoreOp.activate c b rt)
                 = CoreOp.EvHolderSet (CoreOp.this c)
                   :: CoreOp.EvActivateImpl (CoreOp.this c) b :: tr)
  /\ (forall c1 b1 c2 b2 rt,
      fst (fst (CoreOp.activate c1 b1 rt)) = HAILO_SUCCESS ->
      let rt1 := snd (fst (CoreOp.activate c1 b1 rt)) in
      CoreOp.activate c2 b2 rt1 = (HAILO_INVALID_OPERATION, rt1, [CoreOp.EvLog LOG_ERROR])
      /\ CoreOp.m_active_core_op_holder rt1 = Some (CoreOp.this c1))
  /\ (forall empty_status calls a b,
      let rt := CoreOp.run_calls empty_status calls in
      CoreOp.Activated rt a -> CoreOp.Activated rt b ->
      a = b /\ CoreOp.m_active_core_op_holder rt = Some a)
  /\ (forall c b rt,
      CoreOp.activate_alone c b rt
      = (CoreOp.AtReturn (fst (fst (CoreOp.activate c b rt))),
         snd (fst (CoreOp.activate c b rt)), snd (CoreOp.activate c b rt)))
  /\ (forall c1 b1 c2 b2 rt,
      let st := CoreOp.overlap_run c1 b1 c2 b2 CoreOp.in_turn rt in
      let rt1 := snd (fst (CoreOp.activate c1 b1 rt)) in
      CoreOp.first_point st = CoreOp.AtReturn (fst (fst (CoreOp.activate c1 b1 rt)))
      /\ CoreOp.second_point st
         = CoreOp.AtReturn (fst (fst (CoreOp.activate c2 b2 rt1)))
      /\ CoreOp.device_runtime st = snd (fst (CoreOp.activate c2 b2 rt1))
      /\ (CoreOp.first_point st = CoreOp.AtReturn HAILO_SUCCESS ->
          CoreOp.second_point st = CoreOp.AtReturn HAILO_INVALID_OPERATION)).
Proof.
  split; [exact activate_rejected|].
  split; [exact activate_claims_first|].
  split; [|split; [|split]].
  - intros c1 b1 c2 b2 rt H rt1.
    destruct (activate_success c1 b1 rt H) as [Hh _]. fold rt1 in Hh.
    split; [|exact Hh]. apply activate_rejected. right. now rewrite Hh.
  - intros E calls a b rt Ha Hb.
    assert (Inv : slot_invariant rt)
      by (apply run_calls_invariant, slot_invariant_initial).
    pose proof (Inv a Ha) as H1. pose proof (Inv b Hb) as H2.
    split; [congruence | exact H1].
  - exact activate_alone_is_activate.
  - intros c1 b1 c2 b2 rt st rt1. subst st rt1. rewrite overlap_in_turn.
    cbn [CoreOp.first_point CoreOp.second_point CoreOp.device_runtime].
    split; [reflexivity|]. split; [reflexivity|]. split; [reflexivity|].
    intros H. injection H as H.
    destruct (activate_success c1 b1 rt H) as [Hh _].
    rewrite (activate_rejected c2 b2 (snd (fst (CoreOp.activate c1 b1 rt))))
      by (right; now rewrite Hh).
    reflexivity.
Qed.

Lemma activate_mutual_exclusion_witness :
  let c1 := plain_core_op 1 in
  let c2 := plain_core_op 2 in
  let rt1 := snd (fst (CoreOp.activate c1 1 CoreOp.initial_runtime)) in
  fst (fst (CoreOp.activate c1 1 CoreOp.initial_runtime)) = HAILO_SUCCESS
  /\ CoreOp.activate c2 1 rt1 = (HAILO_INVALID_OPERATION, rt1, [CoreOp.EvLog LOG_ERROR])
  /\ CoreOp.m_active_core_op_holder rt1 = Some 1%nat.
Proof.
  cbv zeta. split; [reflexivity|].
  apply (proj1 (proj2 (proj2 activate_mutual_exclusion))
           (plain_core_op 1) 1 (plain_core_op 2) 1 CoreOp.initial_runtime).
  reflexivity.
Defined.

(** C1, as stated, fails for calls that overlap.  On an idle device two
    callers enter [activate] on two core-ops; each passes the test of the
    slot (line 130) before the other writes it (line 132).  Both calls
    return HAILO_SUCCESS, neither returns INVALID_OPERATION, no error is
    logged, and both core-ops are Activated. *)
Lemma activate_overlapping_calls_both_succeed :
  let c1 := plain_core_op 1 in
  let c2 := plain_core_op 2 in
  let st := CoreOp.overlap_run c1 1 c2 1
              [CoreOp.FirstCaller; CoreOp.SecondCaller;
               CoreOp.FirstCaller; CoreOp.FirstCaller;
               CoreOp.SecondCaller; CoreOp.SecondCaller]
              CoreOp.initial_runtime in
  CoreOp.first_point st = CoreOp.AtReturn HAILO_SUCCESS
  /\ CoreOp.second_point st = CoreOp.AtReturn HAILO_SUCCESS
  /\ CoreOp.second_point st <> CoreOp.AtReturn HAILO_INVALID_OPERATION
  /\ CoreOp.Activated (CoreOp.device_runtime st) 1
  /\ CoreOp.Activated (CoreOp.device_runtime st) 2
  /\ CoreOp.m_active_core_op_holder (CoreOp.device_runtime st) = Some 2%nat
  /\ CoreOp.device_trace st
     = [CoreOp.EvHolderSet 1; CoreOp.EvActivateImpl 1 1; CoreOp.EvEventSignal 1;
        CoreOp.EvLog LOG_INFO; CoreOp.EvAddDataPoint;
        CoreOp.EvHolderSet 2; CoreOp.EvActivateImpl 2 1; CoreOp.EvEventSignal 2;
        CoreOp.EvLog LOG_INFO; CoreOp.EvAddDataPoint].
Proof.
  cbv zeta. split; [reflexivity|]. split; [reflexivity|]. split; [discriminate|].
  split; [reflexivity|]. split; [reflexivity|]. split; reflexivity.
Qed.

(** The same two calls made one after the other: the second is rejected. *)
Example activate_calls_in_turn :
  let st := CoreOp.overlap_run (plain_core_op 1) 1 (plain_core_op 2) 1
              CoreOp.in_turn CoreOp.initial_runtime in
  CoreOp.first_point st = CoreOp.AtReturn HAILO_SUCCESS
  /\ CoreOp.second_point st = CoreOp.AtReturn HAILO_INVALID_OPERATION
  /\ CoreOp.Activated (CoreOp.device_runtime st) 1
  /\ ~ CoreOp.Activated (CoreOp.device_runtime st) 2.
Proof.
  cbv zeta. split; [reflexivity|]. split; [reflexivity|]. split; [reflexivity|].
  discriminate.
Qed.

(** ** Failure of the hardware step of [activate] *)

Section ActivationFailure.

Import CoreOp.

Lemma activate_hardware_failure (c : CoreOp) (b : Z) (rt : Runtime) :
  is_scheduled c = false -> is_any_active (m_active_core_op_holder rt) = false ->
  activate_impl c b <> HAILO_SUCCESS ->
  activate c b rt
  = (activate_impl c b, holder_clear (holder_set rt c),
     [EvHolderSet (this c); EvActivateImpl (this c) b] ++ release_events c
     ++ (if status_eqb HAILO_STREAM_ABORTED_BY_USER (activate_impl c b)
         then [] else [EvLog LOG_ERROR])).
Proof.
  intros Hs Ha Hf. apply is_success_false in Hf.
  unfold activate, release_after_failure, release_events. rewrite Hs, Ha, Hf.
  cbn [negb]. destruct (status_eqb _ _); cbn [app]; rewrite <- ?app_assoc;
    try rewrite app_nil_r; reflexivity.
Qed.

Lemma first_failure_cons (s : hailo_status) (l : list hailo_status) :
  first_failure (s :: l) = if is_success s then first_failure l else s.
Proof. unfold first_failure, failures. cbn [filter]. now destruct (is_success s). Qed.

Lemma first_failure_app (l1 l2 : list hailo_status) :
  first_failure (l1 ++ l2)
  = if is_success (first_failure l1) then first_failure l2 else first_failure l1.
Proof.
  induction l1 as [|s l1 IH]; [reflexivity|].
  cbn [app]. rewrite !first_failure_cons.
  destruct (is_success s) eqn:E; [exact IH | now rewrite E].
Qed.

Let activations (l : list (string * Stream)) : list hailo_status :=
  map (fun p => activate_stream (snd p)) l.

Lemma activate_loop_status (l : list (string * Stream)) :
  fst (activate_streams_loop l) = first_failure (activations l).
Proof.
  induction l as [|p l IH]; [reflexivity|].
  cbn [activate_streams_loop activations map]. rewrite first_failure_cons.
  destruct (status_eqb HAILO_STREAM_ABORTED_BY_USER (activate_stream (snd p))) eqn:A.
  - apply status_eqb_eq in A. rewrite <- A. reflexivity.
  - destruct (is_success (activate_stream (snd p))); cbn [negb]; [|reflexivity].
    destruct (activate_streams_loop l) as [s tr]. exact IH.
Qed.

(** An abort is reported at INFO level, any other failure at ERROR level. *)
Lemma activate_loop_errors (l : list (string * Stream)) :
  error_lines (snd (activate_streams_loop l))
  = if is_success (fst (activate_streams_loop l))
       || status_eqb HAILO_STREAM_ABORTED_BY_USER (fst (activate_streams_loop l))
    then 0%nat else 1%nat.
Proof.
  induction l as [|p l IH]; [reflexivity|].
  cbn [activate_streams_loop].
  destruct (status_eqb HAILO_STREAM_ABORTED_BY_USER (activate_stream (snd p))) eqn:A.
  - cbn [fst snd]. rewrite A, orb_true_r. reflexivity.
  - destruct (is_success (activate_stream (snd p))) eqn:S; cbn [negb].
    + destruct (activate_streams_loop l) as [s tr]. exact IH.
    + cbn [fst snd]. rewrite A, S. reflexivity.
Qed.

Lemma error_lines_app (t1 t2 : list Event) :
  error_lines (t1 ++ t2) = (error_lines t1 + error_lines t2)%nat.
Proof. unfold error_lines. now rewrite filter_app, length_app. Qed.

Lemma activate_streams_status (c : CoreOp) :
  fst (activate_low_level_streams c) = first_failure (activation_statuses c).
Proof.
  unfold activate_low_level_streams, activation_statuses.
  rewrite map_app, first_failure_app.
  pose proof (activate_loop_status (m_input_streams c)) as Hin.
  pose proof (activate_loop_status (m_output_streams c)) as Hout.
  unfold activations in Hin, Hout. rewrite <- Hin, <- Hout.
  destruct (activate_streams_loop (m_input_streams c)) as [s_in tr_in].
  destruct (activate_streams_loop (m_output_streams c)) as [s_out tr_out].
  cbn [fst] in *. destruct (is_success s_in) eqn:Ein; cbn [negb]; [|reflexivity].
  destruct (is_success s_out) eqn:Eout; cbn [negb]; [|reflexivity].
  now apply is_success_true in Eout.
Qed.

Lemma activate_streams_errors (c : CoreOp) :
  error_lines (snd (activate_low_level_streams c))
  = if is_success (fst (activate_low_level_streams c))
       || status_eqb HAILO_STREAM_ABORTED_BY_USER (fst (activate_low_level_streams c))
    then 0%nat else 1%nat.
Proof.
  unfold activate_low_level_streams.
  pose proof (activate_loop_errors (m_input_streams c)) as Hin.
  pose proof (activate_loop_errors (m_output_streams c)) as Hout.
  destruct (activate_streams_loop (m_input_streams c)) as [s_in tr_in].
  destruct (activate_streams_loop (m_output_streams c)) as [s_out tr_out].
  cbn [fst snd] in *.
  destruct (is_success s_in) eqn:Ein; destruct (is_success s_out) eqn:Eout;
    cbn [negb fst snd orb] in *;
    rewrite ?error_lines_app, ?Hin, ?Hout, ?Ein, ?Eout; reflexivity.
Qed.

End ActivationFailure.

(** C4: an ABORTED_BY_USER from the hardware step of [activate] passes
    through.  The call deactivates best-effort, releases the slot and returns
    ABORTED_BY_USER itself, with no error reported by the call; any other
    failure of the hardware step goes the same way and is then reported as an
    error, with its own status.  [activate_low_level_streams] returns the
    status of the first stream that does not activate, whichever it is, and
    reports it as an error unless it is ABORTED_BY_USER. *)
Theorem activate_abort_passes_through :
  (forall c b rt,
      CoreOp.is_scheduled c = false ->
      CoreOp.is_any_active (CoreOp.m_active_core_op_holder rt) = false ->
      CoreOp.activate_impl c b = HAILO_STREAM_ABORTED_BY_USER ->
      CoreOp.activate c b rt
      = (HAILO_STREAM_ABORTED_BY_USER,
         CoreOp.holder_clear (CoreOp.holder_set rt c),
         [CoreOp.EvHolderSet (CoreOp.this c); CoreOp.EvActivateImpl (CoreOp.this c) b]
         ++ release_events c))
  /\ (forall c b rt,
      CoreOp.is_scheduled c = false ->
      CoreOp.is_any_active (CoreOp.m_active_core_op_holder rt) = false ->
      CoreOp.activate_impl c b <> HAILO_SUCCESS ->
      CoreOp.activate_impl c b <> HAILO_STREAM_ABORTED_BY_USER ->
      CoreOp.activate c b rt
      = (CoreOp.activate_impl c b,
         CoreOp.holder_clear (CoreOp.holder_set rt c),
         [CoreOp.EvHolderSet (CoreOp.this c); CoreOp.EvActivateImpl (CoreOp.this c) b]
         ++ release_events c ++ [CoreOp.EvLog LOG_ERROR]))
  /\ (forall c,
      fst (CoreOp.activate_low_level_streams c) = first_failure (activation_statuses c)
      /\ error_lines (snd (CoreOp.activate_low_level_streams c))
         = if CoreOp.is_success (fst (CoreOp.activate_low_level_streams c))
              || status_eqb HAILO_STREAM_ABORTED_BY_USER
                            (fst (CoreOp.activate_low_level_streams c))
           then 0%nat else 1%nat).
Proof.
  repeat split.
  - intros c b rt Hs Ha Hi.
    rewrite activate_hardware_failure by (assumption || (rewrite Hi; discriminate)).
    rewrite Hi, status_eqb_refl, app_nil_r. reflexivity.
  - intros c b rt Hs Ha Hf Hn.
    rewrite activate_hardware_failure by assumption.
    replace (status_eqb _ _) with false; [reflexivity|].
    symmetry. apply status_eqb_neq. congruence.
  - apply activate_streams_status.
  - apply activate_streams_errors.
Qed.

Lemma activate_abort_passes_through_witness :
  let c := with_hooks (plain_core_op 1) false
             HAILO_STREAM_ABORTED_BY_USER HAILO_TIMEOUT HAILO_SUCCESS in
  CoreOp.activate c 1 CoreOp.initial_runtime
  = (HAILO_STREAM_ABORTED_BY_USER,
     CoreOp.holder_clear (CoreOp.holder_set CoreOp.initial_runtime c),
     [CoreOp.EvHolderSet 1%nat; CoreOp.EvActivateImpl 1%nat 1;
      CoreOp.EvDeactivateImpl 1%nat; CoreOp.EvLog LOG_ERROR; CoreOp.EvHolderClear]).
Proof.
  cbv zeta.
  apply (proj1 activate_abort_passes_through
           (with_hooks (plain_core_op 1) false
              HAILO_STREAM_ABORTED_BY_USER HAILO_TIMEOUT HAILO_SUCCESS)
           1 CoreOp.initial_runtime); reflexivity.
Defined.

(** ** Who may deactivate *)

(** C6 (as the code has it): [deactivate] fails with INVALID_OPERATION when
    the core-op scheduler is active; otherwise with the status the slot
    answers when it is empty, and with INTERNAL_FAILURE when another core-op
    is in the slot; in the three cases nothing changes.  Called by the slot
    holder, it empties the slot, resets the activation event and returns the
    status of the deactivation step.  Only the slot holder, with the
    scheduler inactive, can deactivate successfully. *)
Theorem deactivate_ownership (empty_status : hailo_status)
    (c : CoreOp.CoreOp) (rt : CoreOp.Runtime) :
  let r := CoreOp.deactivate empty_status c rt in
  (CoreOp.is_scheduled c = true ->
     r = (HAILO_INVALID_OPERATION, rt, [CoreOp.EvLog LOG_ERROR]))
  /\ (CoreOp.is_scheduled c = false -> CoreOp.m_active_core_op_holder rt = None ->
     r = (empty_status, rt, [CoreOp.EvLog LOG_ERROR]))
  /\ (CoreOp.is_scheduled c = false ->
     forall other, CoreOp.m_active_core_op_holder rt = Some other ->
                   other <> CoreOp.this c ->
     r = (HAILO_INTERNAL_FAILURE, rt, [CoreOp.EvLog LOG_ERROR]))
  /\ (CoreOp.is_scheduled c = false ->
     CoreOp.m_active_core_op_holder rt = Some (CoreOp.this c) ->
     fst (fst r) = CoreOp.deactivate_impl c
     /\ CoreOp.m_active_core_op_holder (snd (fst r)) = None
     /\ ~ CoreOp.Activated (snd (fst r)) (CoreOp.this c))
  /\ (empty_status <> HAILO_SUCCESS -> fst (fst r) = HAILO_SUCCESS ->
     CoreOp.is_scheduled c = false
     /\ CoreOp.m_active_core_op_holder rt = Some (CoreOp.this c)).
Proof.
  cbv zeta. unfold CoreOp.deactivate.
  destruct (CoreOp.is_scheduled c) eqn:Hs.
  { split; [reflexivity|]. do 3 (split; [discriminate|]).
    intros _ H. discriminate H. }
  destruct (CoreOp.m_active_core_op_holder rt) as [h|] eqn:Hh; cbn [CoreOp.holder_get].
  - destruct (Nat.eqb_spec (CoreOp.this c) h) as [E|E]; cbn [negb].
    + subst h. split; [discriminate|]. split; [intros _ H; discriminate H|].
      split; [intros _ other H Hn; congruence|].
      split; [|intros _ _; split; reflexivity].
      intros _ _. cbn [fst snd]. repeat split.
      unfold CoreOp.Activated. cbn. rewrite Nat.eqb_refl. discriminate.
    + split; [discriminate|]. split; [intros _ H; discriminate H|].
      split; [reflexivity|]. split; [intros _ H; congruence|].
      intros _ H. discriminate H.
  - split; [discriminate|]. split; [reflexivity|].
    split; [intros _ other H; discriminate H|].
    split; [intros _ H; discriminate H|].
    intros Hn H. cbn [fst] in H. congruence.
Qed.

Lemma deactivate_ownership_witness :
  let c := plain_core_op 1 in
  let rt := CoreOp.holder_set CoreOp.initial_runtime c in
  fst (fst (CoreOp.deactivate HAILO_INVALID_OPERATION c rt)) = HAILO_SUCCESS
  /\ CoreOp.m_active_core_op_holder
       (snd (fst (CoreOp.deactivate HAILO_INVALID_OPERATION c rt))) = None
  /\ ~ CoreOp.Activated
         (snd (fst (CoreOp.deactivate HAILO_INVALID_OPERATION c rt))) 1%nat.
Proof.
  cbv zeta.
  apply (proj1 (proj2 (proj2 (proj2
           (deactivate_ownership HAILO_INVALID_OPERATION (plain_core_op 1)
              (CoreOp.holder_set CoreOp.initial_runtime (plain_core_op 1))))))).
  - reflexivity.
  - reflexivity.
Defined.

(** C6, as stated, fails: a core-op under the scheduler that does not hold
    the slot gets INVALID_OPERATION from [deactivate], not INTERNAL_FAILURE,
    even where the empty slot itself would answer INTERNAL_FAILURE. *)
Lemma deactivate_scheduled_invalid_operation :
  let c := with_hooks (plain_core_op 1) true HAILO_SUCCESS HAILO_SUCCESS HAILO_SUCCESS in
  CoreOp.m_active_core_op_holder CoreOp.initial_runtime <> Some (CoreOp.this c)
  /\ fst (fst (CoreOp.deactivate HAILO_INTERNAL_FAILURE c CoreOp.initial_runtime))
     = HAILO_INVALID_OPERATION
  /\ fst (fst (CoreOp.deactivate HAILO_INTERNAL_FAILURE c CoreOp.initial_runtime))
     <> HAILO_INTERNAL_FAILURE.
Proof. cbv zeta. repeat split; discriminate. Qed.

(** ** Latency measurement *)

Section LatencyFacts.

Import CoreOp.

Lemma get_latency_no_sample (m : LatencyMeter) (clear : bool) :
  sample m = None -> get_latency m clear = (Unexpected HAILO_NOT_AVAILABLE, m, []).
Proof. intros H. unfold get_latency, LatencyMeter_get_latency. now rewrite H. Qed.

Lemma get_latency_sample (m : LatencyMeter) (clear : bool) (v : Z) :
  sample m = Some v ->
  get_latency m clear = (Ok v, if clear then {| sample := None |} else m, []).
Proof. intros H. unfold get_latency, LatencyMeter_get_latency. now rewrite H. Qed.

Lemma sum_samples_nonneg (l : list Z) :
  Forall (fun v => 0 <= v) l -> 0 <= sum_samples l.
Proof. induction 1; simpl; [lia | unfold sum_samples in *; lia]. Qed.

(** Within range, the loop ends with the sum and the count of the samples
    added to what it started from. *)
Lemma latency_loop_result (clear : bool) (meters : LatencyMetersMap) (s n : Z) :
  0 <= s -> 0 <= n ->
  Forall (fun v => 0 <= v) (reported_samples meters) ->
  s + sum_samples (reported_samples meters) < 2 ^ 63 ->
  n + Z.of_nat (List.length (reported_samples meters)) < 2 ^ 32 ->
  fst (fst (latency_meters_loop clear meters s n))
  = Ok (s + sum_samples (reported_samples meters),
        n + Z.of_nat (List.length (reported_samples meters))).
Proof.
  revert s n. induction meters as [|[k m] meters IH]; intros s n Hs Hn Hpos Hsum Hlen.
  - simpl. now rewrite !Z.add_0_r.
  - cbn [latency_meters_loop]. unfold reported_samples in *. cbn [flat_map snd] in *.
    destruct (sample m) as [v|] eqn:Hm.
    + rewrite (get_latency_sample m clear v Hm). cbn [status_of status_eqb app].
      cbn [app] in Hpos, Hsum, Hlen. inversion Hpos as [|? ? Hv Hrest]; subst.
      pose proof (sum_samples_nonneg _ Hrest) as Hnn.
      change (sum_samples (v :: ?l)) with (v + sum_samples l) in *.
      cbn [List.length] in Hlen. rewrite Nat2Z.inj_succ in Hlen.
      change (status_eqb HAILO_NOT_AVAILABLE HAILO_SUCCESS) with false. cbv iota.
      rewrite wrap_int64_small, wrap_uint32_small by lia.
      specialize (IH (s + v) (n + 1)).
      destruct (latency_meters_loop clear meters (s + v) (n + 1)) as [[r rest'] tr].
      cbn [fst] in *. rewrite IH by (assumption || lia).
      cbn [List.length]. rewrite Nat2Z.inj_succ. f_equal. f_equal; lia.
    + rewrite (get_latency_no_sample m clear Hm). cbn [status_of app].
      rewrite status_eqb_refl. specialize (IH s n).
      destruct (latency_meters_loop clear meters s n) as [[r rest'] tr].
      cbn [fst] in *. now apply IH.
Qed.

Variable HAILO_LATENCY_CLEAR_AFTER_GET : Z.

Let measure := get_latency_measurement HAILO_LATENCY_CLEAR_AFTER_GET.

(** The aggregate read, when the meter map is there and within range. *)
Lemma aggregate_latency (c : CoreOp) (meters : LatencyMetersMap) :
  get_latency_meters c = Ok meters -> samples_in_range meters ->
  fst (fst (measure c EmptyString))
  = if Nat.eqb 1 (List.length (m_input_streams c))
    then match reported_samples meters with
         | [] => Unexpected HAILO_NOT_AVAILABLE
         | _ => Ok {| avg_hw_latency := average_latency meters |}
         end
    else Unexpected HAILO_NOT_AVAILABLE.
Proof.
  intros Hm (Hpos & Hsum & Hlen). unfold measure, get_latency_measurement.
  rewrite Hm. cbn [String.eqb].
  destruct (Nat.eqb 1 (List.length (m_input_streams c))); cbn [negb]; [|reflexivity].
  pose proof (latency_loop_result
                (Z.land (latency (m_config_params c)) HAILO_LATENCY_CLEAR_AFTER_GET
                 =? HAILO_LATENCY_CLEAR_AFTER_GET) meters 0 0) as H.
  destruct (latency_meters_loop _ meters 0 0) as [[r meters'] tr].
  cbn [fst] in H. rewrite H by (assumption || lia). rewrite !Z.add_0_l.
  unfold average_latency.
  destruct (reported_samples meters) as [|v l]; [reflexivity|].
  cbn [List.length]. rewrite Nat2Z.inj_succ.
  destruct (0 =? Z.succ (Z.of_nat (List.length l))) eqn:E; [|reflexivity].
  apply Z.eqb_eq in E. lia.
Qed.

(** A read with an empty name, made on a core-op that has not exactly one
    input stream, returns before a meter is touched. *)
Lemma aggregate_latency_guard (c : CoreOp) :
  List.length (m_input_streams c) <> 1%nat ->
  snd (fst (measure c EmptyString)) = c
  /\ meter_reads (snd (measure c EmptyString)) = []
  /\ forall meters, get_latency_meters c = Ok meters ->
                    measure c EmptyString = (Unexpected HAILO_NOT_AVAILABLE, c, []).
Proof.
  intros Hn. unfold measure, get_latency_measurement.
  destruct (Nat.eqb_spec 1 (List.length (m_input_streams c))) as [E|E]; [congruence|].
  destruct (get_latency_meters c); cbn [String.eqb negb fst snd];
    repeat split; intros; discriminate.
Qed.

Lemma named_latency_not_found (c : CoreOp) (meters : LatencyMetersMap) (name : string) :
  get_latency_meters c = Ok meters -> name <> EmptyString ->
  meters_find meters name = None ->
  measure c name = (Unexpected HAILO_NOT_FOUND, c, [EvLog LOG_DEBUG]).
Proof.
  intros Hm Hn Hf. unfold measure, get_latency_measurement. rewrite Hm.
  destruct (String.eqb_spec name EmptyString) as [E|E]; [congruence|].
  now rewrite Hf.
Qed.

(** Meters are read only by calls that pass the guard. *)
Lemma aggregate_reads_need_one_input (c : CoreOp) :
  meter_reads (snd (measure c EmptyString)) <> [] ->
  List.length (m_input_streams c) = 1%nat.
Proof.
  intros H. destruct (Nat.eq_dec (List.length (m_input_streams c)) 1) as [E|E]; [exact E|].
  destruct (aggregate_latency_guard c E) as (_ & Hr & _). congruence.
Qed.

Lemma aggregate_result_needs_one_input (c : CoreOp) (r : LatencyMeasurementResult) :
  fst (fst (measure c EmptyString)) = Ok r ->
  List.length (m_input_streams c) = 1%nat.
Proof.
  unfold measure, get_latency_measurement.
  destruct (get_latency_meters c); [|discriminate]. cbn [String.eqb].
  destruct (Nat.eqb_spec 1 (List.length (m_input_streams c))) as [E|E]; [now intros|].
  discriminate.
Qed.

End LatencyFacts.

(** C5: latency measurement results.  On a core-op whose meter map is there
    and whose samples fit the counters, a read with an empty name that
    returns a result returns the sum of the samples of the meters that have
    data divided by their number, and it does so when the core-op has its one
    input stream and some meter has data; with no meter that has data the
    call fails with NOT_AVAILABLE; a read with a non-empty name that is not in
    the map fails with NOT_FOUND, which is another status. *)
Theorem latency_measurement_results (CLEAR_AFTER_GET : Z)
    (c : CoreOp.CoreOp) (meters : CoreOp.LatencyMetersMap) :
  CoreOp.get_latency_meters c = Ok meters ->
  samples_in_range meters ->
  (List.length (CoreOp.m_input_streams c) = 1%nat ->
   CoreOp.reported_samples meters <> [] ->
   fst (fst (CoreOp.get_latency_measurement CLEAR_AFTER_GET c EmptyString))
   = Ok {| CoreOp.avg_hw_latency := average_latency meters |})
  /\ (CoreOp.reported_samples meters = [] ->
      fst (fst (CoreOp.get_latency_measurement CLEAR_AFTER_GET c EmptyString))
      = Unexpected HAILO_NOT_AVAILABLE)
  /\ (forall r,
      fst (fst (CoreOp.get_latency_measurement CLEAR_AFTER_GET c EmptyString)) = Ok r ->
      CoreOp.avg_hw_latency r = average_latency meters
      /\ CoreOp.reported_samples meters <> [])
  /\ (forall name,
      name <> EmptyString -> CoreOp.meters_find meters name = None ->
      fst (fst (CoreOp.get_latency_measurement CLEAR_AFTER_GET c name))
      = Unexpected HAILO_NOT_FOUND)
  /\ HAILO_NOT_FOUND <> HAILO_NOT_AVAILABLE.
Proof.
  intros Hm Hr.
  pose proof (aggregate_latency CLEAR_AFTER_GET c meters Hm Hr) as H.
  split; [|split; [|split; [|split]]].
  - intros Hone Hsome. rewrite H, Hone. cbn [Nat.eqb].
    destruct (CoreOp.reported_samples meters); congruence.
  - intros Hnone. rewrite H, Hnone. now destruct (Nat.eqb _ _).
  - intros r. rewrite H. destruct (Nat.eqb _ _); [|discriminate].
    destruct (CoreOp.reported_samples meters); [discriminate|].
    intros E. injection E as <-. split; [reflexivity | discriminate].
  - intros name Hn Hf.
    now rewrite (named_latency_not_found CLEAR_AFTER_GET c meters name Hm Hn Hf).
  - discriminate.
Qed.

Lemma latency_measurement_results_witness :
  fst (fst (CoreOp.get_latency_measurement 2
              (metered_core_op [stream "in0" HAILO_SUCCESS HAILO_SUCCESS]) EmptyString))
  = Ok {| CoreOp.avg_hw_latency := 17 |}.
Proof.
  refine (proj1 (latency_measurement_results 2
                   (metered_core_op [stream "in0" HAILO_SUCCESS HAILO_SUCCESS])
                   [meter "net0" (Some 10); meter "net1" None; meter "net2" (Some 25)]
                   eq_refl _) _ _).
  - unfold samples_in_range. simpl. repeat split.
    + repeat constructor; lia.
  - reflexivity.
  - discriminate.
Defined.

(** C9: the single-input guard of the aggregate read.  A read with an empty
    name on a core-op that has not exactly one input stream leaves the
    core-op and its meters as they were and reads no meter, and with the
    meter map at hand it returns NOT_AVAILABLE at once; a call that reads a
    meter, or that returns an aggregate, was made on a core-op with exactly
    one input stream. *)
Theorem latency_single_input_guard (CLEAR_AFTER_GET : Z) (c : CoreOp.CoreOp) :
  (List.length (CoreOp.m_input_streams c) <> 1%nat ->
   snd (fst (CoreOp.get_latency_measurement CLEAR_AFTER_GET c EmptyString)) = c
   /\ CoreOp.meter_reads
        (snd (CoreOp.get_latency_measurement CLEAR_AFTER_GET c EmptyString)) = []
   /\ forall meters,
        CoreOp.get_latency_meters c = Ok meters ->
        CoreOp.get_latency_measurement CLEAR_AFTER_GET c EmptyString
        = (Unexpected HAILO_NOT_AVAILABLE, c, []))
  /\ (CoreOp.meter_reads
        (snd (CoreOp.get_latency_measurement CLEAR_AFTER_GET c EmptyString)) <> [] ->
      List.length (CoreOp.m_input_streams c) = 1%nat)
  /\ (forall r,
      fst (fst (CoreOp.get_latency_measurement CLEAR_AFTER_GET c EmptyString)) = Ok r ->
      List.length (CoreOp.m_input_streams c) = 1%nat).
Proof.
  split; [apply aggregate_latency_guard|].
  split; [apply aggregate_reads_need_one_input|].
  intros r. apply aggregate_result_needs_one_input.
Qed.

Lemma latency_single_input_guard_witness :
  let c := metered_core_op [stream "in0" HAILO_SUCCESS HAILO_SUCCESS;
                            stream "in1" HAILO_SUCCESS HAILO_SUCCESS] in
  CoreOp.get_latency_measurement 2 c EmptyString = (Unexpected HAILO_NOT_AVAILABLE, c, []).
Proof.
  cbv zeta.
  refine (proj2 (proj2 (proj1 (latency_single_input_guard 2
            (metered_core_op [stream "in0" HAILO_SUCCESS HAILO_SUCCESS;
                              stream "in1" HAILO_SUCCESS HAILO_SUCCESS])) _)) _ eq_refl).
  simpl. discriminate.
Defined.

(** With one input stream the same meters are read, and cleared. *)
Example latency_read_clears :
  snd (CoreOp.get_latency_measurement 2
         (metered_core_op [stream "in0" HAILO_SUCCESS HAILO_SUCCESS]) EmptyString)
  = [CoreOp.EvMeterRead "net0"; CoreOp.EvMeterRead "net1"; CoreOp.EvMeterRead "net2"]
  /\ CoreOp.get_latency_meters
       (snd (fst (CoreOp.get_latency_measurement 2
          (metered_core_op [stream "in0" HAILO_SUCCESS HAILO_SUCCESS]) EmptyString)))
     = Ok [meter "net0" None; meter "net1" None; meter "net2" None].
Proof. split; reflexivity. Qed.

(** ** Output streams in detection-list order *)

Section NmsWrapping.

Import CoreOp.

Variables sentinel default scale : Z.
Variable channel_of : string -> Expected nat.
Variable vdma_status : hailo_stream_interface_t -> nat -> LayerInfo -> hailo_status.
Variable eth_status : LayerInfo -> hailo_status.
Variable nms_status : OutputStreamBase -> LayerInfo -> Z -> hailo_status.

Let transport :=
  create_transport_output_stream sentinel default channel_of vdma_status eth_status.
Let create :=
  create_output_stream_from_config_params
    sentinel default scale channel_of vdma_status eth_status nms_status.

Lemma construct_ok {T} (s : hailo_status) (x y : T) : construct s x = Ok y -> x = y.
Proof. unfold construct. destruct (is_success s); congruence. Qed.

Lemma construct_success {T} (x : T) : construct HAILO_SUCCESS x = Ok x.
Proof. reflexivity. Qed.

(** The [switch] builds a stream of a transport class, never an NMS stream. *)
Lemma transport_stream_is_transport (c : CoreOp) (device : Device)
    (stream_params : hailo_stream_parameters_t) (stream_name : string)
    (layer_info : LayerInfo) (base : OutputStreamBase) :
  transport c device stream_params stream_name layer_info = Ok base ->
  is_transport_stream base = true.
Proof.
  unfold transport, create_transport_output_stream, create_vdma_output_stream.
  destruct (stream_interface stream_params);
    try discriminate;
    try (intros H; apply construct_ok in H; subst; reflexivity);
    destruct (get_type device); try discriminate;
    destruct (get_stream_batch_size _ _ _ _); try discriminate;
    destruct (channel_of stream_name); try discriminate;
    intros H; apply construct_ok in H; subst; reflexivity.
Qed.

Lemma format_order_eqb_eq (a b : hailo_format_order_t) :
  format_order_eqb a b = true <-> a = b.
Proof. destruct a, b; split; (reflexivity || discriminate). Qed.

End NmsWrapping.

(** X21: wrapping of detection-list output streams.  For a configured output
    stream whose layer is found, whose interface the device supports and
    whose transport-specific stream [base] is built, on a core-op whose
    explicit batch sizes are all below UINT16_MAX: in NMS order the stream
    constructed, when the NMS stream itself is built, is the NMS stream that
    owns [base], with a queue depth of the smallest explicit batch size (the
    default when there is none) times MAX_ACTIVE_TRANSFERS_SCALE; in any
    other order it is [base] itself; and no other stream is ever returned. *)
Theorem nms_output_stream_queue_depth (sentinel default scale : Z)
    (channel_of : string -> Expected nat)
    (vdma_status : hailo_stream_interface_t -> nat -> CoreOp.LayerInfo -> hailo_status)
    (eth_status : CoreOp.LayerInfo -> hailo_status)
    (nms_status : CoreOp.OutputStreamBase -> CoreOp.LayerInfo -> Z -> hailo_status)
    (c : CoreOp.CoreOp) (device : CoreOp.Device)
    (stream_params : hailo_stream_parameters_t) (stream_name : string)
    (layer_info : CoreOp.LayerInfo) (base : CoreOp.OutputStreamBase) :
  let create :=
    CoreOp.create_output_stream_from_config_params
      sentinel default scale channel_of vdma_status eth_status nms_status
      c device stream_params stream_name in
  let max_queue_size :=
    list_min default (explicit_batch_sizes sentinel (CoreOp.m_config_params c))
    * scale in
  Forall (fun b => b < UINT16_MAX)
         (explicit_batch_sizes sentinel (CoreOp.m_config_params c)) ->
  CoreOp.get_layer_info c stream_name = Ok layer_info ->
  CoreOp.is_stream_interface_supported device (stream_interface stream_params) = true ->
  CoreOp.create_transport_output_stream
    sentinel default channel_of vdma_status eth_status
    c device stream_params stream_name layer_info = Ok base ->
  CoreOp.is_transport_stream base = true
  /\ (CoreOp.format_order layer_info = CoreOp.HAILO_FORMAT_ORDER_HAILO_NMS ->
      nms_status base layer_info max_queue_size = HAILO_SUCCESS ->
      create = Ok (CoreOp.NmsOutputStream base layer_info max_queue_size))
  /\ (CoreOp.format_order layer_info = CoreOp.HAILO_FORMAT_ORDER_HAILO_NMS ->
      nms_status base layer_info max_queue_size <> HAILO_SUCCESS ->
      create = Unexpected (nms_status base layer_info max_queue_size))
  /\ (CoreOp.format_order layer_info <> CoreOp.HAILO_FORMAT_ORDER_HAILO_NMS ->
      create = Ok base)
  /\ (forall output_stream,
      create = Ok output_stream ->
      output_stream
      = if CoreOp.format_order_eqb CoreOp.HAILO_FORMAT_ORDER_HAILO_NMS
                                   (CoreOp.format_order layer_info)
        then CoreOp.NmsOutputStream base layer_info max_queue_size
        else base).
Proof.
  intros create max_queue_size Hlt Hl Hs Hb.
  split; [exact (transport_stream_is_transport _ _ _ _ _ _ _ _ _ _ _ Hb)|].
  unfold create, CoreOp.create_output_stream_from_config_params.
  rewrite Hl, Hs, Hb. cbn [negb].
  rewrite (smallest_batch_size_below_max sentinel default _ Hlt).
  unfold spec_batch_size. fold max_queue_size.
  destruct (CoreOp.format_order_eqb CoreOp.HAILO_FORMAT_ORDER_HAILO_NMS
                                    (CoreOp.format_order layer_info)) eqn:E.
  - apply format_order_eqb_eq in E.
    split; [|split; [|split]].
    + intros _ Hn. rewrite Hn. reflexivity.
    + intros _ Hn. unfold CoreOp.construct.
      apply is_success_false in Hn. rewrite Hn. reflexivity.
    + intros Hn. congruence.
    + intros out H. apply construct_ok in H. now subst.
  - split; [|split; [|split]].
    + intros Hn. rewrite Hn in E. discriminate.
    + intros Hn. rewrite Hn in E. discriminate.
    + reflexivity.
    + intros out H. congruence.
Qed.

Lemma nms_output_stream_queue_depth_witness :
  CoreOp.create_output_stream_from_config_params 0 1 4
    (fun _ => Ok 3%nat) (fun _ _ _ => HAILO_SUCCESS) (fun _ => HAILO_SUCCESS)
    (fun _ _ _ => HAILO_SUCCESS)
    detection_core_op pcie_device pcie_output_params "nms_out"
  = Ok (CoreOp.NmsOutputStream
          (CoreOp.VdmaOutputStream HAILO_STREAM_INTERFACE_PCIE 3 nms_layer)
          nms_layer 8).
Proof.
  refine (proj1 (proj2 (nms_output_stream_queue_depth 0 1 4
            (fun _ => Ok 3%nat) (fun _ _ _ => HAILO_SUCCESS) (fun _ => HAILO_SUCCESS)
            (fun _ _ _ => HAILO_SUCCESS)
            detection_core_op pcie_device pcie_output_params "nms_out"
            nms_layer (CoreOp.VdmaOutputStream HAILO_STREAM_INTERFACE_PCIE 3 nms_layer)
            _ _ _ _)) _ _); try reflexivity.
  repeat constructor.
Defined.

(** C8: the queue depth of the NMS stream.  The depth is meant to be the
    smallest configured batch size times MAX_ACTIVE_TRANSFERS_SCALE.  On a
    core-op whose one network is configured with the batch size 65535, the
    smallest configured batch size is 65535 and the depth is 65535 * 4; the
    code takes the batch size from [get_smallest_configured_batch_size],
    which answers the default 1 there, and builds the NMS stream, around the
    transport stream, with the depth 4. *)
Theorem nms_queue_depth_at_uint16_max :
  let cp := CoreOp.m_config_params saturated_core_op in
  let create :=
    CoreOp.create_output_stream_from_config_params 0 1 4
      (fun _ => Ok 3%nat) (fun _ _ _ => HAILO_SUCCESS) (fun _ => HAILO_SUCCESS)
      (fun _ _ _ => HAILO_SUCCESS)
      saturated_core_op pcie_device pcie_output_params "nms_out" in
  wf_config_params cp
  /\ explicit_batch_sizes 0 cp = [65535]
  /\ spec_batch_size 0 1 cp * 4 = 262140
  /\ create
     = Ok (CoreOp.NmsOutputStream
             (CoreOp.VdmaOutputStream HAILO_STREAM_INTERFACE_PCIE 3 nms_layer)
             nms_layer 4)
  /\ (forall base layer max_queue_size,
        create = Ok (CoreOp.NmsOutputStream base layer max_queue_size) ->
        max_queue_size <> spec_batch_size 0 1 cp * 4).
Proof.
  cbv zeta. split; [|split; [|split; [|split]]].
  - apply Forall_cons; [|constructor]. unfold is_uint16, UINT16_MAX. simpl. lia.
  - reflexivity.
  - reflexivity.
  - reflexivity.
  - intros base layer q H.
    assert (E : q = 4) by (vm_compute in H; congruence).
    subst q. vm_compute. discriminate.
Qed.

(** The stream of the layer in another order comes back as it was built. *)
Example dense_output_stream_unwrapped :
  CoreOp.create_output_stream_from_config_params 0 1 4
    (fun _ => Ok 3%nat) (fun _ _ _ => HAILO_SUCCESS) (fun _ => HAILO_SUCCESS)
    (fun _ _ _ => HAILO_SUCCESS)
    detection_core_op pcie_device pcie_output_params "dense_out"
  = Ok (CoreOp.VdmaOutputStream HAILO_STREAM_INTERFACE_PCIE 3 dense_layer).
Proof. reflexivity. Qed.

(** ** The proxy: operations that are not routed *)

(** C7 (as the code has it): none of the operations that make no sense
    through the broker issues a remote call.  [activate],
    [wait_for_activation], the two [get_*_stream_by_name] and the two
    [get_*_streams_by_network] fail at once with INVALID_OPERATION;
    [get_input_streams] and [get_output_streams], whose return type is a
    plain vector, return an empty vector. *)
Theorem proxy_rejects_non_routable (c : Client.ConfiguredNetworkGroupClient)
    (op : Client.NonRoutable) :
  Client.remote_calls (snd (Client.call c op)) = []
  /\ fst (Client.call c op)
     = if Client.returns_stream_vector op
       then Client.OutStreams 0
       else Client.OutStatus HAILO_INVALID_OPERATION.
Proof. destruct op; split; reflexivity. Qed.

(** The functions themselves, one by one. *)
Lemma proxy_non_routable_functions (c : Client.ConfiguredNetworkGroupClient)
    (n : string) (z : Z) :
  fst (Client.activate c z) = Unexpected HAILO_INVALID_OPERATION
  /\ fst (Client.wait_for_activation c z) = HAILO_INVALID_OPERATION
  /\ fst (Client.get_input_stream_by_name c n) = Unexpected HAILO_INVALID_OPERATION
  /\ fst (Client.get_output_stream_by_name c n) = Unexpected HAILO_INVALID_OPERATION
  /\ fst (Client.get_input_streams_by_network c n) = Unexpected HAILO_INVALID_OPERATION
  /\ fst (Client.get_output_streams_by_network c n) = Unexpected HAILO_INVALID_OPERATION
  /\ fst (Client.get_input_streams c) = []
  /\ fst (Client.get_output_streams c) = [].
Proof. repeat split. Qed.

(** A routed operation does issue its remote call. *)
Lemma proxy_routed_call (c : Client.ConfiguredNetworkGroupClient) (n : string) :
  Client.remote_calls (snd (Client.get_latency_measurement c n))
  = [Client.EvRpc "ConfiguredNetworkGroup_get_latency_measurement"].
Proof. reflexivity. Qed.

(** C7, as stated, fails: [get_input_streams] does not give an
    invalid-operation result, it gives an empty vector. *)
Lemma proxy_get_input_streams_empty_vector :
  fst (Client.get_input_streams answering_proxy) = []
  /\ fst (Client.call answering_proxy Client.OpGetInputStreams) = Client.OutStreams 0
  /\ fst (Client.call answering_proxy Client.OpGetInputStreams)
     <> Client.OutStatus HAILO_INVALID_OPERATION.
Proof. repeat split. discriminate. Qed.

(** ** The proxy: getters that swallow a failure *)

Section ProxyGetters.

Import Client.

Lemma is_scheduled_failure (c : ConfiguredNetworkGroupClient) :
  status_of (ConfiguredNetworkGroup_is_scheduled (m_client c)) <> HAILO_SUCCESS ->
  is_scheduled c = (false, [EvRpc "ConfiguredNetworkGroup_is_scheduled"; EvLog LOG_ERROR]).
Proof. intros H. apply status_eqb_neq in H. unfold is_scheduled. now rewrite H. Qed.

Lemma is_multi_context_failure (c : ConfiguredNetworkGroupClient) :
  status_of (ConfiguredNetworkGroup_is_multi_context (m_client c)) <> HAILO_SUCCESS ->
  is_multi_context c
  = (false, [EvRpc "ConfiguredNetworkGroup_is_multi_context"; EvLog LOG_ERROR]).
Proof. intros H. apply status_eqb_neq in H. unfold is_multi_context. now rewrite H. Qed.

Lemma get_config_params_failure (c : ConfiguredNetworkGroupClient) :
  status_of (ConfiguredNetworkGroup_get_config_params (m_client c)) <> HAILO_SUCCESS ->
  get_config_params c
  = (ConfigureNetworkParams_default,
     [EvRpc "ConfiguredNetworkGroup_get_config_params"; EvLog LOG_ERROR]).
Proof. intros H. apply status_eqb_neq in H. unfold get_config_params. now rewrite H. Qed.

End ProxyGetters.

(** C10: the three getters swallow a failed remote call.  When the call
    fails, [is_scheduled] and [is_multi_context] return false and
    [get_config_params] returns the default-constructed parameters, which is
    what they return when the broker answers false, false and the default
    parameters: the caller cannot tell the two apart. *)
Theorem proxy_getters_swallow_errors (c answered : Client.ConfiguredNetworkGroupClient) :
  (status_of (Client.ConfiguredNetworkGroup_is_scheduled (Client.m_client c))
     <> HAILO_SUCCESS ->
   fst (Client.is_scheduled c) = false
   /\ (Client.ConfiguredNetworkGroup_is_scheduled (Client.m_client answered) = Ok false ->
       fst (Client.is_scheduled c) = fst (Client.is_scheduled answered)))
  /\ (status_of (Client.ConfiguredNetworkGroup_is_multi_context (Client.m_client c))
        <> HAILO_SUCCESS ->
      fst (Client.is_multi_context c) = false
      /\ (Client.ConfiguredNetworkGroup_is_multi_context (Client.m_client answered)
          = Ok false ->
          fst (Client.is_multi_context c) = fst (Client.is_multi_context answered)))
  /\ (status_of (Client.ConfiguredNetworkGroup_get_config_params (Client.m_client c))
        <> HAILO_SUCCESS ->
      fst (Client.get_config_params c) = ConfigureNetworkParams_default
      /\ (Client.ConfiguredNetworkGroup_get_config_params (Client.m_client answered)
          = Ok ConfigureNetworkParams_default ->
          fst (Client.get_config_params c) = fst (Client.get_config_params answered))).
Proof.
  split; [|split]; intros H.
  - rewrite (is_scheduled_failure c H). split; [reflexivity|].
    intros Ha. unfold Client.is_scheduled. now rewrite Ha.
  - rewrite (is_multi_context_failure c H). split; [reflexivity|].
    intros Ha. unfold Client.is_multi_context. now rewrite Ha.
  - rewrite (get_config_params_failure c H). split; [reflexivity|].
    intros Ha. unfold Client.get_config_params. now rewrite Ha.
Qed.

Lemma proxy_getters_swallow_errors_witness :
  (fst (Client.is_scheduled (failing_proxy HAILO_TIMEOUT)) = false
   /\ fst (Client.is_scheduled (failing_proxy HAILO_TIMEOUT))
      = fst (Client.is_scheduled answering_proxy))
  /\ (fst (Client.is_multi_context (failing_proxy HAILO_TIMEOUT)) = false
      /\ fst (Client.is_multi_context (failing_proxy HAILO_TIMEOUT))
         = fst (Client.is_multi_context answering_proxy))
  /\ (fst (Client.get_config_params (failing_proxy HAILO_TIMEOUT))
      = ConfigureNetworkParams_default
      /\ fst (Client.get_config_params (failing_proxy HAILO_TIMEOUT))
         = fst (Client.get_config_params answering_proxy)).
Proof.
  pose proof (proxy_getters_swallow_errors (failing_proxy HAILO_TIMEOUT) answering_proxy)
    as (H1 & H2 & H3).
  split; [|split].
  - destruct H1 as [Ha Hb]; [simpl; discriminate|]. split; [exact Ha|].
    apply Hb. reflexivity.
  - destruct H2 as [Ha Hb]; [simpl; discriminate|]. split; [exact Ha|].
    apply Hb. reflexivity.
  - destruct H3 as [Ha Hb]; [simpl; discriminate|]. split; [exact Ha|].
    apply Hb. reflexivity.
Defined.

(** * Further properties of the core-op *)

(** ** Layer lookup *)

Section LayerLookup.

Import CoreOp.

(** [n] names a top-level layer, or a plane of a multi-planar layer. *)
Let named (layers : list LayerInfo) (n : string) (l : LayerInfo) : Prop :=
  layer_name l = n
  /\ (In l layers
      \/ exists parent, In parent layers /\ is_multi_planar parent = true
                        /\ In l (planes parent)).

Lemma find_plane_some (ps : list LayerInfo) (n : string) (l : LayerInfo) :
  find_plane ps n = Some l -> layer_name l = n /\ In l ps.
Proof.
  induction ps as [|p ps IH]; [discriminate|]. cbn [find_plane].
  destruct (String.eqb_spec (layer_name p) n) as [E|E].
  - intros H. injection H as <-. split; [exact E | now left].
  - intros H. destruct (IH H) as [H1 H2]. split; [exact H1 | now right].
Qed.

Lemma find_plane_none (ps : list LayerInfo) (n : string) :
  find_plane ps n = None -> forall p, In p ps -> layer_name p <> n.
Proof.
  induction ps as [|p ps IH]; [intros _ q []|]. cbn [find_plane].
  destruct (String.eqb_spec (layer_name p) n) as [E|E]; [discriminate|].
  intros H q [<-|Hq]; [exact E | now apply IH].
Qed.

Lemma get_layer_info_loop_ok (layers : list LayerInfo) (n : string) (l : LayerInfo) :
  get_layer_info_loop layers n = Ok l -> named layers n l.
Proof.
  unfold named. induction layers as [|x layers IH]; [discriminate|].
  cbn [get_layer_info_loop].
  destruct (is_multi_planar x) eqn:Hm.
  - destruct (find_plane (planes x) n) as [p|] eqn:Hp.
    + intros H. injection H as <-. destruct (find_plane_some _ _ _ Hp) as [H1 H2].
      split; [exact H1|]. right. exists x. repeat split; [now left | exact Hm | exact H2].
    + destruct (String.eqb_spec (layer_name x) n) as [E|E].
      * intros H. injection H as <-. split; [exact E | left; now left].
      * intros H. destruct (IH H) as [H1 [H2|(parent & H2 & H3 & H4)]];
          (split; [exact H1|]); [left; now right|].
        right. exists parent. repeat split; [now right | exact H3 | exact H4].
  - destruct (String.eqb_spec (layer_name x) n) as [E|E].
    + intros H. injection H as <-. split; [exact E | left; now left].
    + intros H. destruct (IH H) as [H1 [H2|(parent & H2 & H3 & H4)]];
        (split; [exact H1|]); [left; now right|].
      right. exists parent. repeat split; [now right | exact H3 | exact H4].
Qed.

Lemma get_layer_info_loop_fail (layers : list LayerInfo) (n : string) (s : hailo_status) :
  get_layer_info_loop layers n = Unexpected s ->
  s = HAILO_NOT_FOUND /\ forall l, ~ named layers n l.
Proof.
  unfold named. induction layers as [|x layers IH].
  - intros H. injection H as <-. split; [reflexivity|].
    intros l [_ [[]|(parent & [] & _)]].
  - cbn [get_layer_info_loop].
    destruct (match (if is_multi_planar x then find_plane (planes x) n else None) with
              | Some _ => true | None => false end) eqn:Hsome.
    { destruct (if is_multi_planar x then find_plane (planes x) n else None);
        discriminate. }
    destruct (if is_multi_planar x then find_plane (planes x) n else None) eqn:Hp;
      [discriminate|].
    destruct (String.eqb_spec (layer_name x) n) as [E|E]; [discriminate|].
    intros H. destruct (IH H) as [Hs Hn]. split; [exact Hs|].
    intros l [Hl [[<-|Hin]|(parent & [<-|Hin] & Hm & Hpl)]].
    + contradiction.
    + apply (Hn l). split; [exact Hl | now left].
    + rewrite Hm in Hp. exact (find_plane_none _ _ Hp l Hpl Hl).
    + apply (Hn l). split; [exact Hl|]. right. now exists parent.
Qed.

End LayerLookup.

(** X1: [get_layer_info] returns a layer that carries the requested name and
    is a top-level layer or a plane of a multi-planar layer; it fails, with
    NOT_FOUND, exactly when no such layer exists. *)
Theorem get_layer_info_found (c : CoreOp.CoreOp) (stream_name : string) :
  let named l :=
    CoreOp.layer_name l = stream_name
    /\ (In l (CoreOp.get_all_layer_infos c)
        \/ exists parent, In parent (CoreOp.get_all_layer_infos c)
                          /\ CoreOp.is_multi_planar parent = true
                          /\ In l (CoreOp.planes parent)) in
  (forall l, CoreOp.get_layer_info c stream_name = Ok l -> named l)
  /\ (forall s, CoreOp.get_layer_info c stream_name = Unexpected s ->
                s = HAILO_NOT_FOUND /\ forall l, ~ named l)
  /\ (forall l, named l -> exists l', CoreOp.get_layer_info c stream_name = Ok l').
Proof.
  cbv zeta. unfold CoreOp.get_layer_info. split; [|split].
  - intros l H. now apply get_layer_info_loop_ok.
  - intros s H. now apply get_layer_info_loop_fail.
  - intros l Hl.
    destruct (CoreOp.get_layer_info_loop (CoreOp.get_all_layer_infos c) stream_name)
      as [l'|s] eqn:E; [now exists l'|].
    destruct (get_layer_info_loop_fail _ _ _ E) as [_ Hn]. now destruct (Hn l).
Qed.

Lemma get_layer_info_found_witness :
  CoreOp.layer_name
    (CoreOp.Build_LayerInfo "frame_uv" "A" false [] CoreOp.HAILO_FORMAT_ORDER_NHWC)
  = "frame_uv"%string
  /\ exists l', CoreOp.get_layer_info planar_core_op "frame_uv" = Ok l'.
Proof.
  split; [reflexivity|].
  refine (proj2 (proj2 (get_layer_info_found planar_core_op "frame_uv"))
            (CoreOp.Build_LayerInfo "frame_uv" "A" false []
               CoreOp.HAILO_FORMAT_ORDER_NHWC) _).
  split; [reflexivity|]. right.
  exists (CoreOp.Build_LayerInfo "frame" "A" true
     [CoreOp.Build_LayerInfo "frame_y" "A" false [] CoreOp.HAILO_FORMAT_ORDER_NHWC;
      CoreOp.Build_LayerInfo "frame_uv" "A" false [] CoreOp.HAILO_FORMAT_ORDER_NHWC]
     CoreOp.HAILO_FORMAT_ORDER_NHWC).
  repeat split; simpl; auto.
Defined.

(** ** Batch sizes *)

Section BatchSizeBounds.

Variables sentinel default : Z.

Lemma fold_min_le_start (m : Z) (l : list Z) : fold_right Z.min m l <= m.
Proof. induction l as [|x l IH]; simpl; lia. Qed.

Lemma fold_min_le_each (m : Z) (l : list Z) (b : Z) :
  In b l -> fold_right Z.min m l <= b.
Proof.
  induction l as [|x l IH]; [intros []|]. simpl.
  intros [<-|H]; [lia | specialize (IH H); lia].
Qed.

Lemma fold_min_choice (m : Z) (l : list Z) :
  fold_right Z.min m l = m \/ In (fold_right Z.min m l) l.
Proof.
  induction l as [|x l IH]; [now left|]. simpl.
  destruct (Z.min_spec x (fold_right Z.min m l)) as [[_ E]|[_ E]]; rewrite E.
  - right. now left.
  - destruct IH as [IH|IH]; [now left | right; now right].
Qed.

Lemma smallest_batch_size_unfold (cp : ConfigureNetworkParams) :
  get_smallest_configured_batch_size sentinel default cp
  = if UINT16_MAX =? fold_right Z.min UINT16_MAX (explicit_batch_sizes sentinel cp)
    then default
    else fold_right Z.min UINT16_MAX (explicit_batch_sizes sentinel cp).
Proof.
  unfold get_smallest_configured_batch_size. now rewrite min_batch_loop.
Qed.

Lemma is_default_loop_explicit (l : list (string * hailo_network_parameters_t)) :
  Topology.is_default_batch_size_loop sentinel l = true
  <-> filter (fun b => negb (sentinel =? b)) (map (fun p => batch_size (snd p)) l) = [].
Proof.
  induction l as [|p l IH]; [now split|].
  cbn [Topology.is_default_batch_size_loop map filter].
  rewrite (Z.eqb_sym (batch_size (snd p)) sentinel).
  destruct (sentinel =? batch_size (snd p)); cbn [negb]; [exact IH|].
  split; discriminate.
Qed.

Lemma find_network_batch_size_in (l : list (string * hailo_network_parameters_t))
    (n : string) (b : Z) :
  CoreOp.find_network_batch_size l n = Some b ->
  exists p, In p l /\ fst p = n /\ batch_size (snd p) = b.
Proof.
  induction l as [|p l IH]; [discriminate|]. cbn [CoreOp.find_network_batch_size].
  destruct (String.eqb_spec (fst p) n) as [E|E].
  - intros H. injection H as <-. exists p. repeat split; [now left | exact E].
  - intros H. destruct (IH H) as (q & H1 & H2 & H3).
    exists q. repeat split; [now right | exact H2 | exact H3].
Qed.

Lemma find_plane_existsb (ps : list CoreOp.LayerInfo) (n : string) :
  existsb (fun plane => String.eqb (CoreOp.layer_name plane) n) ps = true ->
  exists p, CoreOp.find_plane ps n = Some p.
Proof.
  induction ps as [|p ps IH]; [discriminate|]. cbn [existsb CoreOp.find_plane].
  destruct (String.eqb (CoreOp.layer_name p) n); [intros _; now exists p | exact IH].
Qed.

(** What the loop of [get_stream_batch_size] returns, and that the lookup of
    the layer succeeds wherever it returns a size. *)
Lemma stream_batch_size_loop_ok (layers : list CoreOp.LayerInfo)
    (cp : ConfigureNetworkParams) (n : string) (b : Z) :
  CoreOp.get_stream_batch_size_loop sentinel default layers cp n = Ok b ->
  (exists l, CoreOp.get_layer_info_loop layers n = Ok l)
  /\ exists p, In p (network_params_by_name cp)
               /\ b = if batch_size (snd p) =? sentinel then default
                      else batch_size (snd p).
Proof.
  induction layers as [|x layers IH]; [discriminate|].
  cbn [CoreOp.get_stream_batch_size_loop CoreOp.get_layer_info_loop].
  destruct (CoreOp.is_multi_planar x) eqn:Hm; cbn [andb].
  - destruct (existsb _ (CoreOp.planes x)) eqn:Hex.
    + destruct (find_plane_existsb _ _ Hex) as [p Hp]. rewrite Hp, orb_true_r.
      destruct (CoreOp.find_network_batch_size _ _) as [bs|] eqn:Hf.
      * intros H. injection H as <-. split; [now exists p|].
        destruct (find_network_batch_size_in _ _ _ Hf) as (q & H1 & _ & H3).
        exists q. now rewrite H3.
      * intros H. destruct (IH H) as [_ H2]. split; [now exists p | exact H2].
    + rewrite orb_false_r.
      destruct (CoreOp.find_plane (CoreOp.planes x) n) as [p|]; [|].
      * destruct (String.eqb (CoreOp.layer_name x) n).
        -- destruct (CoreOp.find_network_batch_size _ _) as [bs|] eqn:Hf.
           ++ intros H. injection H as <-. split; [now exists p|].
              destruct (find_network_batch_size_in _ _ _ Hf) as (q & H1 & _ & H3).
              exists q. now rewrite H3.
           ++ intros H. destruct (IH H) as [_ H2]. split; [now exists p | exact H2].
        -- intros H. destruct (IH H) as [_ H2]. split; [now exists p | exact H2].
      * destruct (String.eqb (CoreOp.layer_name x) n).
        -- destruct (CoreOp.find_network_batch_size _ _) as [bs|] eqn:Hf.
           ++ intros H. injection H as <-. split; [now exists x|].
              destruct (find_network_batch_size_in _ _ _ Hf) as (q & H1 & _ & H3).
              exists q. now rewrite H3.
           ++ intros H. destruct (IH H) as [_ H2]. split; [now exists x | exact H2].
        -- exact IH.
  - rewrite orb_false_r. destruct (String.eqb (CoreOp.layer_name x) n).
    + destruct (CoreOp.find_network_batch_size _ _) as [bs|] eqn:Hf.
      * intros H. injection H as <-. split; [now exists x|].
        destruct (find_network_batch_size_in _ _ _ Hf) as (q & H1 & _ & H3).
        exists q. now rewrite H3.
      * intros H. destruct (IH H) as [_ H2]. split; [now exists x | exact H2].
    + exact IH.
Qed.

Lemma stream_batch_size_loop_fail (layers : list CoreOp.LayerInfo)
    (cp : ConfigureNetworkParams) (n : string) (s : hailo_status) :
  CoreOp.get_stream_batch_size_loop sentinel default layers cp n = Unexpected s ->
  s = HAILO_NOT_FOUND.
Proof.
  induction layers as [|x layers IH]; [intros H; now injection H|].
  cbn [CoreOp.get_stream_batch_size_loop].
  destruct (_ || _); [|exact IH].
  destruct (CoreOp.find_network_batch_size _ _); [discriminate | exact IH].
Qed.

End BatchSizeBounds.

(** X2: the batch size [get_smallest_configured_batch_size] returns is the
    default or one of the batch sizes configured away from the sentinel; it
    is at most every such batch size below [UINT16_MAX], and where there is
    one it is itself configured; it is [UINT16_MAX] only if the default is. *)
Theorem smallest_batch_size_bounds (sentinel default : Z) (cp : ConfigureNetworkParams) :
  let r := get_smallest_configured_batch_size sentinel default cp in
  (r = default \/ In r (explicit_batch_sizes sentinel cp))
  /\ (forall b, In b (explicit_batch_sizes sentinel cp) -> b < UINT16_MAX ->
                r <= b /\ In r (explicit_batch_sizes sentinel cp))
  /\ (r = UINT16_MAX -> default = UINT16_MAX).
Proof.
  cbv zeta. rewrite smallest_batch_size_unfold.
  set (l := explicit_batch_sizes sentinel cp).
  pose proof (fold_min_choice UINT16_MAX l) as Hc.
  destruct (Z.eqb_spec UINT16_MAX (fold_right Z.min UINT16_MAX l)) as [E|E].
  - split; [now left|]. split; [|now intros].
    intros b Hb Hlt. pose proof (fold_min_le_each UINT16_MAX l b Hb). lia.
  - split; [destruct Hc as [Hc|Hc]; [congruence | now right]|].
    split; [|congruence].
    intros b Hb _. split; [now apply fold_min_le_each|].
    destruct Hc as [Hc|Hc]; [congruence | exact Hc].
Qed.

Lemma smallest_batch_size_bounds_witness :
  get_smallest_configured_batch_size 0 1
    (networks [network "A" 4; network "B" 0; network "C" 2]) <= 4
  /\ In (get_smallest_configured_batch_size 0 1
           (networks [network "A" 4; network "B" 0; network "C" 2]))
        (explicit_batch_sizes 0 (networks [network "A" 4; network "B" 0; network "C" 2])).
Proof.
  apply (proj1 (proj2 (smallest_batch_size_bounds 0 1
           (networks [network "A" 4; network "B" 0; network "C" 2]))) 4).
  - simpl. now left.
  - reflexivity.
Defined.

(** X3: [is_default_batch_size] holds exactly when no network is configured
    away from the sentinel; the smallest configured batch size is then the
    default, and so is the batch size of every stream that has one. *)
Theorem default_batch_size_resolution (sentinel default : Z) (c : CoreOp.CoreOp) :
  (Topology.is_default_batch_size sentinel c = true
   <-> explicit_batch_sizes sentinel (CoreOp.m_config_params c) = [])
  /\ (Topology.is_default_batch_size sentinel c = true ->
      get_smallest_configured_batch_size sentinel default (CoreOp.m_config_params c)
      = default
      /\ forall stream_name b,
           CoreOp.get_stream_batch_size sentinel default c stream_name = Ok b ->
           b = default).
Proof.
  unfold Topology.is_default_batch_size, explicit_batch_sizes.
  split; [apply is_default_loop_explicit|].
  intros H. pose proof (proj1 (is_default_loop_explicit sentinel _) H) as He.
  split.
  - rewrite smallest_batch_size_unfold. unfold explicit_batch_sizes. now rewrite He.
  - intros n b Hb. unfold CoreOp.get_stream_batch_size in Hb.
    destruct (stream_batch_size_loop_ok _ _ _ _ _ _ Hb) as [_ (p & Hp & ->)].
    destruct (Z.eqb_spec (batch_size (snd p)) sentinel) as [E|E]; [reflexivity|exfalso].
    assert (Hin : In (batch_size (snd p))
                     (filter (fun b => negb (sentinel =? b))
                        (map (fun p => batch_size (snd p))
                           (network_params_by_name (CoreOp.m_config_params c))))).
    { apply filter_In. split; [now apply (in_map (fun p => batch_size (snd p)))|].
      destruct (Z.eqb_spec sentinel (batch_size (snd p))); [congruence | reflexivity]. }
    rewrite He in Hin. exact Hin.
Qed.

Lemma default_batch_size_resolution_witness :
  let c := with_params (plain_core_op 1)
             (networks [network "A" 0; network "B" 0]) [dense_layer] in
  get_smallest_configured_batch_size 0 1 (CoreOp.m_config_params c) = 1
  /\ forall stream_name b,
       CoreOp.get_stream_batch_size 0 1 c stream_name = Ok b -> b = 1.
Proof.
  cbv zeta.
  apply (proj2 (default_batch_size_resolution 0 1
           (with_params (plain_core_op 1)
              (networks [network "A" 0; network "B" 0]) [dense_layer]))).
  reflexivity.
Defined.

(** X4: [get_stream_batch_size] returns a size only for a stream whose layer
    [get_layer_info] finds; the size is the one configured for a network, or
    the default where that network is at the sentinel, so it is never the
    sentinel unless the default is; the one failure is NOT_FOUND. *)
Theorem stream_batch_size_result (sentinel default : Z) (c : CoreOp.CoreOp)
    (stream_name : string) :
  (forall b,
      CoreOp.get_stream_batch_size sentinel default c stream_name = Ok b ->
      (exists l, CoreOp.get_layer_info c stream_name = Ok l)
      /\ (exists p, In p (network_params_by_name (CoreOp.m_config_params c))
                    /\ b = if batch_size (snd p) =? sentinel then default
                           else batch_size (snd p))
      /\ (default <> sentinel -> b <> sentinel))
  /\ (forall s,
      CoreOp.get_stream_batch_size sentinel default c stream_name = Unexpected s ->
      s = HAILO_NOT_FOUND).
Proof.
  unfold CoreOp.get_stream_batch_size, CoreOp.get_layer_info. split.
  - intros b Hb. destruct (stream_batch_size_loop_ok _ _ _ _ _ _ Hb) as [H1 H2].
    split; [exact H1|]. split; [exact H2|].
    destruct H2 as (p & _ & ->). intros Hd.
    destruct (Z.eqb_spec (batch_size (snd p)) sentinel); assumption.
  - intros s. apply stream_batch_size_loop_fail.
Qed.

Lemma stream_batch_size_result_witness :
  (exists l, CoreOp.get_layer_info planar_core_op "frame_y" = Ok l)
  /\ (exists p, In p (network_params_by_name (CoreOp.m_config_params planar_core_op))
                /\ 4 = if batch_size (snd p) =? 0 then 1 else batch_size (snd p))
  /\ (1 <> 0 -> 4 <> 0).
Proof.
  apply (proj1 (stream_batch_size_result 0 1 planar_core_op "frame_y") 4).
  reflexivity.
Defined.

(** ** The stream maps *)

Section MapFacts.

Import Topology.

Context {V : Type}.

Lemma key_compare_eq (a b : string) : String_as_OT.compare a b = Eq -> a = b.
Proof.
  intros H. pose proof (String_as_OT.compare_spec a b) as S. rewrite H in S.
  now inversion S.
Qed.

Lemma key_compare_refl (a : string) : String_as_OT.compare a a = Eq.
Proof.
  pose proof (String_as_OT.compare_spec a a) as S.
  destruct (String_as_OT.compare a a); [reflexivity | |];
    inversion S as [|H|H]; now apply (StrictOrder_Irreflexive a) in H.
Qed.

Lemma key_compare_lt_neq (a b : string) : String_as_OT.compare a b = Lt -> a <> b.
Proof. intros H ->. rewrite key_compare_refl in H. discriminate. Qed.

Lemma key_compare_gt (a b : string) :
  String_as_OT.compare a b = Gt -> String_as_OT.compare b a = Lt.
Proof.
  intros H. pose proof (String_as_OT.compare_spec a b) as S. rewrite H in S.
  now inversion S.
Qed.

Lemma key_lt_trans (a b c : string) :
  String_as_OT.compare a b = Lt -> String_as_OT.compare b c = Lt ->
  String_as_OT.compare a c = Lt.
Proof. apply (StrictOrder_Transitive (R := String_as_OT.lt)). Qed.

Lemma map_find_emplace_other (m : list (string * V)) (k k' : string) (v : V) :
  k' <> k -> map_find (map_emplace m k v) k' = map_find m k'.
Proof.
  intros Hn. induction m as [|[k0 v0] m IH]; cbn [map_emplace map_find].
  - destruct (String.eqb_spec k k'); [congruence | reflexivity].
  - destruct (String_as_OT.compare k k0); cbn [map_find].
    + reflexivity.
    + destruct (String.eqb_spec k k'); [congruence | reflexivity].
    + now rewrite IH.
Qed.

Lemma map_find_below (m : list (string * V)) (k : string) :
  Forall (fun k' => String_as_OT.compare k k' = Lt) (map fst m) -> map_find m k = None.
Proof.
  induction m as [|[k0 v0] m IH]; [reflexivity|]. cbn [map fst map_find].
  intros H. inversion H as [|? ? H1 H2]; subst.
  destruct (String.eqb_spec k0 k) as [E|E]; [|now apply IH].
  apply key_compare_lt_neq in H1. congruence.
Qed.

Lemma sorted_head_below (m : list (string * V)) (k k0 : string) (v0 : V) :
  keys_sorted ((k0, v0) :: m) -> String_as_OT.compare k k0 = Lt ->
  Forall (fun k' => String_as_OT.compare k k' = Lt) (map fst ((k0, v0) :: m)).
Proof.
  unfold keys_sorted. cbn [map fst]. intros S H. inversion S as [|? ? S1 S2]; subst.
  constructor; [exact H|].
  eapply Forall_impl; [|exact S2]. intros k' H'. now apply (key_lt_trans k k0 k').
Qed.

(** After [emplace], the value under the key is the one that was there, or
    the new one when the key was new. *)
Lemma map_find_emplace_same (m : list (string * V)) (k : string) (v : V) :
  keys_sorted m ->
  map_find (map_emplace m k v) k
  = Some (match map_find m k with Some old => old | None => v end).
Proof.
  induction m as [|[k0 v0] m IH]; intros S; cbn [map_emplace].
  - cbn [map_find]. now rewrite String.eqb_refl.
  - destruct (String_as_OT.compare k k0) eqn:E.
    + apply key_compare_eq in E. subst k0. cbn [map_find]. now rewrite String.eqb_refl.
    + rewrite (map_find_below ((k0, v0) :: m) k (sorted_head_below m k k0 v0 S E)).
      cbn [map_find]. now rewrite String.eqb_refl.
    + cbn [map_find]. apply key_compare_gt, key_compare_lt_neq in E.
      destruct (String.eqb_spec k0 k) as [Q|Q]; [congruence|].
      apply IH. unfold keys_sorted in *. cbn [map fst] in S. now inversion S.
Qed.

Lemma map_emplace_keys (m : list (string * V)) (k : string) (v : V) (x : string) :
  In x (map fst (map_emplace m k v)) -> x = k \/ In x (map fst m).
Proof.
  induction m as [|[k0 v0] m IH]; cbn [map_emplace].
  - intros [<-|[]]. now left.
  - destruct (String_as_OT.compare k k0); cbn [map fst In].
    + intros H. now right.
    + intros [<-|H]; [now left | now right].
    + intros [<-|H]; [right; now left|].
      destruct (IH H) as [->|H']; [now left | right; now right].
Qed.

Lemma map_emplace_sorted (m : list (string * V)) (k : string) (v : V) :
  keys_sorted m -> keys_sorted (map_emplace m k v).
Proof.
  unfold keys_sorted. induction m as [|[k0 v0] m IH]; intros S; cbn [map_emplace].
  - repeat constructor.
  - destruct (String_as_OT.compare k k0) eqn:E; [exact S | |].
    + cbn [map fst]. constructor; [exact S|].
      exact (sorted_head_below m k k0 v0 S E).
    + cbn [map fst] in *. inversion S as [|? ? S1 S2]; subst.
      constructor; [now apply IH|].
      apply Forall_forall. intros x Hx.
      destruct (map_emplace_keys m k v x Hx) as [->|Hx'].
      * now apply key_compare_gt.
      * exact (proj1 (Forall_forall _ _) S2 x Hx').
Qed.

End MapFacts.

(** X5: [add_input_stream] asks the stream for the buffer mode its flags
    call for (NOT_OWNING exactly when the asynchronous bit is set).  If that
    fails the status comes back and the maps are as they were.  Otherwise the
    stream is placed under its name: streams under other names, and the
    output map, are untouched, and on a map in key order a stream that is
    already under the name stays there, the new one being dropped. *)
Theorem add_input_stream_result (ASYNC : Z)
    (set_buffer_mode : Topology.InputStreamBase -> Topology.StreamBufferMode -> hailo_status)
    (maps : Topology.StreamMaps) (stream : Topology.InputStreamBase)
    (stream_params : hailo_stream_parameters_t) :
  let r := Topology.add_input_stream ASYNC set_buffer_mode maps stream stream_params in
  let name := Topology.input_stream_name stream in
  let mode := if Z.land (flags stream_params) ASYNC =? 0
              then Topology.OWNING else Topology.NOT_OWNING in
  (exists rest, snd r = Topology.EvSetBufferMode name mode :: rest)
  /\ (set_buffer_mode stream mode <> HAILO_SUCCESS ->
      fst (fst r) = set_buffer_mode stream mode /\ snd (fst r) = maps)
  /\ (set_buffer_mode stream mode = HAILO_SUCCESS ->
      fst (fst r) = HAILO_SUCCESS
      /\ Topology.m_output_streams (snd (fst r)) = Topology.m_output_streams maps
      /\ (forall other, other <> name ->
            Topology.get_input_stream_by_name (snd (fst r)) other
            = Topology.get_input_stream_by_name maps other)
      /\ (Topology.keys_sorted (Topology.m_input_streams maps) ->
          Topology.keys_sorted (Topology.m_input_streams (snd (fst r)))
          /\ Topology.get_input_stream_by_name (snd (fst r)) name
             = Ok (match Topology.map_find (Topology.m_input_streams maps) name with
                   | Some old => old
                   | None => stream
                   end))).
Proof.
  cbv zeta. unfold Topology.add_input_stream, Topology.buffer_mode_for.
  destruct (Z.land (flags stream_params) ASYNC =? 0); cbn [negb];
    match goal with
    | |- context [CoreOp.is_success (set_buffer_mode stream ?m)] =>
        destruct (CoreOp.is_success (set_buffer_mode stream m)) eqn:E
    end; cbn [negb fst snd];
    (split; [eexists; reflexivity|]);
    (split; [intros H|intros H]);
    try (apply is_success_true in E; congruence);
    try (apply is_success_false in E; congruence);
    try (split; reflexivity);
    (split; [reflexivity|]); (split; [reflexivity|]);
    (split; [intros other Ho; unfold Topology.get_input_stream_by_name;
             cbn [Topology.m_input_streams];
             now rewrite map_find_emplace_other|]);
    intros S; cbn [Topology.m_input_streams];
    (split; [now apply map_emplace_sorted|]);
    unfold Topology.get_input_stream_by_name; cbn [Topology.m_input_streams];
    now rewrite map_find_emplace_same.
Qed.

Lemma add_input_stream_result_witness :
  let r := Topology.add_input_stream 1 (fun _ _ => HAILO_SUCCESS)
             two_inputs_one_output (eth_input "in1") async_input_params in
  fst (fst r) = HAILO_SUCCESS
  /\ Topology.get_input_stream_by_name (snd (fst r)) "in1" = Ok (eth_input "in1")
  /\ snd r = [Topology.EvSetBufferMode "in1" Topology.NOT_OWNING].
Proof.
  cbv zeta.
  pose proof (add_input_stream_result 1 (fun _ _ => HAILO_SUCCESS)
                two_inputs_one_output (eth_input "in1") async_input_params)
    as (_ & _ & H).
  destruct (H eq_refl) as (H1 & _ & _ & H4).
  split; [exact H1|]. split; [|reflexivity].
  apply H4. unfold Topology.keys_sorted. simpl.
  repeat constructor.
Defined.

(** X6: [add_output_stream] does the same on the output map. *)
Theorem add_output_stream_result (ASYNC : Z)
    (set_buffer_mode : Topology.OutputStream -> Topology.StreamBufferMode -> hailo_status)
    (maps : Topology.StreamMaps) (stream : Topology.OutputStream)
    (stream_params : hailo_stream_parameters_t) :
  let r := Topology.add_output_stream ASYNC set_buffer_mode maps stream stream_params in
  let name := Topology.output_stream_name stream in
  let mode := if Z.land (flags stream_params) ASYNC =? 0
              then Topology.OWNING else Topology.NOT_OWNING in
  (exists rest, snd r = Topology.EvSetBufferMode name mode :: rest)
  /\ (set_buffer_mode stream mode <> HAILO_SUCCESS ->
      fst (fst r) = set_buffer_mode stream mode /\ snd (fst r) = maps)
  /\ (set_buffer_mode stream mode = HAILO_SUCCESS ->
      fst (fst r) = HAILO_SUCCESS
      /\ Topology.m_input_streams (snd (fst r)) = Topology.m_input_streams maps
      /\ (forall other, other <> name ->
            Topology.get_output_stream_by_name (snd (fst r)) other
            = Topology.get_output_stream_by_name maps other)
      /\ (Topology.keys_sorted (Topology.m_output_streams maps) ->
          Topology.keys_sorted (Topology.m_output_streams (snd (fst r)))
          /\ Topology.get_output_stream_by_name (snd (fst r)) name
             = Ok (match Topology.map_find (Topology.m_output_streams maps) name with
                   | Some old => old
                   | None => stream
                   end))).
Proof.
  cbv zeta. unfold Topology.add_output_stream, Topology.buffer_mode_for.
  destruct (Z.land (flags stream_params) ASYNC =? 0); cbn [negb];
    match goal with
    | |- context [CoreOp.is_success (set_buffer_mode stream ?m)] =>
        destruct (CoreOp.is_success (set_buffer_mode stream m)) eqn:E
    end; cbn [negb fst snd];
    (split; [eexists; reflexivity|]);
    (split; [intros H|intros H]);
    try (apply is_success_true in E; congruence);
    try (apply is_success_false in E; congruence);
    try (split; reflexivity);
    (split; [reflexivity|]); (split; [reflexivity|]);
    (split; [intros other Ho; unfold Topology.get_output_stream_by_name;
             cbn [Topology.m_output_streams];
             now rewrite map_find_emplace_other|]);
    intros S; cbn [Topology.m_output_streams];
    (split; [now apply map_emplace_sorted|]);
    unfold Topology.get_output_stream_by_name; cbn [Topology.m_output_streams];
    now rewrite map_find_emplace_same.
Qed.

Lemma add_output_stream_result_witness :
  let r := Topology.add_output_stream 1 (fun _ _ => HAILO_TIMEOUT)
             two_inputs_one_output (eth_output "out1") async_input_params in
  fst (fst r) = HAILO_TIMEOUT /\ snd (fst r) = two_inputs_one_output.
Proof.
  cbv zeta.
  refine (proj1 (proj2 (add_output_stream_result 1 (fun _ _ => HAILO_TIMEOUT)
            two_inputs_one_output (eth_output "out1") async_input_params)) _).
  discriminate.
Defined.

(** ** Wrapping the streams for a remote process *)

Section WrapFacts.

Import Topology.

Context {S : Type}.
Variable status_of_create : S -> hailo_status.
Variable wrapper : S -> S.

Let create (base_stream : S) : Expected S :=
  CoreOp.construct (status_of_create base_stream) (wrapper base_stream).

Lemma wrap_loop_keys (m : list (string * S)) :
  map fst (snd (wrap_loop create m)) = map fst m.
Proof.
  induction m as [|[k b] m IH]; [reflexivity|]. cbn [wrap_loop].
  destruct (create b); [|reflexivity].
  destruct (wrap_loop create m) as [st rest]. cbn [snd] in *. cbn [map fst].
  f_equal. exact IH.
Qed.

Lemma create_cases (b : S) :
  (status_of_create b = HAILO_SUCCESS /\ create b = Ok (wrapper b))
  \/ (status_of_create b <> HAILO_SUCCESS /\ create b = Unexpected (status_of_create b)).
Proof.
  unfold create, CoreOp.construct.
  destruct (CoreOp.is_success (status_of_create b)) eqn:E.
  - left. split; [now apply is_success_true | reflexivity].
  - right. split; [now apply is_success_false | reflexivity].
Qed.

Lemma wrap_loop_success (m : list (string * S)) :
  fst (wrap_loop create m) = HAILO_SUCCESS ->
  snd (wrap_loop create m) = map (fun p => (fst p, wrapper (snd p))) m
  /\ Forall (fun p => status_of_create (snd p) = HAILO_SUCCESS) m.
Proof.
  induction m as [|[k b] m IH]; [now split|]. cbn [wrap_loop].
  destruct (create_cases b) as [[E ->]|[E ->]].
  - destruct (wrap_loop create m) as [st rest]. cbn [fst snd] in *.
    intros H. destruct (IH H) as [H1 H2].
    split; [cbn [map fst snd]; now f_equal | now constructor].
  - cbn [fst]. intros H. congruence.
Qed.

Lemma wrap_loop_all_succeed (m : list (string * S)) :
  Forall (fun p => status_of_create (snd p) = HAILO_SUCCESS) m ->
  fst (wrap_loop create m) = HAILO_SUCCESS.
Proof.
  induction 1 as [|[k b] m H _ IH]; [reflexivity|]. cbn [wrap_loop].
  cbn [snd] in H. destruct (create_cases b) as [[E ->]|[E ->]]; [|congruence].
  destruct (wrap_loop create m). exact IH.
Qed.

(** A stream found after the loop is the one found before it, or its
    wrapper. *)
Lemma wrap_loop_find (m : list (string * S)) (k : string) :
  match map_find (snd (wrap_loop create m)) k with
  | None => map_find m k = None
  | Some s' => exists s, map_find m k = Some s /\ (s' = s \/ s' = wrapper s)
  end.
Proof.
  induction m as [|[k0 b] m IH]; [reflexivity|]. cbn [wrap_loop].
  destruct (create_cases b) as [[E ->]|[E ->]].
  - destruct (wrap_loop create m) as [st rest]. cbn [snd map_find] in *.
    destruct (String.eqb k0 k); [exists b; split; [reflexivity | now right] | exact IH].
  - cbn [snd map_find].
    destruct (String.eqb k0 k); [exists b; split; [reflexivity | now left]|].
    destruct (map_find m k) as [s|]; [exists s; split; [reflexivity | now left] | reflexivity].
Qed.

Let built (p : string * S) : Prop := status_of_create (snd p) = HAILO_SUCCESS.
Let wrapped (p : string * S) : string * S := (fst p, wrapper (snd p)).

Lemma wrap_loop_all (m : list (string * S)) :
  Forall built m -> wrap_loop create m = (HAILO_SUCCESS, map wrapped m).
Proof.
  intros H. pose proof (wrap_loop_all_succeed m H) as E.
  destruct (wrap_loop_success m E) as [E' _].
  destruct (wrap_loop create m) as [st r]. cbn [fst snd] in *. now subst.
Qed.

(** The loop stops at the first stream whose wrapper is not built: the
    streams before it stay wrapped, it and the streams after it stay as they
    were. *)
Lemma wrap_loop_failure (before rest : list (string * S)) (failing : string * S) :
  Forall built before -> ~ built failing ->
  wrap_loop create (before ++ failing :: rest)
  = (status_of_create (snd failing), map wrapped before ++ failing :: rest).
Proof.
  intros Hb Hf. induction Hb as [|[k b] before H _ IH].
  - destruct failing as [k b]. cbn [app map wrap_loop snd] in *.
    destruct (create_cases b) as [[E ->]|[E ->]]; [contradiction | reflexivity].
  - cbn [app map wrap_loop]. unfold built in H. cbn [snd] in H.
    destruct (create_cases b) as [[E ->]|[E ->]]; [|contradiction].
    rewrite IH. reflexivity.
Qed.

Lemma first_not_built (m : list (string * S)) :
  Forall built m
  \/ exists before failing rest,
       m = before ++ failing :: rest /\ Forall built before /\ ~ built failing.
Proof.
  induction m as [|p m IH]; [left; constructor|].
  destruct (status_eq_dec (status_of_create (snd p)) HAILO_SUCCESS) as [E|E].
  - destruct IH as [IH|(before & failing & rest & -> & Hb & Hf)].
    + left. now constructor.
    + right. exists (p :: before), failing, rest.
      split; [reflexivity|]. split; [now constructor | exact Hf].
  - right. exists [], p, m. split; [reflexivity|]. split; [constructor | exact E].
Qed.

End WrapFacts.

(** The names stay, a stream found afterwards is the old one or its wrapper,
    and the call succeeds exactly when every wrapper is built. *)
Lemma wrap_streams_shape
    (in_status : Topology.InputStreamBase -> hailo_status)
    (out_status : Topology.OutputStream -> hailo_status)
    (maps : Topology.StreamMaps) :
  let r := Topology.wrap_streams_for_remote_process in_status out_status maps in
  map fst (Topology.m_input_streams (snd r)) = map fst (Topology.m_input_streams maps)
  /\ map fst (Topology.m_output_streams (snd r)) = map fst (Topology.m_output_streams maps)
  /\ (forall name s',
        Topology.get_input_stream_by_name (snd r) name = Ok s' ->
        exists s, Topology.get_input_stream_by_name maps name = Ok s
                  /\ (s' = s \/ s' = Topology.RemoteProcessInputStream s))
  /\ (fst r = HAILO_SUCCESS <->
      Forall (fun p => in_status (snd p) = HAILO_SUCCESS) (Topology.m_input_streams maps)
      /\ Forall (fun p => out_status (snd p) = HAILO_SUCCESS)
                (Topology.m_output_streams maps))
  /\ (fst r = HAILO_SUCCESS ->
      Topology.m_input_streams (snd r)
      = map (fun p => (fst p, Topology.RemoteProcessInputStream (snd p)))
            (Topology.m_input_streams maps)
      /\ Topology.m_output_streams (snd r)
         = map (fun p => (fst p, Topology.RemoteProcessOutputStream (snd p)))
               (Topology.m_output_streams maps))
  /\ (~ Forall (fun p => in_status (snd p) = HAILO_SUCCESS)
               (Topology.m_input_streams maps) ->
      fst r <> HAILO_SUCCESS
      /\ Topology.m_output_streams (snd r) = Topology.m_output_streams maps).
Proof.
  cbv zeta. unfold Topology.wrap_streams_for_remote_process.
  pose proof (wrap_loop_keys in_status Topology.RemoteProcessInputStream
                (Topology.m_input_streams maps)) as Kin.
  pose proof (wrap_loop_keys out_status Topology.RemoteProcessOutputStream
                (Topology.m_output_streams maps)) as Kout.
  pose proof (wrap_loop_success in_status Topology.RemoteProcessInputStream
                (Topology.m_input_streams maps)) as Sin.
  pose proof (wrap_loop_success out_status Topology.RemoteProcessOutputStream
                (Topology.m_output_streams maps)) as Sout.
  pose proof (wrap_loop_all_succeed in_status Topology.RemoteProcessInputStream
                (Topology.m_input_streams maps)) as Ain.
  pose proof (wrap_loop_all_succeed out_status Topology.RemoteProcessOutputStream
                (Topology.m_output_streams maps)) as Aout.
  pose proof (fun k => wrap_loop_find in_status Topology.RemoteProcessInputStream
                (Topology.m_input_streams maps) k) as Fin.
  cbv zeta in *.
  destruct (Topology.wrap_loop _ (Topology.m_input_streams maps)) as [s_in ins].
  destruct (Topology.wrap_loop _ (Topology.m_output_streams maps)) as [s_out outs].
  cbn [fst snd] in *.
  assert (Hfind : forall name s',
             Topology.map_find ins name = Some s' ->
             exists s, Topology.get_input_stream_by_name maps name = Ok s
                       /\ (s' = s \/ s' = Topology.RemoteProcessInputStream s)).
  { intros name s' H. specialize (Fin name). rewrite H in Fin.
    destruct Fin as (s & Hs & Hor). exists s.
    unfold Topology.get_input_stream_by_name. now rewrite Hs. }
  destruct (CoreOp.is_success s_in) eqn:Ein; cbn [negb].
  - apply is_success_true in Ein. destruct (Sin Ein) as [Sin1 Sin2].
    destruct (CoreOp.is_success s_out) eqn:Eout; cbn [negb fst snd Topology.m_input_streams
                                                       Topology.m_output_streams].
    + apply is_success_true in Eout. destruct (Sout Eout) as [Sout1 Sout2].
      split; [exact Kin|]. split; [exact Kout|].
      split. { intros name s'. unfold Topology.get_input_stream_by_name at 1.
               cbn [Topology.m_input_streams].
               destruct (Topology.map_find ins name) eqn:F; [|discriminate].
               intros H. injection H as <-. now apply Hfind. }
      split; [split; [now intros | reflexivity]|].
      split; [now intros|]. intros H. now destruct H.
    + apply is_success_false in Eout.
      split; [exact Kin|]. split; [exact Kout|].
      split. { intros name s'. unfold Topology.get_input_stream_by_name at 1.
               cbn [Topology.m_input_streams].
               destruct (Topology.map_find ins name) eqn:F; [|discriminate].
               intros H. injection H as <-. now apply Hfind. }
      split; [split; [congruence | intros [_ H]; now apply Aout in H]|].
      split; [congruence|]. intros H. now destruct H.
  - apply is_success_false in Ein.
    cbn [fst snd Topology.m_input_streams Topology.m_output_streams].
    split; [exact Kin|]. split; [reflexivity|].
    split. { intros name s'. unfold Topology.get_input_stream_by_name at 1.
             cbn [Topology.m_input_streams].
             destruct (Topology.map_find ins name) eqn:F; [|discriminate].
             intros H. injection H as <-. now apply Hfind. }
    split; [split; [congruence | intros [H _]; now apply Ain in H]|].
    split; [congruence|]. intros _. split; [exact Ein | reflexivity].
Qed.

Section WrapStreams.

Import Topology.

Variable in_status : InputStreamBase -> hailo_status.
Variable out_status : OutputStream -> hailo_status.

Lemma wrap_streams_input_failure (maps : StreamMaps)
    (before rest : list (string * InputStreamBase)) (failing : string * InputStreamBase) :
  m_input_streams maps = before ++ failing :: rest ->
  Forall (fun p => in_status (snd p) = HAILO_SUCCESS) before ->
  in_status (snd failing) <> HAILO_SUCCESS ->
  wrap_streams_for_remote_process in_status out_status maps
  = (in_status (snd failing),
     {| m_input_streams :=
          map (fun p => (fst p, RemoteProcessInputStream (snd p))) before
          ++ failing :: rest;
        m_output_streams := m_output_streams maps |}).
Proof.
  intros E Hb Hf. unfold wrap_streams_for_remote_process. rewrite E.
  rewrite (wrap_loop_failure in_status RemoteProcessInputStream before rest failing Hb Hf).
  apply is_success_false in Hf. rewrite Hf. reflexivity.
Qed.

Lemma wrap_streams_output_failure (maps : StreamMaps)
    (before rest : list (string * OutputStream)) (failing : string * OutputStream) :
  Forall (fun p => in_status (snd p) = HAILO_SUCCESS) (m_input_streams maps) ->
  m_output_streams maps = before ++ failing :: rest ->
  Forall (fun p => out_status (snd p) = HAILO_SUCCESS) before ->
  out_status (snd failing) <> HAILO_SUCCESS ->
  wrap_streams_for_remote_process in_status out_status maps
  = (out_status (snd failing),
     {| m_input_streams :=
          map (fun p => (fst p, RemoteProcessInputStream (snd p))) (m_input_streams maps);
        m_output_streams :=
          map (fun p => (fst p, RemoteProcessOutputStream (snd p))) before
          ++ failing :: rest |}).
Proof.
  intros Hi E Hb Hf. unfold wrap_streams_for_remote_process. rewrite E.
  rewrite (wrap_loop_all in_status RemoteProcessInputStream _ Hi).
  change (CoreOp.is_success HAILO_SUCCESS) with true. cbn [negb].
  rewrite (wrap_loop_failure out_status RemoteProcessOutputStream before rest failing Hb Hf).
  apply is_success_false in Hf. rewrite Hf. reflexivity.
Qed.

End WrapStreams.

(** X7: [wrap_streams_for_remote_process] never changes the names in the
    maps, and a stream found under a name afterwards is the stream that was
    there or the remote-process stream around it.  It returns HAILO_SUCCESS
    exactly when every wrapper is built, and then every stream of both maps
    is wrapped.  When a wrapper of an input stream is not built the call
    fails and the output map is left as it was.  Nothing is rolled back: a
    call that fails returns the status of the first wrapper that is not
    built, inputs before outputs, and leaves the streams before that one
    wrapped (all the inputs, when it is an output), that stream and the
    streams after it as they were. *)
Theorem wrap_streams_result
    (in_status : Topology.InputStreamBase -> hailo_status)
    (out_status : Topology.OutputStream -> hailo_status)
    (maps : Topology.StreamMaps) :
  let r := Topology.wrap_streams_for_remote_process in_status out_status maps in
  let wrapped_input (p : string * Topology.InputStreamBase) :=
    (fst p, Topology.RemoteProcessInputStream (snd p)) in
  let wrapped_output (p : string * Topology.OutputStream) :=
    (fst p, Topology.RemoteProcessOutputStream (snd p)) in
  let input_built (p : string * Topology.InputStreamBase) :=
    in_status (snd p) = HAILO_SUCCESS in
  let output_built (p : string * Topology.OutputStream) :=
    out_status (snd p) = HAILO_SUCCESS in
  map fst (Topology.m_input_streams (snd r)) = map fst (Topology.m_input_streams maps)
  /\ map fst (Topology.m_output_streams (snd r)) = map fst (Topology.m_output_streams maps)
  /\ (forall name s',
        Topology.get_input_stream_by_name (snd r) name = Ok s' ->
        exists s, Topology.get_input_stream_by_name maps name = Ok s
                  /\ (s' = s \/ s' = Topology.RemoteProcessInputStream s))
  /\ (fst r = HAILO_SUCCESS <->
      Forall input_built (Topology.m_input_streams maps)
      /\ Forall output_built (Topology.m_output_streams maps))
  /\ (fst r = HAILO_SUCCESS ->
      Topology.m_input_streams (snd r) = map wrapped_input (Topology.m_input_streams maps)
      /\ Topology.m_output_streams (snd r)
         = map wrapped_output (Topology.m_output_streams maps))
  /\ (~ Forall input_built (Topology.m_input_streams maps) ->
      fst r <> HAILO_SUCCESS
      /\ Topology.m_output_streams (snd r) = Topology.m_output_streams maps)
  /\ (forall before failing rest,
        Topology.m_input_streams maps = before ++ failing :: rest ->
        Forall input_built before -> ~ input_built failing ->
        r = (in_status (snd failing),
             {| Topology.m_input_streams := map wrapped_input before ++ failing :: rest;
                Topology.m_output_streams := Topology.m_output_streams maps |}))
  /\ (forall before failing rest,
        Forall input_built (Topology.m_input_streams maps) ->
        Topology.m_output_streams maps = before ++ failing :: rest ->
        Forall output_built before -> ~ output_built failing ->
        r = (out_status (snd failing),
             {| Topology.m_input_streams :=
                  map wrapped_input (Topology.m_input_streams maps);
                Topology.m_output_streams :=
                  map wrapped_output before ++ failing :: rest |}))
  /\ (fst r <> HAILO_SUCCESS ->
      (exists before failing rest,
          Topology.m_input_streams maps = before ++ failing :: rest
          /\ Forall input_built before /\ ~ input_built failing)
      \/ (Forall input_built (Topology.m_input_streams maps)
          /\ exists before failing rest,
               Topology.m_output_streams maps = before ++ failing :: rest
               /\ Forall output_built before /\ ~ output_built failing)).
Proof.
  cbv zeta.
  destruct (wrap_streams_shape in_status out_status maps)
    as (H1 & H2 & H3 & H4 & H5 & H6). cbv zeta in H1, H2, H3, H4, H5, H6.
  split; [exact H1|]. split; [exact H2|]. split; [exact H3|]. split; [exact H4|].
  split; [exact H5|]. split; [exact H6|].
  split; [intros before failing rest; apply wrap_streams_input_failure|].
  split; [intros before failing rest; apply wrap_streams_output_failure|].
  intros Hf.
  destruct (first_not_built in_status (Topology.m_input_streams maps)) as [Hi|Hi];
    [|left; exact Hi].
  destruct (first_not_built out_status (Topology.m_output_streams maps)) as [Ho|Ho];
    [|right; split; [exact Hi | exact Ho]].
  exfalso. apply Hf, H4. split; assumption.
Qed.

Lemma wrap_streams_result_witness :
  Topology.wrap_streams_for_remote_process
    (fun s => match s with
              | Topology.EthernetInputStream
                  (CoreOp.Build_LayerInfo "in1" _ _ _ _) => HAILO_OUT_OF_HOST_MEMORY
              | _ => HAILO_SUCCESS
              end)
    (fun _ => HAILO_SUCCESS) two_inputs_one_output
  = (HAILO_OUT_OF_HOST_MEMORY,
     {| Topology.m_input_streams :=
          [("in0"%string, Topology.RemoteProcessInputStream (eth_input "in0"));
           ("in1"%string, eth_input "in1")];
        Topology.m_output_streams := [("out0"%string, eth_output "out0")] |}).
Proof.
  refine (proj1 (proj2 (proj2 (proj2 (proj2 (proj2 (proj2
            (wrap_streams_result _ (fun _ => HAILO_SUCCESS) two_inputs_one_output)))))))
            [("in0"%string, eth_input "in0")] ("in1"%string, eth_input "in1") []
            eq_refl _ _).
  - repeat constructor.
  - discriminate.
Defined.

(** An output wrapper that is not built: every input stays wrapped. *)
Example wrap_streams_output_not_built :
  Topology.wrap_streams_for_remote_process
    (fun _ => HAILO_SUCCESS) (fun _ => HAILO_OUT_OF_HOST_MEMORY) two_inputs_one_output
  = (HAILO_OUT_OF_HOST_MEMORY,
     {| Topology.m_input_streams :=
          [("in0"%string, Topology.RemoteProcessInputStream (eth_input "in0"));
           ("in1"%string, Topology.RemoteProcessInputStream (eth_input "in1"))];
        Topology.m_output_streams := [("out0"%string, eth_output "out0")] |}).
Proof. reflexivity. Qed.

(** The input map of that call: the first stream wrapped, the second not. *)
Example wrap_streams_partial :
  Topology.m_input_streams
    (snd (Topology.wrap_streams_for_remote_process
            (fun s => match s with
                      | Topology.EthernetInputStream
                          (CoreOp.Build_LayerInfo "in1" _ _ _ _) => HAILO_OUT_OF_HOST_MEMORY
                      | _ => HAILO_SUCCESS
                      end)
            (fun _ => HAILO_SUCCESS) two_inputs_one_output))
  = [("in0"%string, Topology.RemoteProcessInputStream (eth_input "in0"));
     ("in1"%string, eth_input "in1")].
Proof. reflexivity. Qed.

(** ** Streams of a network *)

Lemma streams_by_names_looked_up {S} (m : list (string * S)) (names : list string) :
  looked_up m names
    (Topology.streams_by_names
       (fun name => match Topology.map_find m name with
                    | None => Unexpected HAILO_NOT_FOUND
                    | Some stream => Ok stream
                    end) names).
Proof.
  induction names as [|n names IH]; [constructor|].
  cbn [Topology.streams_by_names].
  destruct (Topology.map_find m n) as [s|] eqn:F.
  - destruct (Topology.streams_by_names _ names) as [result|st]; cbn [looked_up] in *.
    + now constructor.
    + destruct IH as [H1 H2]. split; [exact H1 | now apply Exists_cons_tl].
  - split; [reflexivity | now apply Exists_cons_hd].
Qed.

(** X8: [get_input_streams_by_network] and [get_output_streams_by_network]
    pass on the failure of the metadata; otherwise they return the streams
    found under the names of the stream infos, one per name and in their
    order, or fail with NOT_FOUND because one of the names is not in the
    map. *)
Theorem streams_by_network_result
    (input_infos output_infos : string -> Expected (list string))
    (maps : Topology.StreamMaps) (network_name : string) :
  match input_infos network_name with
  | Unexpected s =>
      Topology.get_input_streams_by_network input_infos maps network_name = Unexpected s
  | Ok names =>
      looked_up (Topology.m_input_streams maps) names
        (Topology.get_input_streams_by_network input_infos maps network_name)
  end
  /\ match output_infos network_name with
     | Unexpected s =>
         Topology.get_output_streams_by_network output_infos maps network_name
         = Unexpected s
     | Ok names =>
         looked_up (Topology.m_output_streams maps) names
           (Topology.get_output_streams_by_network output_infos maps network_name)
     end.
Proof.
  unfold Topology.get_input_streams_by_network, Topology.get_output_streams_by_network.
  split.
  - destruct (input_infos network_name); [|reflexivity].
    apply streams_by_names_looked_up.
  - destruct (output_infos network_name); [|reflexivity].
    apply streams_by_names_looked_up.
Qed.

(** ** Building one stream *)

Section BuildFacts.

Import Topology.

Variable channel_of : string -> Expected nat.
Variable vdma_in : hailo_stream_interface_t -> nat -> CoreOp.LayerInfo -> hailo_status.
Variables eth_in mipi_in : CoreOp.LayerInfo -> hailo_status.

Let create_input :=
  create_input_stream_from_config_params channel_of vdma_in eth_in mipi_in.

Lemma get_layer_info_name (c : CoreOp.CoreOp) (n : string) (l : CoreOp.LayerInfo) :
  CoreOp.get_layer_info c n = Ok l -> CoreOp.layer_name l = n.
Proof.
  unfold CoreOp.get_layer_info. intros H. now apply get_layer_info_loop_ok in H.
Qed.

Lemma get_layer_info_status (c : CoreOp.CoreOp) (n : string) (s : hailo_status) :
  CoreOp.get_layer_info c n = Unexpected s -> s = HAILO_NOT_FOUND.
Proof.
  unfold CoreOp.get_layer_info. intros H. now apply get_layer_info_loop_fail in H.
Qed.

(** What a built input stream is. *)
Lemma create_input_ok (c : CoreOp.CoreOp) (device : CoreOp.Device)
    (p : hailo_stream_parameters_t) (n : string) (stream : InputStreamBase) :
  create_input c device p n = Ok stream ->
  CoreOp.is_stream_interface_supported device (stream_interface p) = true
  /\ exists l, CoreOp.get_layer_info c n = Ok l
     /\ match stream_interface p with
        | HAILO_STREAM_INTERFACE_PCIE | HAILO_STREAM_INTERFACE_INTEGRATED =>
            CoreOp.get_type device <> CoreOp.ETH
            /\ exists channel, channel_of n = Ok channel
                               /\ stream = VdmaInputStream (stream_interface p) channel l
        | HAILO_STREAM_INTERFACE_ETH => stream = EthernetInputStream l
        | HAILO_STREAM_INTERFACE_MIPI => stream = MipiInputStream l
        end.
Proof.
  unfold create_input, create_input_stream_from_config_params, create_vdma_input_stream.
  destruct (CoreOp.get_layer_info c n) as [l|s]; [|discriminate].
  destruct (CoreOp.is_stream_interface_supported device (stream_interface p));
    cbn [negb]; [|discriminate].
  intros H. split; [reflexivity|]. exists l. split; [reflexivity|].
  destruct (stream_interface p).
  - destruct (CoreOp.get_type device); try discriminate;
      (split; [discriminate|]);
      destruct (channel_of n) as [ch|]; try discriminate;
      exists ch; (split; [reflexivity|]); apply construct_ok in H; now subst.
  - destruct (CoreOp.get_type device); try discriminate;
      (split; [discriminate|]);
      destruct (channel_of n) as [ch|]; try discriminate;
      exists ch; (split; [reflexivity|]); apply construct_ok in H; now subst.
  - apply construct_ok in H. now subst.
  - apply construct_ok in H. now subst.
Qed.

Lemma create_input_name (c : CoreOp.CoreOp) (device : CoreOp.Device)
    (p : hailo_stream_parameters_t) (n : string) (stream : InputStreamBase) :
  create_input c device p n = Ok stream -> input_stream_name stream = n.
Proof.
  intros H. destruct (create_input_ok _ _ _ _ _ H) as (_ & l & Hl & Hc).
  apply get_layer_info_name in Hl.
  destruct (stream_interface p);
    try (destruct Hc as (_ & ch & _ & ->)); try subst stream; exact Hl.
Qed.

Variables sentinel default scale : Z.
Variable vdma_out : hailo_stream_interface_t -> nat -> CoreOp.LayerInfo -> hailo_status.
Variable eth_out : CoreOp.LayerInfo -> hailo_status.
Variable nms_out : CoreOp.OutputStreamBase -> CoreOp.LayerInfo -> Z -> hailo_status.

Let create_output :=
  CoreOp.create_output_stream_from_config_params
    sentinel default scale channel_of vdma_out eth_out nms_out.

(** What a built output stream is made for. *)
Lemma create_output_ok (c : CoreOp.CoreOp) (device : CoreOp.Device)
    (p : hailo_stream_parameters_t) (n : string) (stream : CoreOp.OutputStreamBase) :
  create_output c device p n = Ok stream ->
  CoreOp.is_stream_interface_supported device (stream_interface p) = true
  /\ stream_interface p <> HAILO_STREAM_INTERFACE_MIPI
  /\ output_stream_base_name stream = n
  /\ (stream_interface p <> HAILO_STREAM_INTERFACE_ETH ->
      CoreOp.get_type device <> CoreOp.ETH
      /\ exists b, CoreOp.get_stream_batch_size sentinel default c n = Ok b).
Proof.
  unfold create_output, CoreOp.create_output_stream_from_config_params.
  destruct (CoreOp.get_layer_info c n) as [l|s] eqn:Hl; [|discriminate].
  apply get_layer_info_name in Hl.
  destruct (CoreOp.is_stream_interface_supported device (stream_interface p));
    cbn [negb]; [|discriminate].
  destruct (CoreOp.create_transport_output_stream _ _ _ _ _ _ _ _ _ _)
    as [base|s] eqn:Hb; [|discriminate].
  intros H.
  assert (Hname : output_stream_base_name stream = n).
  { destruct (CoreOp.format_order_eqb _ _).
    - apply construct_ok in H. now subst.
    - injection H as <-.
      unfold CoreOp.create_transport_output_stream, CoreOp.create_vdma_output_stream in Hb.
      destruct (stream_interface p); try discriminate;
        try (apply construct_ok in Hb; now subst);
        destruct (CoreOp.get_type device); try discriminate;
        destruct (CoreOp.get_stream_batch_size _ _ _ _); try discriminate;
        destruct (channel_of n); try discriminate;
        apply construct_ok in Hb; now subst. }
  split; [reflexivity|].
  unfold CoreOp.create_transport_output_stream, CoreOp.create_vdma_output_stream in Hb.
  destruct (stream_interface p); try discriminate.
  - split; [discriminate|]. split; [exact Hname|]. intros _.
    destruct (CoreOp.get_type device); try discriminate;
      (split; [discriminate|]);
      destruct (CoreOp.get_stream_batch_size _ _ _ _) as [b|]; try discriminate;
      now exists b.
  - split; [discriminate|]. split; [exact Hname|]. intros _.
    destruct (CoreOp.get_type device); try discriminate;
      (split; [discriminate|]);
      destruct (CoreOp.get_stream_batch_size _ _ _ _) as [b|]; try discriminate;
      now exists b.
  - split; [discriminate|]. split; [exact Hname|]. congruence.
Qed.

End BuildFacts.

(** X9: [create_input_stream_from_config_params] fails with NOT_FOUND when
    the layer is not found, whatever the device, and with INVALID_OPERATION
    when the layer is found and the device does not support the interface.
    A stream it builds carries the requested name and is of the class of its
    interface, built for the layer found: a VDMA stream on the channel of the
    stream, on a device that is not of the Ethernet type, an Ethernet stream
    or a MIPI stream; it is never a stream around another.  On a device of
    the Ethernet type the PCIe and integrated interfaces give
    INTERNAL_FAILURE. *)
Theorem create_input_stream_result
    (channel_of : string -> Expected nat)
    (vdma_in : hailo_stream_interface_t -> nat -> CoreOp.LayerInfo -> hailo_status)
    (eth_in mipi_in : CoreOp.LayerInfo -> hailo_status)
    (c : CoreOp.CoreOp) (device : CoreOp.Device)
    (stream_params : hailo_stream_parameters_t) (stream_name : string) :
  let create :=
    Topology.create_input_stream_from_config_params
      channel_of vdma_in eth_in mipi_in c device stream_params stream_name in
  let supported :=
    CoreOp.is_stream_interface_supported device (stream_interface stream_params) in
  (forall s, CoreOp.get_layer_info c stream_name = Unexpected s ->
             create = Unexpected HAILO_NOT_FOUND)
  /\ (forall l, CoreOp.get_layer_info c stream_name = Ok l -> supported = false ->
                create = Unexpected HAILO_INVALID_OPERATION)
  /\ (forall l, CoreOp.get_layer_info c stream_name = Ok l -> supported = true ->
                stream_interface stream_params <> HAILO_STREAM_INTERFACE_ETH ->
                stream_interface stream_params <> HAILO_STREAM_INTERFACE_MIPI ->
                CoreOp.get_type device = CoreOp.ETH ->
                create = Unexpected HAILO_INTERNAL_FAILURE)
  /\ (forall stream, create = Ok stream ->
        Topology.input_stream_name stream = stream_name
        /\ supported = true
        /\ exists l, CoreOp.get_layer_info c stream_name = Ok l
           /\ match stream_interface stream_params with
              | HAILO_STREAM_INTERFACE_PCIE | HAILO_STREAM_INTERFACE_INTEGRATED =>
                  CoreOp.get_type device <> CoreOp.ETH
                  /\ exists channel,
                       channel_of stream_name = Ok channel
                       /\ stream = Topology.VdmaInputStream
                                     (stream_interface stream_params) channel l
              | HAILO_STREAM_INTERFACE_ETH => stream = Topology.EthernetInputStream l
              | HAILO_STREAM_INTERFACE_MIPI => stream = Topology.MipiInputStream l
              end).
Proof.
  cbv zeta. split; [|split; [|split]].
  - intros s H. unfold Topology.create_input_stream_from_config_params. rewrite H.
    now rewrite (get_layer_info_status _ _ _ H).
  - intros l H Hs. unfold Topology.create_input_stream_from_config_params.
    now rewrite H, Hs.
  - intros l H Hs He Hm Ht.
    unfold Topology.create_input_stream_from_config_params,
      Topology.create_vdma_input_stream.
    rewrite H, Hs, Ht. cbn [negb]. destruct (stream_interface stream_params); congruence.
  - intros stream H. split; [exact (create_input_name _ _ _ _ _ _ _ _ _ H)|].
    exact (create_input_ok _ _ _ _ _ _ _ _ _ H).
Qed.

Lemma create_input_stream_result_witness :
  Topology.create_input_stream_from_config_params
    (fun _ => Ok 3%nat) (fun _ _ _ => HAILO_SUCCESS) (fun _ => HAILO_SUCCESS)
    (fun _ => HAILO_SUCCESS) planar_core_op
    {| CoreOp.get_type := CoreOp.ETH;
       CoreOp.is_stream_interface_supported := fun _ => true |}
    pcie_output_params "frame_y"
  = Unexpected HAILO_INTERNAL_FAILURE.
Proof.
  refine (proj1 (proj2 (proj2 (create_input_stream_result _ _ _ _ _ _ _ _)))
            (CoreOp.Build_LayerInfo "frame_y" "A" false [] CoreOp.HAILO_FORMAT_ORDER_NHWC)
            _ _ _ _ _); try reflexivity; discriminate.
Defined.

(** X10: [create_output_stream_from_config_params] fails with NOT_FOUND when
    the layer is not found, with INVALID_OPERATION when the device does not
    support the interface, and with NOT_IMPLEMENTED for the MIPI interface
    even on a device that supports it.  A stream it builds carries the
    requested name; on the PCIe and integrated interfaces it is built only on
    a device that is not of the Ethernet type and for a stream that has a
    batch size. *)
Theorem create_output_stream_errors (sentinel default scale : Z)
    (channel_of : string -> Expected nat)
    (vdma_out : hailo_stream_interface_t -> nat -> CoreOp.LayerInfo -> hailo_status)
    (eth_out : CoreOp.LayerInfo -> hailo_status)
    (nms_out : CoreOp.OutputStreamBase -> CoreOp.LayerInfo -> Z -> hailo_status)
    (c : CoreOp.CoreOp) (device : CoreOp.Device)
    (stream_params : hailo_stream_parameters_t) (stream_name : string) :
  let create :=
    CoreOp.create_output_stream_from_config_params
      sentinel default scale channel_of vdma_out eth_out nms_out
      c device stream_params stream_name in
  let supported :=
    CoreOp.is_stream_interface_supported device (stream_interface stream_params) in
  (forall s, CoreOp.get_layer_info c stream_name = Unexpected s ->
             create = Unexpected HAILO_NOT_FOUND)
  /\ (forall l, CoreOp.get_layer_info c stream_name = Ok l -> supported = false ->
                create = Unexpected HAILO_INVALID_OPERATION)
  /\ (forall l, CoreOp.get_layer_info c stream_name = Ok l -> supported = true ->
                stream_interface stream_params = HAILO_STREAM_INTERFACE_MIPI ->
                create = Unexpected HAILO_NOT_IMPLEMENTED)
  /\ (forall stream, create = Ok stream ->
        supported = true
        /\ stream_interface stream_params <> HAILO_STREAM_INTERFACE_MIPI
        /\ Topology.output_stream_base_name stream = stream_name
        /\ (stream_interface stream_params <> HAILO_STREAM_INTERFACE_ETH ->
            CoreOp.get_type device <> CoreOp.ETH
            /\ exists b, CoreOp.get_stream_batch_size sentinel default c stream_name
                         = Ok b)).
Proof.
  cbv zeta. split; [|split; [|split]].
  - intros s H. unfold CoreOp.create_output_stream_from_config_params. rewrite H.
    now rewrite (get_layer_info_status _ _ _ H).
  - intros l H Hs. unfold CoreOp.create_output_stream_from_config_params.
    now rewrite H, Hs.
  - intros l H Hs Hm.
    unfold CoreOp.create_output_stream_from_config_params,
      CoreOp.create_transport_output_stream.
    now rewrite H, Hs, Hm.
  - intros stream H. exact (create_output_ok _ _ _ _ _ _ _ _ _ _ _ _ H).
Qed.

Lemma create_output_stream_errors_witness :
  CoreOp.create_output_stream_from_config_params 0 1 4
    (fun _ => Ok 3%nat) (fun _ _ _ => HAILO_SUCCESS) (fun _ => HAILO_SUCCESS)
    (fun _ _ _ => HAILO_SUCCESS)
    detection_core_op pcie_device
    {| stream_interface := HAILO_STREAM_INTERFACE_MIPI;
       direction := HAILO_D2H_STREAM; flags := 0 |} "nms_out"
  = Unexpected HAILO_NOT_IMPLEMENTED.
Proof.
  refine (proj1 (proj2 (proj2 (create_output_stream_errors _ _ _ _ _ _ _ _ _ _ _)))
            nms_layer _ _ _); reflexivity.
Defined.

(** ** Building all the configured streams *)

Section CreateStreamsFacts.

Import Topology.

Lemma map_find_emplace_present {V} (m : list (string * V)) (k : string) (v : V) :
  map_find (map_emplace m k v) k <> None.
Proof.
  induction m as [|[k0 v0] m IH]; cbn [map_emplace].
  - cbn [map_find]. now rewrite String.eqb_refl.
  - destruct (String_as_OT.compare k k0) eqn:E; cbn [map_find].
    + apply key_compare_eq in E. subst k0. now rewrite String.eqb_refl.
    + now rewrite String.eqb_refl.
    + destruct (String.eqb k0 k); [discriminate | exact IH].
Qed.

Lemma map_find_emplace_iff {V} (m : list (string * V)) (k k' : string) (v : V) :
  map_find (map_emplace m k v) k' <> None <-> k' = k \/ map_find m k' <> None.
Proof.
  destruct (String.eqb_spec k' k) as [->|Hn].
  - split; [now left | intros _; apply map_find_emplace_present].
  - rewrite map_find_emplace_other by exact Hn. split; [now right|].
    intros [H|H]; [congruence | exact H].
Qed.

Variables sentinel default scale ASYNC : Z.
Variable channel_of : string -> Expected nat.
Variable vdma_in : hailo_stream_interface_t -> nat -> CoreOp.LayerInfo -> hailo_status.
Variables eth_in mipi_in : CoreOp.LayerInfo -> hailo_status.
Variable vdma_out : hailo_stream_interface_t -> nat -> CoreOp.LayerInfo -> hailo_status.
Variable eth_out : CoreOp.LayerInfo -> hailo_status.
Variable nms_out : CoreOp.OutputStreamBase -> CoreOp.LayerInfo -> Z -> hailo_status.
Variable set_in : InputStreamBase -> StreamBufferMode -> hailo_status.
Variable set_out : OutputStream -> StreamBufferMode -> hailo_status.
Variable c : CoreOp.CoreOp.
Variable device : CoreOp.Device.

(** The channel lookup fails with a failure status. *)
Hypothesis channel_failure :
  forall n s, channel_of n = Unexpected s -> s <> HAILO_SUCCESS.

Let loop :=
  create_streams_loop sentinel default scale ASYNC channel_of vdma_in eth_in mipi_in
                      vdma_out eth_out nms_out set_in set_out c device.

Lemma construct_failure {T} (st s : hailo_status) (x : T) :
  CoreOp.construct st x = Unexpected s -> s <> HAILO_SUCCESS.
Proof.
  unfold CoreOp.construct. destruct (CoreOp.is_success st) eqn:E; [discriminate|].
  intros H. injection H as <-. now apply is_success_false.
Qed.

Lemma create_input_failure (p : hailo_stream_parameters_t) (n : string) (s : hailo_status) :
  create_input_stream_from_config_params channel_of vdma_in eth_in mipi_in c device p n
  = Unexpected s -> s <> HAILO_SUCCESS.
Proof.
  unfold create_input_stream_from_config_params, create_vdma_input_stream.
  destruct (CoreOp.get_layer_info c n) as [l|s0] eqn:Hl.
  - destruct (negb _); [intros H; injection H as <-; discriminate|].
    destruct (stream_interface p); try apply construct_failure;
      (destruct (CoreOp.get_type device);
       [ | intros H; injection H as <-; discriminate | ]);
      (destruct (channel_of n) eqn:Hc;
       [apply construct_failure | intros H; injection H as <-; now apply (channel_failure n)]).
  - apply get_layer_info_status in Hl. intros H. injection H as <-. subst. discriminate.
Qed.

Lemma create_output_failure (p : hailo_stream_parameters_t) (n : string) (s : hailo_status) :
  CoreOp.create_output_stream_from_config_params
    sentinel default scale channel_of vdma_out eth_out nms_out c device p n
  = Unexpected s -> s <> HAILO_SUCCESS.
Proof.
  unfold CoreOp.create_output_stream_from_config_params.
  destruct (CoreOp.get_layer_info c n) as [l|s0] eqn:Hl.
  - destruct (negb _); [intros H; injection H as <-; discriminate|].
    destruct (CoreOp.create_transport_output_stream _ _ _ _ _ _ _ _ _ _)
      as [base|s1] eqn:Hb.
    + destruct (CoreOp.format_order_eqb _ _); [apply construct_failure | discriminate].
    + intros H. injection H as <-.
      unfold CoreOp.create_transport_output_stream, CoreOp.create_vdma_output_stream in Hb.
      destruct (stream_interface p);
        try (now apply construct_failure in Hb);
        try (injection Hb as <-; discriminate);
        (destruct (CoreOp.get_type device);
         [ | injection Hb as <-; discriminate | ]);
        (destruct (CoreOp.get_stream_batch_size _ _ _ _) eqn:Hbs;
         [ | injection Hb as <-;
             apply stream_batch_size_loop_fail in Hbs; subst;
             discriminate ]);
        (destruct (channel_of n) eqn:Hc;
         [now apply construct_failure in Hb
         | injection Hb as <-; now apply (channel_failure n)]).
  - apply get_layer_info_status in Hl. intros H. injection H as <-. subst. discriminate.
Qed.

Lemma add_input_cases (maps : StreamMaps) (s : InputStreamBase)
    (p : hailo_stream_parameters_t) :
  (exists st tr, st <> HAILO_SUCCESS
                 /\ add_input_stream ASYNC set_in maps s p = (st, maps, tr))
  \/ (exists tr,
        add_input_stream ASYNC set_in maps s p
        = (HAILO_SUCCESS,
           {| m_input_streams := map_emplace (m_input_streams maps) (input_stream_name s) s;
              m_output_streams := m_output_streams maps |}, tr)).
Proof.
  unfold add_input_stream.
  destruct (CoreOp.is_success (set_in s (buffer_mode_for ASYNC p))) eqn:E; cbn [negb].
  - right. eexists. reflexivity.
  - left. do 2 eexists. split; [|reflexivity]. now apply is_success_false.
Qed.

Lemma add_output_cases (maps : StreamMaps) (s : OutputStream)
    (p : hailo_stream_parameters_t) :
  (exists st tr, st <> HAILO_SUCCESS
                 /\ add_output_stream ASYNC set_out maps s p = (st, maps, tr))
  \/ (exists tr,
        add_output_stream ASYNC set_out maps s p
        = (HAILO_SUCCESS,
           {| m_input_streams := m_input_streams maps;
              m_output_streams :=
                map_emplace (m_output_streams maps) (output_stream_name s) s |}, tr)).
Proof.
  unfold add_output_stream.
  destruct (CoreOp.is_success (set_out s (buffer_mode_for ASYNC p))) eqn:E; cbn [negb].
  - right. eexists. reflexivity.
  - left. do 2 eexists. split; [|reflexivity]. now apply is_success_false.
Qed.

(** One turn of the loop: it returns with a failure and the maps as they
    were, or it places one stream, under the configured name and in the map
    of its direction, and goes on. *)
Lemma create_streams_loop_cons (kp : string * hailo_stream_parameters_t)
    (rest : list (string * hailo_stream_parameters_t)) (maps : StreamMaps) :
  (fst (fst (loop (kp :: rest) maps)) <> HAILO_SUCCESS
   /\ snd (fst (loop (kp :: rest) maps)) = maps)
  \/ exists maps1,
       fst (loop (kp :: rest) maps) = fst (loop rest maps1)
       /\ match direction (snd kp) with
          | HAILO_H2D_STREAM =>
              m_output_streams maps1 = m_output_streams maps
              /\ exists s, m_input_streams maps1
                           = map_emplace (m_input_streams maps) (fst kp) s
          | HAILO_D2H_STREAM =>
              m_input_streams maps1 = m_input_streams maps
              /\ exists s, m_output_streams maps1
                           = map_emplace (m_output_streams maps) (fst kp) s
          end.
Proof.
  unfold loop. cbn [create_streams_loop].
  destruct (direction (snd kp)).
  - destruct (create_input_stream_from_config_params _ _ _ _ _ _ _ _) as [s|st] eqn:Hc.
    + pose proof (create_input_name _ _ _ _ _ _ _ _ _ Hc) as Hname.
      destruct (add_input_cases maps s (snd kp)) as [(st & tr & Hst & ->)|(tr & ->)].
      * left. apply is_success_false in Hst. rewrite Hst. cbn [negb fst snd].
        split; [now apply is_success_false | reflexivity].
      * right. cbv beta iota zeta.
        change (CoreOp.is_success HAILO_SUCCESS) with true. cbn [negb].
        exists {| m_input_streams :=
                    map_emplace (m_input_streams maps) (input_stream_name s) s;
                  m_output_streams := m_output_streams maps |}. split.
        -- destruct (create_streams_loop _ _ _ _ _ _ _ _ _ _ _ _ _ _ _ rest _)
             as [[st' m''] tr']. reflexivity.
        -- cbn [m_input_streams m_output_streams]. split; [reflexivity|].
           exists s. now rewrite Hname.
    + left. cbn [fst snd]. split; [|reflexivity]. now apply create_input_failure in Hc.
  - destruct (CoreOp.create_output_stream_from_config_params _ _ _ _ _ _ _ _ _ _ _)
      as [s|st] eqn:Hc.
    + pose proof (create_output_ok _ _ _ _ _ _ _ _ _ _ _ _ Hc) as (_ & _ & Hname & _).
      destruct (add_output_cases maps (LocalOutputStream s) (snd kp))
        as [(st & tr & Hst & ->)|(tr & ->)].
      * left. apply is_success_false in Hst. rewrite Hst. cbn [negb fst snd].
        split; [now apply is_success_false | reflexivity].
      * right. cbv beta iota zeta.
        change (CoreOp.is_success HAILO_SUCCESS) with true. cbn [negb].
        exists {| m_input_streams := m_input_streams maps;
                  m_output_streams :=
                    map_emplace (m_output_streams maps)
                      (output_stream_name (LocalOutputStream s)) (LocalOutputStream s) |}.
        split.
        -- destruct (create_streams_loop _ _ _ _ _ _ _ _ _ _ _ _ _ _ _ rest _)
             as [[st' m''] tr']. reflexivity.
        -- cbn [m_input_streams m_output_streams]. split; [reflexivity|].
           exists (LocalOutputStream s). cbn [output_stream_name]. now rewrite Hname.
    + left. cbn [fst snd]. split; [|reflexivity]. now apply create_output_failure in Hc.
Qed.

Lemma create_streams_loop_result (params : list (string * hailo_stream_parameters_t))
    (maps : StreamMaps) :
  let maps' := snd (fst (loop params maps)) in
  (forall k, map_find (m_input_streams maps) k <> None ->
             map_find (m_input_streams maps') k <> None)
  /\ (forall k, map_find (m_output_streams maps) k <> None ->
                map_find (m_output_streams maps') k <> None)
  /\ (forall k, map_find (m_input_streams maps') k <> None ->
                map_find (m_input_streams maps) k <> None
                \/ exists p, In (k, p) params /\ direction p = HAILO_H2D_STREAM)
  /\ (forall k, map_find (m_output_streams maps') k <> None ->
                map_find (m_output_streams maps) k <> None
                \/ exists p, In (k, p) params /\ direction p = HAILO_D2H_STREAM)
  /\ (fst (fst (loop params maps)) = HAILO_SUCCESS ->
      (forall k p, In (k, p) params -> direction p = HAILO_H2D_STREAM ->
                   map_find (m_input_streams maps') k <> None)
      /\ (forall k p, In (k, p) params -> direction p = HAILO_D2H_STREAM ->
                      map_find (m_output_streams maps') k <> None)).
Proof.
  cbv zeta. revert maps. induction params as [|[k0 p0] rest IH]; intros maps.
  - cbn. repeat split; auto; intros ? ? [].
  - destruct (create_streams_loop_cons (k0, p0) rest maps)
      as [[Hf Hm]|(maps1 & Heq & Hrel)].
    + rewrite Hm. repeat split; auto; congruence.
    + rewrite Heq. destruct (IH maps1) as (I1 & I2 & I3 & I4 & I5).
      cbn [fst snd] in Hrel. destruct (direction p0) eqn:Hd.
      * destruct Hrel as [Ho (s & Hi)]. rewrite Hi in *. rewrite Ho in *.
        split; [intros k H; apply I1, map_find_emplace_iff; now right|].
        split; [exact I2|].
        split. { intros k H. destruct (I3 k H) as [H'|(p & Hp & Hdp)].
                 - apply map_find_emplace_iff in H'. destruct H' as [->|H']; [|now left].
                   right. exists p0. split; [now left | exact Hd].
                 - right. exists p. split; [now right | exact Hdp]. }
        split. { intros k H. destruct (I4 k H) as [H'|(p & Hp & Hdp)]; [now left|].
                 right. exists p. split; [now right | exact Hdp]. }
        intros Hs. destruct (I5 Hs) as [J1 J2]. split.
        -- intros k p [E|Hin] Hdp; [|now apply (J1 k p)].
           injection E as <- <-. apply I1, map_find_emplace_present.
        -- intros k p [E|Hin] Hdp; [|now apply (J2 k p)].
           injection E as <- <-. congruence.
      * destruct Hrel as [Hi (s & Ho)]. rewrite Hi in *. rewrite Ho in *.
        split; [exact I1|].
        split; [intros k H; apply I2, map_find_emplace_iff; now right|].
        split. { intros k H. destruct (I3 k H) as [H'|(p & Hp & Hdp)]; [now left|].
                 right. exists p. split; [now right | exact Hdp]. }
        split. { intros k H. destruct (I4 k H) as [H'|(p & Hp & Hdp)].
                 - apply map_find_emplace_iff in H'. destruct H' as [->|H']; [|now left].
                   right. exists p0. split; [now left | exact Hd].
                 - right. exists p. split; [now right | exact Hdp]. }
        intros Hs. destruct (I5 Hs) as [J1 J2]. split.
        -- intros k p [E|Hin] Hdp; [|now apply (J1 k p)].
           injection E as <- <-. congruence.
        -- intros k p [E|Hin] Hdp; [|now apply (J2 k p)].
           injection E as <- <-. apply I2, map_find_emplace_present.
Qed.

End CreateStreamsFacts.

Lemma input_found_iff (maps : Topology.StreamMaps) (name : string) :
  (exists s, Topology.get_input_stream_by_name maps name = Ok s)
  <-> Topology.map_find (Topology.m_input_streams maps) name <> None.
Proof.
  unfold Topology.get_input_stream_by_name.
  destruct (Topology.map_find _ name) as [s|]; split.
  - discriminate.
  - intros _. now exists s.
  - intros [s H]. discriminate.
  - congruence.
Qed.

Lemma output_found_iff (maps : Topology.StreamMaps) (name : string) :
  (exists s, Topology.get_output_stream_by_name maps name = Ok s)
  <-> Topology.map_find (Topology.m_output_streams maps) name <> None.
Proof.
  unfold Topology.get_output_stream_by_name.
  destruct (Topology.map_find _ name) as [s|]; split.
  - discriminate.
  - intros _. now exists s.
  - intros [s H]. discriminate.
  - congruence.
Qed.

(** X11: [create_streams_from_config_params], where the channel lookup fails
    only with a failure status.  Whatever it returns, no stream that was in
    the maps is lost, and a stream is in the input (output) map afterwards
    only if it was there before or an input (output) stream is configured
    under its name.  When it returns HAILO_SUCCESS, every configured input
    stream is found by name in the input map and every configured output
    stream in the output map. *)
Theorem create_streams_result (sentinel default scale ASYNC : Z)
    (channel_of : string -> Expected nat)
    (vdma_in : hailo_stream_interface_t -> nat -> CoreOp.LayerInfo -> hailo_status)
    (eth_in mipi_in : CoreOp.LayerInfo -> hailo_status)
    (vdma_out : hailo_stream_interface_t -> nat -> CoreOp.LayerInfo -> hailo_status)
    (eth_out : CoreOp.LayerInfo -> hailo_status)
    (nms_out : CoreOp.OutputStreamBase -> CoreOp.LayerInfo -> Z -> hailo_status)
    (set_in : Topology.InputStreamBase -> Topology.StreamBufferMode -> hailo_status)
    (set_out : Topology.OutputStream -> Topology.StreamBufferMode -> hailo_status)
    (c : CoreOp.CoreOp) (device : CoreOp.Device) (maps : Topology.StreamMaps) :
  (forall n s, channel_of n = Unexpected s -> s <> HAILO_SUCCESS) ->
  let r :=
    Topology.create_streams_from_config_params
      sentinel default scale ASYNC channel_of vdma_in eth_in mipi_in
      vdma_out eth_out nms_out set_in set_out c device maps in
  let has_input m name := exists s, Topology.get_input_stream_by_name m name = Ok s in
  let has_output m name := exists s, Topology.get_output_stream_by_name m name = Ok s in
  (forall name, has_input maps name -> has_input (snd (fst r)) name)
  /\ (forall name, has_output maps name -> has_output (snd (fst r)) name)
  /\ (forall name, has_input (snd (fst r)) name ->
                   has_input maps name \/ configured c HAILO_H2D_STREAM name)
  /\ (forall name, has_output (snd (fst r)) name ->
                   has_output maps name \/ configured c HAILO_D2H_STREAM name)
  /\ (fst (fst r) = HAILO_SUCCESS ->
      (forall name, configured c HAILO_H2D_STREAM name -> has_input (snd (fst r)) name)
      /\ (forall name, configured c HAILO_D2H_STREAM name ->
                       has_output (snd (fst r)) name)).
Proof.
  intros Hch. cbv zeta. unfold Topology.create_streams_from_config_params, configured.
  destruct (create_streams_loop_result sentinel default scale ASYNC channel_of
              vdma_in eth_in mipi_in vdma_out eth_out nms_out set_in set_out
              c device Hch (stream_params_by_name (CoreOp.m_config_params c)) maps)
    as (I1 & I2 & I3 & I4 & I5).
  split; [intros n H; apply input_found_iff, I1; now apply input_found_iff|].
  split; [intros n H; apply output_found_iff, I2; now apply output_found_iff|].
  split. { intros n H. apply input_found_iff in H.
           destruct (I3 n H) as [H'|H']; [left; now apply input_found_iff | now right]. }
  split. { intros n H. apply output_found_iff in H.
           destruct (I4 n H) as [H'|H']; [left; now apply output_found_iff | now right]. }
  intros Hs. destruct (I5 Hs) as [J1 J2]. split.
  - intros n (p & Hp & Hd). apply input_found_iff. now apply (J1 n p).
  - intros n (p & Hp & Hd). apply output_found_iff. now apply (J2 n p).
Qed.

Lemma create_streams_result_witness :
  let r :=
    Topology.create_streams_from_config_params 0 1 4 1
      (fun _ => Ok 3%nat) (fun _ _ _ => HAILO_SUCCESS) (fun _ => HAILO_SUCCESS)
      (fun _ => HAILO_SUCCESS) (fun _ _ _ => HAILO_SUCCESS) (fun _ => HAILO_SUCCESS)
      (fun _ _ _ => HAILO_SUCCESS) (fun _ _ => HAILO_SUCCESS) (fun _ _ => HAILO_SUCCESS)
      streaming_core_op pcie_device Topology.no_streams in
  exists s, Topology.get_input_stream_by_name (snd (fst r)) "frame_y" = Ok s.
Proof.
  cbv zeta.
  refine (proj1 (proj2 (proj2 (proj2 (proj2
            (create_streams_result 0 1 4 1
               (fun _ => Ok 3%nat) (fun _ _ _ => HAILO_SUCCESS) (fun _ => HAILO_SUCCESS)
               (fun _ => HAILO_SUCCESS) (fun _ _ _ => HAILO_SUCCESS)
               (fun _ => HAILO_SUCCESS) (fun _ _ _ => HAILO_SUCCESS)
               (fun _ _ => HAILO_SUCCESS) (fun _ _ => HAILO_SUCCESS)
               streaming_core_op pcie_device Topology.no_streams _)))) _) "frame_y"%string _).
  - intros n s H. discriminate H.
  - reflexivity.
  - eexists. split; [right; left; reflexivity | reflexivity].
Defined.

(** The maps that call builds. *)
Example create_streams_maps :
  snd (fst (Topology.create_streams_from_config_params 0 1 4 1
      (fun _ => Ok 3%nat) (fun _ _ _ => HAILO_SUCCESS) (fun _ => HAILO_SUCCESS)
      (fun _ => HAILO_SUCCESS) (fun _ _ _ => HAILO_SUCCESS) (fun _ => HAILO_SUCCESS)
      (fun _ _ _ => HAILO_SUCCESS) (fun _ _ => HAILO_SUCCESS) (fun _ _ => HAILO_SUCCESS)
      streaming_core_op pcie_device Topology.no_streams))
  = {| Topology.m_input_streams :=
         [("frame_y"%string,
           Topology.VdmaInputStream HAILO_STREAM_INTERFACE_PCIE 3
             (CoreOp.Build_LayerInfo "frame_y" "A" false []
                CoreOp.HAILO_FORMAT_ORDER_NHWC))];
       Topology.m_output_streams :=
         [("dense_out"%string,
           Topology.LocalOutputStream
             (CoreOp.VdmaOutputStream HAILO_STREAM_INTERFACE_PCIE 3 dense_layer))] |}.
Proof. reflexivity. Qed.

(** ** More on manual activation *)

Section ActivationOutcome.

Import CoreOp.

Ltac split_activate c b :=
  unfold activate, release_after_failure;
  destruct (is_success (activate_impl c b)) eqn:Hact;
  destruct (status_eqb HAILO_STREAM_ABORTED_BY_USER (activate_impl c b)) eqn:Habt;
  destruct (is_success (activated_event_signal c)) eqn:Hsig;
  destruct (is_success (deactivate_impl c)) eqn:Hdea;
  cbn [negb fst snd app].

Ltac absurd_status :=
  match goal with
  | H1 : is_success ?s = true, H2 : status_eqb HAILO_STREAM_ABORTED_BY_USER ?s = true |- _ =>
      apply is_success_true in H1; apply status_eqb_eq in H2; congruence
  | H1 : is_success ?s = false, H2 : ?s = HAILO_SUCCESS |- _ =>
      apply is_success_false in H1; congruence
  | H1 : is_success ?s = true, H2 : ?s <> HAILO_SUCCESS |- _ =>
      apply is_success_true in H1; congruence
  end.

Lemma activate_succeeds_iff (c : CoreOp) (b : Z) (rt : Runtime) :
  fst (fst (activate c b rt)) = HAILO_SUCCESS
  <-> is_scheduled c = false /\ m_active_core_op_holder rt = None
      /\ activate_impl c b = HAILO_SUCCESS /\ activated_event_signal c = HAILO_SUCCESS.
Proof.
  unfold activate.
  destruct (is_scheduled c); [split; [discriminate | intros (H & _); discriminate]|].
  destruct (m_active_core_op_holder rt) as [h|] eqn:Hh; cbn [is_any_active].
  { split; [discriminate | intros (_ & H & _); discriminate]. }
  split_activate c b; split; intros H;
    try (destruct H as (_ & _ & H1 & H2));
    try absurd_status; try discriminate; try reflexivity;
    try (apply is_success_true in Hact; apply is_success_true in Hsig; now repeat split);
    try (apply is_success_false in Hact; congruence);
    try (apply is_success_false in Hsig; congruence).
Qed.

Lemma activate_failure_restores (c : CoreOp) (b : Z) (rt : Runtime) :
  fst (fst (activate c b rt)) <> HAILO_SUCCESS ->
  m_active_core_op_holder (snd (fst (activate c b rt))) = m_active_core_op_holder rt
  /\ forall id, m_core_op_activated_event (snd (fst (activate c b rt))) id
                = m_core_op_activated_event rt id.
Proof.
  unfold activate.
  destruct (is_scheduled c); [now split|].
  destruct (m_active_core_op_holder rt) as [h|] eqn:Hh; cbn [is_any_active]; [now split|].
  split_activate c b; intros H; try congruence; try absurd_status; now split.
Qed.

Lemma activate_success_runtime (c : CoreOp) (b : Z) (rt : Runtime) :
  fst (fst (activate c b rt)) = HAILO_SUCCESS ->
  forall id, id <> this c ->
             m_core_op_activated_event (snd (fst (activate c b rt))) id
             = m_core_op_activated_event rt id.
Proof.
  unfold activate.
  destruct (is_scheduled c); [discriminate|].
  destruct (is_any_active (m_active_core_op_holder rt)); [discriminate|].
  split_activate c b; intros H id Hid; try discriminate; try reflexivity;
    try (apply is_success_false in Hact; congruence);
    try (apply is_success_false in Hsig; congruence);
    cbn; destruct (Nat.eqb_spec id (this c)); congruence.
Qed.

Lemma activate_counts (c : CoreOp) (b : Z) (rt : Runtime) :
  let tr := snd (activate c b rt) in
  (fst (fst (activate c b rt)) = HAILO_SUCCESS ->
   count_events is_claim tr = 1%nat /\ count_events is_signal tr = 1%nat
   /\ count_events is_deactivation tr = 0%nat /\ count_events is_release tr = 0%nat)
  /\ (fst (fst (activate c b rt)) <> HAILO_SUCCESS ->
      count_events is_release tr = count_events is_claim tr
      /\ count_events is_deactivation tr = count_events is_claim tr)
  /\ (count_events is_claim tr <= 1 /\ count_events is_signal tr <= 1
      /\ count_events is_deactivation tr <= 1)%nat.
Proof.
  cbv zeta. unfold activate.
  destruct (is_scheduled c).
  { cbn. repeat split; (discriminate || lia). }
  destruct (is_any_active (m_active_core_op_holder rt)).
  { cbn. repeat split; (discriminate || lia). }
  split_activate c b; cbn; repeat split; intros; try (discriminate || lia || congruence);
    try absurd_status.
Qed.

End ActivationOutcome.

(** X12: [activate] returns HAILO_SUCCESS exactly when the scheduler is not
    active, the slot is empty and both the hardware step and the signal of
    the activation event succeed; the caller is then the only core-op whose
    state changed.  A call that returns anything else leaves the slot and
    every activation event as they were. *)
Theorem activate_outcome (c : CoreOp.CoreOp) (b : Z) (rt : CoreOp.Runtime) :
  let r := CoreOp.activate c b rt in
  (fst (fst r) = HAILO_SUCCESS
   <-> CoreOp.is_scheduled c = false /\ CoreOp.m_active_core_op_holder rt = None
       /\ CoreOp.activate_impl c b = HAILO_SUCCESS
       /\ CoreOp.activated_event_signal c = HAILO_SUCCESS)
  /\ (fst (fst r) = HAILO_SUCCESS ->
      forall id, id <> CoreOp.this c ->
                 CoreOp.m_core_op_activated_event (snd (fst r)) id
                 = CoreOp.m_core_op_activated_event rt id)
  /\ (fst (fst r) <> HAILO_SUCCESS ->
      CoreOp.m_active_core_op_holder (snd (fst r)) = CoreOp.m_active_core_op_holder rt
      /\ forall id, CoreOp.m_core_op_activated_event (snd (fst r)) id
                    = CoreOp.m_core_op_activated_event rt id).
Proof.
  cbv zeta. split; [apply activate_succeeds_iff|].
  split; [apply activate_success_runtime | apply activate_failure_restores].
Qed.

Lemma activate_outcome_witness :
  let c := with_hooks (plain_core_op 1) false HAILO_SUCCESS HAILO_SUCCESS HAILO_TIMEOUT in
  CoreOp.m_active_core_op_holder (snd (fst (CoreOp.activate c 1 CoreOp.initial_runtime)))
  = None
  /\ forall id, CoreOp.m_core_op_activated_event
                  (snd (fst (CoreOp.activate c 1 CoreOp.initial_runtime))) id
                = false.
Proof.
  cbv zeta.
  refine (proj2 (proj2 (activate_outcome
            (with_hooks (plain_core_op 1) false HAILO_SUCCESS HAILO_SUCCESS HAILO_TIMEOUT)
            1 CoreOp.initial_runtime)) _).
  simpl. discriminate.
Defined.

(** X13: in one call of [activate] the slot is claimed, the event signalled
    and the deactivation step run at most once each.  A call that returns
    HAILO_SUCCESS claims the slot and signals the event exactly once, and
    neither deactivates nor releases the slot; a call that returns anything
    else releases the slot and runs the deactivation step as often as it
    claimed the slot. *)
Theorem activate_event_counts (c : CoreOp.CoreOp) (b : Z) (rt : CoreOp.Runtime) :
  let tr := snd (CoreOp.activate c b rt) in
  (fst (fst (CoreOp.activate c b rt)) = HAILO_SUCCESS ->
   count_events is_claim tr = 1%nat /\ count_events is_signal tr = 1%nat
   /\ count_events is_deactivation tr = 0%nat /\ count_events is_release tr = 0%nat)
  /\ (fst (fst (CoreOp.activate c b rt)) <> HAILO_SUCCESS ->
      count_events is_release tr = count_events is_claim tr
      /\ count_events is_deactivation tr = count_events is_claim tr)
  /\ (count_events is_claim tr <= 1 /\ count_events is_signal tr <= 1
      /\ count_events is_deactivation tr <= 1)%nat.
Proof. apply activate_counts. Qed.

Lemma activate_event_counts_witness :
  let c := with_hooks (plain_core_op 1) false HAILO_SUCCESS HAILO_SUCCESS HAILO_TIMEOUT in
  count_events is_release (snd (CoreOp.activate c 1 CoreOp.initial_runtime))
  = count_events is_claim (snd (CoreOp.activate c 1 CoreOp.initial_runtime))
  /\ count_events is_deactivation (snd (CoreOp.activate c 1 CoreOp.initial_runtime))
     = count_events is_claim (snd (CoreOp.activate c 1 CoreOp.initial_runtime)).
Proof.
  cbv zeta.
  refine (proj1 (proj2 (activate_event_counts
            (with_hooks (plain_core_op 1) false HAILO_SUCCESS HAILO_SUCCESS HAILO_TIMEOUT)
            1 CoreOp.initial_runtime)) _).
  simpl. discriminate.
Defined.

(** X14: after an [activate] that succeeded, [deactivate] by the same core-op
    passes its checks: it returns the status of the deactivation step and
    leaves the slot empty, the event of the caller reset and the events of
    the other core-ops as they were before the activation.  Any core-op that
    is not under the scheduler can then activate, and succeeds exactly when
    its hardware step and its signal do. *)
Theorem activate_deactivate_round_trip (empty_status : hailo_status)
    (c : CoreOp.CoreOp) (b : Z) (rt : CoreOp.Runtime) :
  fst (fst (CoreOp.activate c b rt)) = HAILO_SUCCESS ->
  let rt1 := snd (fst (CoreOp.activate c b rt)) in
  let r2 := CoreOp.deactivate empty_status c rt1 in
  fst (fst r2) = CoreOp.deactivate_impl c
  /\ CoreOp.m_active_core_op_holder (snd (fst r2)) = None
  /\ CoreOp.m_core_op_activated_event (snd (fst r2)) (CoreOp.this c) = false
  /\ (forall id, id <> CoreOp.this c ->
                 CoreOp.m_core_op_activated_event (snd (fst r2)) id
                 = CoreOp.m_core_op_activated_event rt id)
  /\ (forall c2 b2,
        CoreOp.is_scheduled c2 = false ->
        (fst (fst (CoreOp.activate c2 b2 (snd (fst r2)))) = HAILO_SUCCESS
         <-> CoreOp.activate_impl c2 b2 = HAILO_SUCCESS
             /\ CoreOp.activated_event_signal c2 = HAILO_SUCCESS)).
Proof.
  intros H rt1 r2.
  pose proof (proj1 (activate_succeeds_iff c b rt) H) as (Hs & _).
  destruct (activate_success c b rt H) as [Hh _]. fold rt1 in Hh.
  pose proof (activate_success_runtime c b rt H) as He. fold rt1 in He.
  assert (E : r2 = (CoreOp.deactivate_impl c,
                    CoreOp.event_write (CoreOp.holder_clear rt1) (CoreOp.this c) false,
                    [CoreOp.EvHolderClear; CoreOp.EvEventReset (CoreOp.this c);
                     CoreOp.EvDeactivateImpl (CoreOp.this c)]
                    ++ (if CoreOp.is_success (CoreOp.deactivate_impl c) then []
                        else [CoreOp.EvLog LOG_ERROR])
                    ++ [CoreOp.EvLog LOG_INFO; CoreOp.EvAddDataPoint])).
  { unfold r2, CoreOp.deactivate. rewrite Hs, Hh. cbn [CoreOp.holder_get].
    now rewrite Nat.eqb_refl. }
  rewrite E. cbn [fst snd].
  split; [reflexivity|]. split; [reflexivity|].
  split; [cbn; now rewrite Nat.eqb_refl|].
  split.
  - intros id Hid. cbn. destruct (Nat.eqb_spec id (CoreOp.this c)); [congruence|].
    now apply He.
  - intros c2 b2 Hs2. rewrite activate_succeeds_iff. cbn. tauto.
Qed.

Lemma activate_deactivate_round_trip_witness :
  let c := plain_core_op 1 in
  let rt1 := snd (fst (CoreOp.activate c 1 CoreOp.initial_runtime)) in
  fst (fst (CoreOp.deactivate HAILO_INVALID_OPERATION c rt1)) = HAILO_SUCCESS
  /\ CoreOp.m_active_core_op_holder
       (snd (fst (CoreOp.deactivate HAILO_INVALID_OPERATION c rt1))) = None.
Proof.
  cbv zeta.
  pose proof (activate_deactivate_round_trip HAILO_INVALID_OPERATION (plain_core_op 1) 1
                CoreOp.initial_runtime eq_refl) as (H1 & H2 & _).
  split; [exact H1 | exact H2].
Defined.

(** ** Activation of the low-level streams stops at the first failure *)

Section ActivateStreams.

Import CoreOp.

Let ok (p : string * Stream) : Prop := activate_stream (snd p) = HAILO_SUCCESS.

Lemma activate_streams_concat (c : CoreOp) :
  activate_low_level_streams c
  = activate_streams_loop (m_input_streams c ++ m_output_streams c).
Proof.
  unfold activate_low_level_streams.
  induction (m_input_streams c) as [|p l IH].
  - cbn [activate_streams_loop app].
    destruct (activate_streams_loop (m_output_streams c)) as [s tr].
    change (is_success HAILO_SUCCESS) with true. cbn [negb app].
    destruct (is_success s) eqn:E; cbn [negb]; [|reflexivity].
    apply is_success_true in E. now subst.
  - cbn [activate_streams_loop app].
    destruct (status_eqb HAILO_STREAM_ABORTED_BY_USER (activate_stream (snd p))) eqn:A.
    + apply status_eqb_eq in A. rewrite <- A. reflexivity.
    + destruct (is_success (activate_stream (snd p))) eqn:S; cbn [negb].
      * destruct (activate_streams_loop l) as [s_in tr_in].
        destruct (activate_streams_loop (l ++ m_output_streams c)) as [s tr].
        destruct (is_success s_in) eqn:Ein; cbn [negb] in *.
        -- destruct (activate_streams_loop (m_output_streams c)) as [s_out tr_out].
           destruct (is_success s_out); cbn [negb] in *;
             injection IH as <- <-; reflexivity.
        -- injection IH as <- <-. rewrite ?Ein. reflexivity.
      * now rewrite S.
Qed.

Lemma activate_loop_prefix (l : list (string * Stream)) :
  exists done rest,
    l = done ++ rest
    /\ attempted_activations (snd (activate_streams_loop l)) = map fst done
    /\ (fst (activate_streams_loop l) = HAILO_SUCCESS -> rest = [] /\ Forall ok done)
    /\ (fst (activate_streams_loop l) <> HAILO_SUCCESS ->
        exists before failing,
          done = before ++ [failing] /\ Forall ok before
          /\ activate_stream (snd failing) = fst (activate_streams_loop l)).
Proof.
  induction l as [|p l IH].
  - exists [], []. cbn. repeat split; try constructor. intros H. congruence.
  - cbn [activate_streams_loop].
    assert (Hfail : activate_stream (snd p) <> HAILO_SUCCESS ->
                    forall lvl,
                    exists done rest,
                      p :: l = done ++ rest
                      /\ attempted_activations
                           [EvActivateStream (fst p); EvLog lvl] = map fst done
                      /\ (activate_stream (snd p) = HAILO_SUCCESS ->
                          rest = [] /\ Forall ok done)
                      /\ (activate_stream (snd p) <> HAILO_SUCCESS ->
                          exists before failing,
                            done = before ++ [failing] /\ Forall ok before
                            /\ activate_stream (snd failing) = activate_stream (snd p))).
    { intros Hn lvl. exists [p], l. repeat split; try congruence.
      intros _. exists [], p. repeat split. constructor. }
    destruct (status_eqb HAILO_STREAM_ABORTED_BY_USER (activate_stream (snd p))) eqn:A.
    + cbn [fst snd]. apply Hfail. apply status_eqb_eq in A. rewrite <- A. discriminate.
    + destruct (is_success (activate_stream (snd p))) eqn:S; cbn [negb].
      * apply is_success_true in S.
        destruct IH as (done & rest & Hl & Ha & Hs & Hf).
        destruct (activate_streams_loop l) as [s tr]. cbn [fst snd] in *.
        exists (p :: done), rest. split; [now rewrite Hl|].
        split; [cbn; now rewrite <- Ha|].
        split.
        -- intros H. destruct (Hs H) as [H1 H2]. split; [exact H1 | now constructor].
        -- intros H. destruct (Hf H) as (before & failing & H1 & H2 & H3).
           exists (p :: before), failing. split; [now rewrite H1|].
           split; [now constructor | exact H3].
      * cbn [fst snd]. apply Hfail. now apply is_success_false.
Qed.

End ActivateStreams.

(** X15: [activate_low_level_streams] activates the streams in map order,
    inputs first, and stops at the first one that fails: the streams after it
    are not activated, every stream before it activated with HAILO_SUCCESS,
    and its status is the one returned.  With HAILO_SUCCESS returned every
    stream was activated. *)
Theorem activate_streams_stop_at_failure (c : CoreOp.CoreOp) :
  let r := CoreOp.activate_low_level_streams c in
  let ok p := CoreOp.activate_stream (snd p) = HAILO_SUCCESS in
  exists done rest,
    CoreOp.m_input_streams c ++ CoreOp.m_output_streams c = done ++ rest
    /\ attempted_activations (snd r) = map fst done
    /\ (fst r = HAILO_SUCCESS -> rest = [] /\ Forall ok done)
    /\ (fst r <> HAILO_SUCCESS ->
        exists before failing,
          done = before ++ [failing] /\ Forall ok before
          /\ CoreOp.activate_stream (snd failing) = fst r).
Proof.
  cbv zeta. rewrite activate_streams_concat. apply activate_loop_prefix.
Qed.

(** Three streams of which the second fails: the third is not activated. *)
Example activate_streams_skips_rest :
  CoreOp.activate_low_level_streams
    (with_streams (plain_core_op 1)
       [stream "in0" HAILO_SUCCESS HAILO_SUCCESS; stream "in1" HAILO_TIMEOUT HAILO_SUCCESS]
       [stream "out0" HAILO_SUCCESS HAILO_SUCCESS])
  = (HAILO_TIMEOUT,
     [CoreOp.EvActivateStream "in0"; CoreOp.EvActivateStream "in1";
      CoreOp.EvLog LOG_ERROR]).
Proof. reflexivity. Qed.

(** ** Reading a latency twice, and reading one meter *)

Section LatencyReads.

Import CoreOp.

Lemma meters_update_other (m : LatencyMetersMap) (k k' : string) (v : LatencyMeter) :
  k' <> k -> meters_find (meters_update m k v) k' = meters_find m k'.
Proof.
  intros Hn. induction m as [|[k0 v0] m IH]; [reflexivity|].
  cbn [meters_update]. destruct (String.eqb_spec k0 k) as [->|E]; cbn [meters_find].
  - destruct (String.eqb_spec k k'); [congruence | reflexivity].
  - now rewrite IH.
Qed.

Lemma meters_update_same (m : LatencyMetersMap) (k : string) (v old : LatencyMeter) :
  meters_find m k = Some old -> meters_find (meters_update m k v) k = Some v.
Proof.
  induction m as [|[k0 v0] m IH]; [discriminate|].
  cbn [meters_find meters_update]. destruct (String.eqb k0 k) eqn:E; cbn [meters_find].
  - now rewrite E.
  - rewrite E. exact IH.
Qed.

Lemma cleared_reports_nothing (meters : LatencyMetersMap) :
  reported_samples (cleared meters) = [].
Proof. induction meters as [|p l IH]; [reflexivity | exact IH]. Qed.

(** The meters the loop leaves: all without a sample when it clears, and as
    they were when it does not. *)
Lemma latency_loop_meters (clear : bool) (meters : LatencyMetersMap) (s n : Z) :
  snd (fst (latency_meters_loop clear meters s n))
  = if clear then cleared meters else meters.
Proof.
  revert s n. induction meters as [|[k m] meters IH]; intros s n.
  - now destruct clear.
  - cbn [latency_meters_loop]. destruct (sample m) as [v|] eqn:Hm.
    + rewrite (get_latency_sample m clear v Hm). cbn [status_of].
      change (status_eqb HAILO_NOT_AVAILABLE HAILO_SUCCESS) with false. cbv iota.
      specialize (IH (wrap_int64 (s + v)) (wrap_uint32 (n + 1))).
      destruct (latency_meters_loop clear meters _ _) as [[r rest'] tr].
      cbn [fst snd] in *. rewrite IH. now destruct clear.
    + rewrite (get_latency_no_sample m clear Hm). cbn [status_of].
      rewrite status_eqb_refl. specialize (IH s n).
      destruct (latency_meters_loop clear meters s n) as [[r rest'] tr].
      cbn [fst snd] in *. rewrite IH. destruct clear; [|reflexivity].
      cbn [cleared map fst snd]. destruct m as [sm]. cbn in Hm. now subst.
Qed.

Variable HAILO_LATENCY_CLEAR_AFTER_GET : Z.

Let measure := get_latency_measurement HAILO_LATENCY_CLEAR_AFTER_GET.
Let clears (c : CoreOp) : bool :=
  Z.land (latency (m_config_params c)) HAILO_LATENCY_CLEAR_AFTER_GET
  =? HAILO_LATENCY_CLEAR_AFTER_GET.

Lemma aggregate_core_op (c : CoreOp) (meters : LatencyMetersMap) :
  get_latency_meters c = Ok meters -> List.length (m_input_streams c) = 1%nat ->
  snd (fst (measure c EmptyString))
  = with_latency_meters c (if clears c then cleared meters else meters).
Proof.
  intros Hm Hone. unfold measure, get_latency_measurement. rewrite Hm, Hone.
  cbn [String.eqb Nat.eqb negb].
  pose proof (latency_loop_meters (clears c) meters 0 0) as H. unfold clears in H.
  destruct (latency_meters_loop _ meters 0 0) as [[r meters'] tr].
  cbn [fst snd] in H. rewrite H.
  destruct r as [[sum count]|s]; [|reflexivity].
  destruct (0 =? count); reflexivity.
Qed.

Lemma samples_in_range_cleared (meters : LatencyMetersMap) :
  samples_in_range (cleared meters).
Proof.
  unfold samples_in_range. rewrite cleared_reports_nothing.
  repeat split. constructor.
Qed.

End LatencyReads.

(** X16: a second aggregate read.  On a core-op with one input stream, whose
    meter map is there, with samples that fit the counters and some meter
    that has data, the read with an empty name returns the average; read
    again at once, it returns the same average when the latency flags do not
    ask to clear after a read, and NOT_AVAILABLE when they do. *)
Theorem aggregate_latency_read_twice (CLEAR_AFTER_GET : Z)
    (c : CoreOp.CoreOp) (meters : CoreOp.LatencyMetersMap) :
  CoreOp.get_latency_meters c = Ok meters ->
  samples_in_range meters ->
  List.length (CoreOp.m_input_streams c) = 1%nat ->
  CoreOp.reported_samples meters <> [] ->
  let r1 := CoreOp.get_latency_measurement CLEAR_AFTER_GET c EmptyString in
  let r2 := CoreOp.get_latency_measurement CLEAR_AFTER_GET (snd (fst r1)) EmptyString in
  fst (fst r1) = Ok {| CoreOp.avg_hw_latency := average_latency meters |}
  /\ fst (fst r2)
     = if Z.land (latency (CoreOp.m_config_params c)) CLEAR_AFTER_GET =? CLEAR_AFTER_GET
       then Unexpected HAILO_NOT_AVAILABLE
       else fst (fst r1).
Proof.
  intros Hm Hr Hone Hsome r1 r2.
  assert (H1 : fst (fst r1) = Ok {| CoreOp.avg_hw_latency := average_latency meters |}).
  { unfold r1. rewrite (aggregate_latency CLEAR_AFTER_GET c meters Hm Hr), Hone.
    cbn [Nat.eqb]. destruct (CoreOp.reported_samples meters); congruence. }
  split; [exact H1|].
  unfold r2, r1. rewrite (aggregate_core_op CLEAR_AFTER_GET c meters Hm Hone).
  fold r1. rewrite H1.
  destruct (Z.land (latency (CoreOp.m_config_params c)) CLEAR_AFTER_GET
            =? CLEAR_AFTER_GET).
  - rewrite (aggregate_latency CLEAR_AFTER_GET
               (CoreOp.with_latency_meters c (cleared meters)) (cleared meters) eq_refl
               (samples_in_range_cleared meters)).
    cbn [CoreOp.with_latency_meters CoreOp.m_input_streams]. rewrite Hone.
    cbn [Nat.eqb]. now rewrite cleared_reports_nothing.
  - rewrite (aggregate_latency CLEAR_AFTER_GET
               (CoreOp.with_latency_meters c meters) meters eq_refl Hr).
    cbn [CoreOp.with_latency_meters CoreOp.m_input_streams]. rewrite Hone.
    cbn [Nat.eqb]. destruct (CoreOp.reported_samples meters); congruence.
Qed.

Lemma aggregate_latency_read_twice_witness :
  let c := metered_core_op [stream "in0" HAILO_SUCCESS HAILO_SUCCESS] in
  let r1 := CoreOp.get_latency_measurement 2 c EmptyString in
  fst (fst r1) = Ok {| CoreOp.avg_hw_latency := 17 |}
  /\ fst (fst (CoreOp.get_latency_measurement 2 (snd (fst r1)) EmptyString))
     = Unexpected HAILO_NOT_AVAILABLE.
Proof.
  cbv zeta.
  refine (aggregate_latency_read_twice 2
            (metered_core_op [stream "in0" HAILO_SUCCESS HAILO_SUCCESS])
            [meter "net0" (Some 10); meter "net1" None; meter "net2" (Some 25)]
            eq_refl _ eq_refl _).
  - unfold samples_in_range. simpl. repeat split.
    repeat constructor; lia.
  - discriminate.
Defined.

(** X17: reading one meter.  With the meter map there, a read with the name
    of a meter returns the sample of that meter, or NOT_AVAILABLE when it has
    none, whatever the number of input streams; it reads that meter only,
    clears it when the flags ask for it and it had a sample, and leaves every
    other meter as it was. *)
Theorem named_latency_read (CLEAR_AFTER_GET : Z)
    (c : CoreOp.CoreOp) (meters : CoreOp.LatencyMetersMap)
    (name : string) (m : CoreOp.LatencyMeter) :
  CoreOp.get_latency_meters c = Ok meters ->
  name <> EmptyString ->
  CoreOp.meters_find meters name = Some m ->
  let r := CoreOp.get_latency_measurement CLEAR_AFTER_GET c name in
  let clear :=
    Z.land (latency (CoreOp.m_config_params c)) CLEAR_AFTER_GET =? CLEAR_AFTER_GET in
  fst (fst r) = match CoreOp.sample m with
                | Some v => Ok {| CoreOp.avg_hw_latency := v |}
                | None => Unexpected HAILO_NOT_AVAILABLE
                end
  /\ snd r = [CoreOp.EvMeterRead name]
  /\ exists meters',
       CoreOp.get_latency_meters (snd (fst r)) = Ok meters'
       /\ CoreOp.meters_find meters' name
          = Some (match CoreOp.sample m with
                  | Some _ => if clear then {| CoreOp.sample := None |} else m
                  | None => m
                  end)
       /\ forall other, other <> name ->
                        CoreOp.meters_find meters' other = CoreOp.meters_find meters other.
Proof.
  intros Hm Hn Hf. cbv zeta. unfold CoreOp.get_latency_measurement. rewrite Hm.
  destruct (String.eqb_spec name EmptyString) as [E|E]; [congruence|]. rewrite Hf.
  destruct (CoreOp.sample m) as [v|] eqn:Hs.
  - rewrite (get_latency_sample m _ v Hs). cbn [status_of].
    change (status_eqb HAILO_NOT_AVAILABLE HAILO_SUCCESS) with false. cbv iota.
    cbn [fst snd]. split; [reflexivity|]. split; [reflexivity|].
    eexists. split; [reflexivity|]. split.
    + now apply (meters_update_same meters name _ m).
    + intros other Ho. now apply meters_update_other.
  - rewrite (get_latency_no_sample m _ Hs). cbn [status_of]. rewrite status_eqb_refl.
    cbn [fst snd]. split; [reflexivity|]. split; [reflexivity|].
    eexists. split; [reflexivity|]. split.
    + now apply (meters_update_same meters name _ m).
    + intros other Ho. now apply meters_update_other.
Qed.

Lemma named_latency_read_witness :
  let c := metered_core_op [] in
  fst (fst (CoreOp.get_latency_measurement 2 c "net2")) = Ok {| CoreOp.avg_hw_latency := 25 |}
  /\ snd (CoreOp.get_latency_measurement 2 c "net2") = [CoreOp.EvMeterRead "net2"].
Proof.
  cbv zeta.
  pose proof (named_latency_read 2 (metered_core_op [])
                [meter "net0" (Some 10); meter "net1" None; meter "net2" (Some 25)]
                "net2" {| CoreOp.sample := Some 25 |} eq_refl) as H.
  destruct H as (H1 & H2 & _); [discriminate | reflexivity |].
  split; [exact H1 | exact H2].
Defined.

(** * Further properties of the proxy *)

(** X18: the fork hooks, where a connection that cannot be made fails with a
    failure status.  [before_fork] drops the connection and keeps the
    identifier and the name.  After it, [after_fork_in_parent] only
    reconnects: it never duplicates a handle.  [after_fork_in_child]
    reconnects and then duplicates the handle of the group, once, under the
    current process id, and returns what the broker answered; when the
    connection cannot be made it returns that failure and duplicates
    nothing. *)
Theorem fork_hooks_result (VStreamParams : Type) (curr_pid : nat)
    (create_client_result : Expected (Proxy.HailoRtRpcClient VStreamParams))
    (c : Proxy.ConfiguredNetworkGroupClient VStreamParams) :
  (forall s, create_client_result = Unexpected s -> s <> HAILO_SUCCESS) ->
  let c0 := snd (fst (Proxy.before_fork VStreamParams c)) in
  let parent := Proxy.after_fork_in_parent VStreamParams create_client_result c0 in
  let child := Proxy.after_fork_in_child VStreamParams curr_pid create_client_result c0 in
  Proxy.m_client c0 = None
  /\ Proxy.m_identifier c0 = Proxy.m_identifier c
  /\ Proxy.m_network_group_name c0 = Proxy.m_network_group_name c
  /\ Proxy.handle_duplications (snd parent) = []
  /\ match create_client_result with
     | Unexpected s =>
         fst (fst parent) = s /\ Proxy.m_client (snd (fst parent)) = None
         /\ exists tr, child = Some (s, c0, tr) /\ Proxy.handle_duplications tr = []
     | Ok client =>
         fst (fst parent) = HAILO_SUCCESS
         /\ Proxy.m_client (snd (fst parent)) = Some client
         /\ exists tr,
              child
              = Some (status_of (Proxy.ConfiguredNetworkGroup_dup_handle
                                   client (Proxy.m_identifier c) curr_pid),
                      Proxy.with_client VStreamParams c (Some client), tr)
              /\ Proxy.handle_duplications tr
                 = [Proxy.EvDupHandle (Proxy.m_identifier c) curr_pid]
     end.
Proof.
  intros Hwf. cbv zeta. unfold Proxy.after_fork_in_parent, Proxy.after_fork_in_child,
    Proxy.create_client, Proxy.before_fork, Proxy.dup_handle_call.
  cbn [fst snd]. split; [reflexivity|]. split; [reflexivity|]. split; [reflexivity|].
  destruct create_client_result as [client|s].
  - split; [reflexivity|]. split; [reflexivity|]. split; [reflexivity|].
    change (CoreOp.is_success HAILO_SUCCESS) with true.
    cbn [negb Proxy.with_client Proxy.m_client Proxy.m_identifier].
    destruct (Proxy.ConfiguredNetworkGroup_dup_handle client (Proxy.m_identifier c) curr_pid);
      eexists; split; reflexivity.
  - split; [reflexivity|]. split; [reflexivity|]. split; [reflexivity|].
    destruct (CoreOp.is_success s) eqn:E; cbn [negb].
    + apply is_success_true in E. now destruct (Hwf s eq_refl).
    + eexists. split; reflexivity.
Qed.

Lemma fork_hooks_result_witness :
  exists tr,
    Proxy.after_fork_in_child (list string) 4242 (Ok answering_broker)
      (snd (fst (Proxy.before_fork (list string) connected_proxy)))
    = Some (HAILO_SUCCESS, connected_proxy, tr)
    /\ Proxy.handle_duplications tr
       = [Proxy.EvDupHandle
            {| Proxy.network_group_handle := 7; Proxy.vdevice_handle := 1 |} 4242].
Proof.
  pose proof (fork_hooks_result (list string) 4242 (Ok answering_broker) connected_proxy)
    as H.
  destruct H as (_ & _ & _ & _ & _ & _ & H); [discriminate|]. exact H.
Defined.

(** ** The vstreams of the proxy *)

Section VStreams.

Import Proxy.

Context {VS : Type}.
Variable create_status : VStreamIdentifier -> hailo_status.
Variable build : VStreamIdentifier -> VS.
Variable identifier : NetworkGroupIdentifier.

Let vid (handle : nat) : VStreamIdentifier :=
  {| network_group_identifier := identifier; vstream_handle := handle |}.

Let created (handle : nat) : Prop := create_status (vid handle) = HAILO_SUCCESS.
Let creation (handle : nat) : Event := EvVStreamClientCreate (vid handle).

Lemma client_creations_of_creations (handles : list nat) (tail : list Event) :
  client_creations (map creation handles ++ tail)
  = map vid handles ++ client_creations tail.
Proof.
  induction handles as [|h handles IH]; [reflexivity|].
  unfold client_creations in *. cbn [map app flat_map]. now rewrite IH.
Qed.

Lemma broker_requests_of_creations (handles : list nat) (tail : list Event) :
  broker_requests (map creation handles ++ tail) = broker_requests tail.
Proof.
  induction handles as [|h handles IH]; [reflexivity|].
  unfold broker_requests in *. cbn [map app filter]. exact IH.
Qed.

(** The loop gives one vstream per handle, in the order of the handles, each
    under the identifier of the group, every client having been created; or
    the status of the first client that is not created, the clients before it
    created and the clients after it not tried. *)
Lemma vstreams_loop_result (handles : list nat) :
  match fst (vstreams_loop create_status build identifier handles) with
  | Ok vstreams =>
      vstreams = map (fun h => build (vid h)) handles
      /\ Forall created handles
      /\ snd (vstreams_loop create_status build identifier handles)
         = map creation handles
  | Unexpected s =>
      s <> HAILO_SUCCESS
      /\ exists before failing rest,
           handles = before ++ failing :: rest
           /\ Forall created before
           /\ create_status (vid failing) = s
           /\ snd (vstreams_loop create_status build identifier handles)
              = map creation (before ++ [failing]) ++ [EvLog LOG_ERROR]
  end.
Proof.
  induction handles as [|h handles IH]; [now repeat split|].
  cbn [vstreams_loop]. fold (vid h). unfold CoreOp.construct.
  destruct (CoreOp.is_success (create_status (vid h))) eqn:E.
  - apply is_success_true in E.
    destruct (vstreams_loop create_status build identifier handles) as [[vs|s] tr];
      cbn [fst snd] in *.
    + destruct IH as (-> & Hall & ->). split; [reflexivity|].
      split; [now constructor | reflexivity].
    + destruct IH as (Hs & before & failing & rest & -> & Hall & Hf & ->).
      split; [exact Hs|]. exists (h :: before), failing, rest.
      split; [reflexivity|]. split; [now constructor|]. split; [exact Hf | reflexivity].
  - cbn [fst snd]. split; [now apply is_success_false|].
    exists [], h, handles. split; [reflexivity|]. split; [constructor|].
    split; reflexivity.
Qed.

End VStreams.

(** X19: [create_input_vstreams] and [create_output_vstreams], on a proxy that
    is connected.  They ask the broker once, under the current process id,
    and pass on its failure without creating a client.  For the handles the
    broker gives they create one client per handle, in the order of the
    handles and each under the identifier of the group, and return the
    vstreams around them, every client having been created; or they return
    the failure of the first client that is not created: the clients of the
    handles before it were created, the handles after it are not tried, and
    the failure is logged.  The broker is not asked again. *)
Theorem create_vstreams_result (VStreamParams : Type) (curr_pid : nat)
    (input_status output_status : Proxy.VStreamIdentifier -> hailo_status)
    (c : Proxy.ConfiguredNetworkGroupClient VStreamParams)
    (client : Proxy.HailoRtRpcClient VStreamParams) (params : VStreamParams) :
  Proxy.m_client c = Some client ->
  let vid h := {| Proxy.network_group_identifier := Proxy.m_identifier c;
                  Proxy.vstream_handle := h |} in
  let creation h := Proxy.EvVStreamClientCreate (vid h) in
  let asked := Proxy.EvVStreamsCreate (Proxy.m_identifier c) curr_pid in
  match Proxy.InputVStreams_create client (Proxy.m_identifier c) params curr_pid with
  | Unexpected s =>
      Proxy.create_input_vstreams VStreamParams curr_pid input_status c params
      = Some (Unexpected s, [asked; Proxy.EvLog LOG_ERROR])
  | Ok handles =>
      exists r tr,
        Proxy.create_input_vstreams VStreamParams curr_pid input_status c params
        = Some (r, asked :: tr)
        /\ Proxy.broker_requests (asked :: tr) = [asked]
        /\ match r with
           | Ok vstreams =>
               vstreams = map (fun h => Proxy.Build_InputVStream (vid h)) handles
               /\ Forall (fun h => input_status (vid h) = HAILO_SUCCESS) handles
               /\ tr = map creation handles
               /\ Proxy.client_creations tr = map vid handles
           | Unexpected s =>
               s <> HAILO_SUCCESS
               /\ exists before failing rest,
                    handles = before ++ failing :: rest
                    /\ Forall (fun h => input_status (vid h) = HAILO_SUCCESS) before
                    /\ input_status (vid failing) = s
                    /\ tr = map creation (before ++ [failing]) ++ [Proxy.EvLog LOG_ERROR]
                    /\ Proxy.client_creations tr = map vid (before ++ [failing])
           end
  end
  /\ match Proxy.OutputVStreams_create client (Proxy.m_identifier c) params curr_pid with
     | Unexpected s =>
         Proxy.create_output_vstreams VStreamParams curr_pid output_status c params
         = Some (Unexpected s, [asked; Proxy.EvLog LOG_ERROR])
     | Ok handles =>
         exists r tr,
           Proxy.create_output_vstreams VStreamParams curr_pid output_status c params
           = Some (r, asked :: tr)
           /\ Proxy.broker_requests (asked :: tr) = [asked]
           /\ match r with
              | Ok vstreams =>
                  vstreams = map (fun h => Proxy.Build_OutputVStream (vid h)) handles
                  /\ Forall (fun h => output_status (vid h) = HAILO_SUCCESS) handles
                  /\ tr = map creation handles
                  /\ Proxy.client_creations tr = map vid handles
              | Unexpected s =>
                  s <> HAILO_SUCCESS
                  /\ exists before failing rest,
                       handles = before ++ failing :: rest
                       /\ Forall (fun h => output_status (vid h) = HAILO_SUCCESS) before
                       /\ output_status (vid failing) = s
                       /\ tr = map creation (before ++ [failing])
                               ++ [Proxy.EvLog LOG_ERROR]
                       /\ Proxy.client_creations tr = map vid (before ++ [failing])
              end
     end.
Proof.
  intros Hc. cbv zeta.
  unfold Proxy.create_input_vstreams, Proxy.create_output_vstreams. rewrite Hc. split.
  - destruct (Proxy.InputVStreams_create client _ params curr_pid) as [handles|s];
      [|reflexivity].
    pose proof (vstreams_loop_result input_status Proxy.Build_InputVStream
                  (Proxy.m_identifier c) handles) as H.
    destruct (Proxy.vstreams_loop _ _ _ handles) as [r tr]. cbn [fst snd] in H.
    exists r, tr. split; [reflexivity|].
    destruct r as [vstreams|s].
    + destruct H as (Hv & Hall & Htr). subst tr.
      split; [|split; [exact Hv|split; [exact Hall|split; [reflexivity|]]]].
      * unfold Proxy.broker_requests at 1. cbn [filter]. f_equal.
        rewrite <- (app_nil_r (map _ handles)).
        apply (broker_requests_of_creations (Proxy.m_identifier c) handles []).
      * rewrite <- (app_nil_r (map _ handles)).
        rewrite (client_creations_of_creations (Proxy.m_identifier c) handles []).
        apply app_nil_r.
    + destruct H as (Hs & before & failing & rest & Hh & Hall & Hf & Htr). subst tr.
      split.
      * unfold Proxy.broker_requests at 1. cbn [filter]. f_equal.
        apply (broker_requests_of_creations (Proxy.m_identifier c)
                 (before ++ [failing]) [Proxy.EvLog LOG_ERROR]).
      * split; [exact Hs|]. exists before, failing, rest.
        split; [exact Hh|]. split; [exact Hall|]. split; [exact Hf|].
        split; [reflexivity|].
        rewrite (client_creations_of_creations (Proxy.m_identifier c)
                   (before ++ [failing]) [Proxy.EvLog LOG_ERROR]).
        apply app_nil_r.
  - destruct (Proxy.OutputVStreams_create client _ params curr_pid) as [handles|s];
      [|reflexivity].
    pose proof (vstreams_loop_result output_status Proxy.Build_OutputVStream
                  (Proxy.m_identifier c) handles) as H.
    destruct (Proxy.vstreams_loop _ _ _ handles) as [r tr]. cbn [fst snd] in H.
    exists r, tr. split; [reflexivity|].
    destruct r as [vstreams|s].
    + destruct H as (Hv & Hall & Htr). subst tr.
      split; [|split; [exact Hv|split; [exact Hall|split; [reflexivity|]]]].
      * unfold Proxy.broker_requests at 1. cbn [filter]. f_equal.
        rewrite <- (app_nil_r (map _ handles)).
        apply (broker_requests_of_creations (Proxy.m_identifier c) handles []).
      * rewrite <- (app_nil_r (map _ handles)).
        rewrite (client_creations_of_creations (Proxy.m_identifier c) handles []).
        apply app_nil_r.
    + destruct H as (Hs & before & failing & rest & Hh & Hall & Hf & Htr). subst tr.
      split.
      * unfold Proxy.broker_requests at 1. cbn [filter]. f_equal.
        apply (broker_requests_of_creations (Proxy.m_identifier c)
                 (before ++ [failing]) [Proxy.EvLog LOG_ERROR]).
      * split; [exact Hs|]. exists before, failing, rest.
        split; [exact Hh|]. split; [exact Hall|]. split; [exact Hf|].
        split; [reflexivity|].
        rewrite (client_creations_of_creations (Proxy.m_identifier c)
                   (before ++ [failing]) [Proxy.EvLog LOG_ERROR]).
        apply app_nil_r.
Qed.

Lemma create_vstreams_result_witness :
  let asked := Proxy.EvVStreamsCreate (Proxy.m_identifier connected_proxy) 4242 in
  exists r tr,
    Proxy.create_input_vstreams (list string) 4242
      (fun i => if Nat.eqb (Proxy.vstream_handle i) 11 then HAILO_TIMEOUT else HAILO_SUCCESS)
      connected_proxy ["in0"%string]
    = Some (r, asked :: tr)
    /\ Proxy.broker_requests (asked :: tr) = [asked]
    /\ r = Unexpected HAILO_TIMEOUT.
Proof.
  pose proof (create_vstreams_result (list string) 4242
                (fun i => if Nat.eqb (Proxy.vstream_handle i) 11
                          then HAILO_TIMEOUT else HAILO_SUCCESS)
                (fun _ => HAILO_SUCCESS)
                connected_proxy answering_broker ["in0"%string] eq_refl) as [H _].
  cbv zeta in H. simpl in H. destruct H as (r & tr & H & Hb & _).
  cbv zeta. exists r, tr. split; [exact H|]. split; [exact Hb|].
  simpl in H. now injection H as <- _.
Defined.

(** That call, event by event: the broker is asked, the client of the handle
    10 is created, the one of the handle 11 is not, and the call returns. *)
Example create_input_vstreams_second_fails :
  Proxy.create_input_vstreams (list string) 4242
    (fun i => if Nat.eqb (Proxy.vstream_handle i) 11 then HAILO_TIMEOUT else HAILO_SUCCESS)
    connected_proxy ["in0"%string]
  = Some (Unexpected HAILO_TIMEOUT,
          [Proxy.EvVStreamsCreate (Proxy.m_identifier connected_proxy) 4242;
           Proxy.EvVStreamClientCreate
             {| Proxy.network_group_identifier := Proxy.m_identifier connected_proxy;
                Proxy.vstream_handle := 10 |};
           Proxy.EvVStreamClientCreate
             {| Proxy.network_group_identifier := Proxy.m_identifier connected_proxy;
                Proxy.vstream_handle := 11 |};
           Proxy.EvLog LOG_ERROR]).
Proof. reflexivity. Qed.

(** * The slot and the activation events over a run of calls *)

Section HolderSignalled.

Import CoreOp.

Variable HOLDER_EMPTY_STATUS : hailo_status.

(** The core-op in the slot has its activation event signalled. *)
Let holder_signalled (rt : Runtime) : Prop :=
  forall id, m_active_core_op_holder rt = Some id -> Activated rt id.

Lemma activate_keeps_holder_signalled (c : CoreOp) (b : Z) (rt : Runtime) :
  holder_signalled rt -> holder_signalled (snd (fst (activate c b rt))).
Proof.
  intros Inv id. destruct (status_eq_dec (fst (fst (activate c b rt))) HAILO_SUCCESS) as [E|E].
  - destruct (activate_success c b rt E) as [Hh Ha]. rewrite Hh.
    intros H. injection H as <-. exact Ha.
  - destruct (activate_failure_restores c b rt E) as [Hh He]. rewrite Hh.
    intros H. unfold Activated. rewrite He. now apply Inv.
Qed.

Lemma deactivate_keeps_holder_signalled (c : CoreOp) (rt : Runtime) :
  holder_signalled rt ->
  holder_signalled (snd (fst (deactivate HOLDER_EMPTY_STATUS c rt))).
Proof.
  intros Inv. unfold deactivate.
  destruct (is_scheduled c); [exact Inv|].
  destruct (m_active_core_op_holder rt) as [h|] eqn:Hh; cbn [holder_get]; [|exact Inv].
  destruct (Nat.eqb (this c) h); cbn [negb]; [|exact Inv].
  intros id H. discriminate H.
Qed.

Lemma run_calls_holder_signalled (calls : list Call) (rt : Runtime) :
  holder_signalled rt ->
  holder_signalled (fold_left (run_call HOLDER_EMPTY_STATUS) calls rt).
Proof.
  revert rt. induction calls as [|call calls IH]; intros rt Inv; [exact Inv|].
  cbn [fold_left]. apply IH. destruct call as [c b|c]; cbn [run_call].
  - now apply activate_keeps_holder_signalled.
  - now apply deactivate_keeps_holder_signalled.
Qed.

End HolderSignalled.

(** X20: whatever calls of [activate] and [deactivate] were made on a
    device, a core-op is in the slot exactly when its activation event is
    signalled: between calls the slot is never held by a core-op whose
    activation did not complete. *)
Theorem slot_holder_is_activated (empty_status : hailo_status)
    (calls : list CoreOp.Call) (id : nat) :
  CoreOp.m_active_core_op_holder (CoreOp.run_calls empty_status calls) = Some id
  <-> CoreOp.Activated (CoreOp.run_calls empty_status calls) id.
Proof.
  unfold CoreOp.run_calls. split.
  - apply run_calls_holder_signalled. intros i H. discriminate H.
  - apply run_calls_invariant, slot_invariant_initial.
Qed.
